(** * Falcon 1 ascent notebook (scripts/falcon-1/falcon-1.ipynb)

    A shallow embedding of the notebook's helper functions, of its ascent
    cells and of the parameter sweep, with the properties the specification
    states about them.

    Numbers.  Every number the notebook computes with is a Python [float],
    that is an IEEE 754 binary64 value; it is modelled by Rocq's primitive
    [float], whose operations are the same binary64 operations (round to
    nearest, ties to even).  Two points where Python differs from the bare
    IEEE operation are written out: [x / y] raises [ZeroDivisionError] when
    [y] is zero, and [min(a, b)] returns [b] only when [b < a].  The power
    [m ** 2] is the interpreter's [float.__pow__] over the C library's
    [pow]; the helper functions take it as a parameter, and
    [float_pow_with] is what the interpreter makes of a given [pow].

    The game.  The vessel is a remote object; a [Vessel] record is what its
    attributes read at one moment.  The simulation behind the connection
    is a parameter of the script (the class [Simulation]): it may answer
    anything and move on at every call, sleep or clock reading.  The script
    runs [calc_throttle_for_twr] on the remote vessel, so that the mass and
    the available thrust, the latter read twice, are three calls between
    which the game moves on ([calc_throttle_for_twr_call]); the function of
    the same name on a [Vessel] record is what a call returns when the
    numbers hold still.  A [while] loop is unrolled up to a given number of
    rounds ([fuel]). *)

From Stdlib Require Import ZArith Lia Bool List String Floats.
From stdpp Require Import gmap strings pretty.
Import ListNotations.

Set Warnings "-inexact-float,-register-all".

(** ** Python values *)

Inductive exn : Set :=
| ZeroDivisionError
| IndexError
| OverflowError.

(** The result of evaluating a Python expression: a value, or an exception. *)
Inductive result (A : Type) : Type :=
| Ok (a : A)
| Raise (e : exn).
Arguments Ok {A} a.
Arguments Raise {A} e.

Definition rbind {A B} (r : result A) (k : A -> result B) : result B :=
  match r with
  | Ok a => k a
  | Raise e => Raise e
  end.

Module PyFloat.
Local Open Scope float_scope.

(** [min(a, b)] on two arguments: the first one is kept unless the second
    is strictly smaller (so a NaN second argument is never chosen). *)
Definition min2 (a b : float) : float := if b <? a then b else a.

(** [x / y]: true division of floats. *)
Definition truediv (x y : float) : result float :=
  if y =? 0 then Raise ZeroDivisionError else Ok (x / y).

(** [sum(xs)]: a left fold of [+] that starts from the integer [0], which
    the first addition turns into [0.0] (Python 3.8, the notebook's kernel,
    adds the floats one by one). *)
Definition sum (xs : list float) : float := fold_left add xs 0.

(** [xs[0]] *)
Definition item0 {A} (xs : list A) : result A :=
  match xs with
  | x :: _ => Ok x
  | [] => Raise IndexError
  end.
End PyFloat.

(** ** The vessel as the RPC stubs present it *)

Inductive ReferenceFrame : Set :=
| SurfaceFrame          (* vessel.flight() *)
| BodyFrame.            (* vessel.flight(vessel.orbit.body.reference_frame) *)

Record Flight : Set := {
  vertical_speed : float;
  pitch : float;
  mean_altitude : float
}.

Record Orbit : Set := {
  apoapsis_altitude : float
}.

(** A part of the vessel; masses are in kilograms. *)
Inductive Part : Set := mkPart {
  tag : string;
  part_mass : float;
  children : list Part
}.

Record Vessel : Set := {
  mass : float;
  available_thrust : float;
  parts : list Part;
  flight : ReferenceFrame -> Flight;
  orbit : Orbit
}.

(** [vessel.parts.with_tag(t)]: the parts whose tag is [t], in order. *)
Definition with_tag (t : string) (ps : list Part) : list Part :=
  List.filter (fun p => String.eqb (tag p) t) ps.

(** ** Helper functions (cell 4) *)

Section Helpers.
Local Open Scope float_scope.

(** [g = conn.space_center.bodies['Kerbin'].surface_gravity] (cell 3). *)
Variable g : float.

(** [x ** y] on floats is the interpreter's [float.__pow__], which hands
    the general case to the C library's [pow] and raises [OverflowError]
    when that overflows; it is not code of the notebook and is taken as a
    parameter. *)
Variable float_pow : float -> float -> result float.

Definition find_payload_mass (vessel : Vessel) : result float :=
  rbind (PyFloat.item0 (with_tag "payload_decoupler" (parts vessel)))
    (fun payload_decoupler =>
       PyFloat.truediv
         (PyFloat.sum (List.map part_mass (children payload_decoupler)))
         1000.0).

(** The function on a [Vessel] record: what a call returns for given
    numbers, the available thrust being the same when it is tested and
    when it is divided by. *)
Definition calc_throttle_for_twr (target_twr : float) (vessel : Vessel)
  : result float :=
  let mass := mass vessel in
  let weight := mass * g in
  if available_thrust vessel =? 0.0 then
    Ok 0.0
  else
    rbind (PyFloat.truediv (target_twr * weight) (available_thrust vessel))
      (fun throttle => Ok (PyFloat.min2 1.0 throttle)).

(** [calc_pitch_rate = lambda m: 0.0041*m**2 + 0.0259*m + 0.5801] (cell 5);
    [**] binds tighter than [*], and the sum is taken left to right. *)
Definition calc_pitch_rate (m : float) : result float :=
  rbind (float_pow m 2)
    (fun m2 => Ok (0.0041 * m2 + 0.0259 * m + 0.5801)).
End Helpers.

(** [float.__pow__] as the interpreter has it for a positive even exponent
    such as the [2] of [m ** 2]: it sorts out the special cases itself (NaN,
    infinities, zero, one), hands the absolute value to the C library's
    [pow], and raises [OverflowError] when what comes back is infinite.
    The C library's [pow] is [c_pow]. *)
Definition float_pow_with (c_pow : float -> float -> float) (x y : float)
  : result float :=
  (if is_nan x then Ok x
   else if is_infinity x then Ok infinity
   else if x =? 0 then Ok 0
   else if abs x =? 1 then Ok 1
   else let r := c_pow (abs x) y in
        if is_infinity r then Raise OverflowError else Ok r)%float.

(** The power for the exponent [2] with a C library whose [pow] returns
    the correctly rounded square, [float_pow_with (fun a _ => a * a)].  A
    C library need not round correctly: for [0.0397 ** 2] the rounded
    product is [0.00157609], and a [pow] that is one unit in the last place
    off returns [0.0015760899999999998].  The closed examples of this file
    are evaluated with this instance. *)
Definition float_pow_2 (x y : float) : result float :=
  (if is_nan x then Ok x
   else if is_infinity x then Ok infinity
   else if x =? 0 then Ok 0
   else if abs x =? 1 then Ok 1
   else let r := abs x * abs x in
        if is_infinity r then Raise OverflowError else Ok r)%float.

(** ** The script's effects *)

(** Telemetry the script polls. *)
Inductive quantity : Set :=
| VerticalSpeed (rf : ReferenceFrame)
| Pitch (rf : ReferenceFrame)
| MeanAltitude (rf : ReferenceFrame)
| ApoapsisAltitude.

Definition observe (q : quantity) (v : Vessel) : float :=
  match q with
  | VerticalSpeed rf => vertical_speed (flight v rf)
  | Pitch rf => pitch (flight v rf)
  | MeanAltitude rf => mean_altitude (flight v rf)
  | ApoapsisAltitude => apoapsis_altitude (orbit v)
  end.

(** The attributes of the vessel that [calc_throttle_for_twr] reads. *)
Inductive attribute : Set :=
| Mass
| AvailableThrust.

Definition attribute_of (a : attribute) (v : Vessel) : float :=
  match a with
  | Mass => mass v
  | AvailableThrust => available_thrust v
  end.

(** What the script does to the outside, in order: calls over the
    connection (with the answer, for a read), the wall clock, sleeping and
    printing.  [EGet] is a read made inside [calc_throttle_for_twr]: the
    game reacts to it as to any call, but the trace of a run, which shows
    what the cells themselves do, does not keep it. *)
Inductive event : Set :=
| ERead (q : quantity) (v : float)
| ETime (t : float)
| ETargetPitchAndHeading (pitch heading : float)
| EEngage
| EThrottle (x : float)
| EActivateNextStage
| ESleep (seconds : float)
| ELoad (save : string)
| EPrint (line : string)
| EGet (a : attribute) (v : float).

(** Text written to a file: literal characters, and floats formatted by an
    f-string replacement field [{x}]. *)
Inductive fragment : Set :=
| Str (s : string)
| FloatRepr (x : float).

Abbreviation text := (list fragment).

(** ['\n'] *)
Definition newline : string := String (Ascii.ascii_of_nat 10) "".

Inductive outcome (A : Type) : Type :=
| Done (a : A)
| Raised (e : exn)
| OutOfFuel.
Arguments Done {A} a.
Arguments Raised {A} e.
Arguments OutOfFuel {A}.

(** The simulation behind the connection: what the active vessel and the
    wall clock look like in a state of the world, and how the world moves
    on at each thing the script does. *)
Class Simulation (World : Type) : Type := {
  vessel_of : World -> Vessel;
  clock : World -> float;
  react : event -> World -> World
}.

Section Script.
Local Open Scope float_scope.

Variable g : float.
Variable float_pow : float -> float -> result float.

Context {World : Type} {sim : Simulation World}.

Record State : Type := {
  world : World;
  files : gmap string text
}.

Definition M (A : Type) : Type := State -> outcome A * State * list event.

Definition ret {A} (a : A) : M A := fun s => (Done a, s, []).

Definition bind {A B} (m : M A) (k : A -> M B) : M B :=
  fun s =>
    match m s with
    | (Done a, s1, t1) => let '(r, s2, t2) := k a s1 in (r, s2, t1 ++ t2)
    | (Raised e, s1, t1) => (Raised e, s1, t1)
    | (OutOfFuel, s1, t1) => (OutOfFuel, s1, t1)
    end.

#[global] Instance M_ret : MRet M := @ret.
#[global] Instance M_bind : MBind M := fun A B k m => bind m k.

Definition lift {A} (r : result A) : M A :=
  fun s => (match r with Ok a => Done a | Raise e => Raised e end, s, []).

(** One visible action: it is logged and the world reacts to it. *)
Definition emit (e : event) : M unit :=
  fun s => (Done tt, {| world := react e (world s); files := files s |}, [e]).

Definition read (q : quantity) : M float :=
  fun s => let v := observe q (vessel_of (world s)) in
           (Done v, {| world := react (ERead q v) (world s); files := files s |},
            [ERead q v]).

Definition time : M float :=
  fun s => let t := clock (world s) in
           (Done t, {| world := react (ETime t) (world s); files := files s |},
            [ETime t]).

(** The global [vessel]. *)
Definition vessel : M Vessel := fun s => (Done (vessel_of (world s)), s, []).

(** An attribute of the remote vessel read inside a helper function: the
    game answers and reacts; the trace does not keep the read. *)
Definition get (a : attribute) : M float :=
  fun s => let v := attribute_of a (vessel_of (world s)) in
           (Done v, {| world := react (EGet a v) (world s); files := files s |}, []).

Definition sleep (seconds : float) : M unit := emit (ESleep seconds).
Definition target_pitch_and_heading (p h : float) : M unit :=
  emit (ETargetPitchAndHeading p h).
Definition engage : M unit := emit EEngage.
Definition activate_next_stage : M unit := emit EActivateNextStage.
Definition set_throttle (x : float) : M unit := emit (EThrottle x).
Definition load (save : string) : M unit := emit (ELoad save).
Definition print (line : string) : M unit := emit (EPrint line).

(** [open(name, 'w')]: the file is created, or emptied when it exists. *)
Definition open_w (name : string) : M unit :=
  fun s => (Done tt, {| world := world s; files := <[name := []]> (files s) |}, []).

(** [f.write(t)] on the file opened under [name]. *)
Definition write (name : string) (t : text) : M unit :=
  fun s => (Done tt,
            {| world := world s;
               files := <[name := default [] (files s !! name) ++ t]> (files s) |},
            []).

(** [while cond: body], unrolled at most [fuel] times. *)
Fixpoint while (fuel : nat) (cond : M bool) (body : M unit) : M unit :=
  match fuel with
  | O => fun s => (OutOfFuel, s, [])
  | S fuel' =>
      c ← cond;
      if c : bool then body;; while fuel' cond body else ret tt
  end.

(** [for x in xs: body x] *)
Fixpoint for_each {A} (xs : list A) (body : A -> M unit) : M unit :=
  match xs with
  | [] => ret tt
  | x :: xs' => body x;; for_each xs' body
  end.

(** [calc_throttle_for_twr(target_twr, vessel)] as the script runs it, on
    the remote vessel: [vessel.mass] and the two [vessel.available_thrust],
    the one tested against [0.0] and the one divided by, are three reads
    over the connection, and the game moves on at each. *)
Definition calc_throttle_for_twr_call (target_twr : float) : M float :=
  mass ← get Mass;
  let weight := mass * g in
  thrust_tested ← get AvailableThrust;
  if thrust_tested =? 0.0 then
    (* safe against division by 0 *)
    ret 0.0
  else
    thrust ← get AvailableThrust;
    throttle ← lift (PyFloat.truediv (target_twr * weight) thrust);
    ret (PyFloat.min2 1.0 throttle).

(** [vessel.control.throttle = calc_throttle_for_twr(target_twr, vessel)] *)
Definition throttle_for_twr (target_twr : float) : M unit :=
  x ← calc_throttle_for_twr_call target_twr;
  set_throttle x.

(** *** Ignition to MECO (cell 5) *)

(** go straight up until vert. speed is 100 m/s *)
Definition climb_loop (fuel : nat) (target_twr : float) : M unit :=
  while fuel
    (v ← read (VerticalSpeed BodyFrame); ret (v <? 100.0))
    (throttle_for_twr target_twr;;
     sleep 0.1).

(** pitch over at a constant rate s.t. heading is 45 deg at alt. of 15 km *)
Definition first_pitch_over_loop (fuel : nat)
    (target_twr pitch_start pitch_rate : float) : M unit :=
  while fuel
    (p ← read (Pitch SurfaceFrame); ret (45.0 <? p))
    (throttle_for_twr target_twr;;
     now ← time;
     let target_pitch := 90.0 - (now - pitch_start) * pitch_rate in
     target_pitch_and_heading target_pitch 90.0).

(** maintain pitch of 45 deg until apoapsis altitude reaches 30 km *)
Definition hold_45_loop (fuel : nat) (target_twr : float) : M unit :=
  while fuel
    (a ← read ApoapsisAltitude; ret (a <? 30000))
    (throttle_for_twr target_twr;;
     target_pitch_and_heading 45.0 90.0).

Definition ignition_to_meco (fuel : nat) : M unit :=
  (* set target heading to straight up *)
  target_pitch_and_heading 90.0 90.0;;
  engage;;
  sleep 1;;
  (* set throttle s.t. TWR <= 1.3 *)
  let target_twr := 1.3 in
  throttle_for_twr target_twr;;
  activate_next_stage;;
  climb_loop fuel target_twr;;
  let target_twr := 1.5 in
  throttle_for_twr target_twr;;
  v ← vessel;
  m ← lift (find_payload_mass v);
  pitch_rate ← lift (calc_pitch_rate float_pow m);
  pitch_start ← time;
  first_pitch_over_loop fuel target_twr pitch_start pitch_rate;;
  sleep 0.1;;
  hold_45_loop fuel target_twr;;
  sleep 0.1;;
  (* MECO *)
  set_throttle 0.0;;
  activate_next_stage;;
  sleep 0.1.

(** *** MECO to SECO-1 (cell 6) *)

(** pitch over until horizontal *)
Definition second_pitch_over_loop (fuel : nat)
    (pitch_start pitch_rate : float) : M unit :=
  while fuel
    (p ← read (Pitch SurfaceFrame); ret (0.0 <? p))
    (let target_twr := 1.75 in
     throttle_for_twr target_twr;;
     now ← time;
     let target_pitch := 45.0 - (now - pitch_start) * pitch_rate in
     target_pitch_and_heading target_pitch 90.0).

(** continue burning horizontal until apoapsis altitude at 100 km *)
Definition burn_loop (fuel : nat) : M unit :=
  while fuel
    (a ← read ApoapsisAltitude; ret (a <? 100000.0))
    (let target_twr := 1.75 in
     throttle_for_twr target_twr;;
     target_pitch_and_heading 0.0 90.0).

Definition meco_to_seco1 (fuel : nat) : M unit :=
  (* SES-1 *)
  activate_next_stage;;
  let pitch_rate := 1.0 in
  pitch_start ← time;
  second_pitch_over_loop fuel pitch_start pitch_rate;;
  sleep 0.1;;
  burn_loop fuel;;
  sleep 0.1;;
  (* SECO-1 *)
  set_throttle 0.0.

(** *** The pitch-rate sweep (last cell) *)

(** The function repeats cell 5 up to the end of the first pitch-over, loops
    included, with the pitch rate as its argument. *)
Definition find_ascent_altitude (fuel : nat) (pitch_rate : float) : M float :=
  target_pitch_and_heading 90.0 90.0;;
  engage;;
  sleep 1;;
  let target_twr := 1.3 in
  throttle_for_twr target_twr;;
  activate_next_stage;;
  climb_loop fuel target_twr;;
  let target_twr := 1.5 in
  throttle_for_twr target_twr;;
  pitch_start ← time;
  first_pitch_over_loop fuel target_twr pitch_start pitch_rate;;
  read (MeanAltitude SurfaceFrame).

Definition saves : list string := ["pad_125"; "pad_125"; "pad_000"; "pad_000"].
Definition pitch_rates : list float := [0.5; 0.6; 0.7; 0.8; 0.9; 1.0].

(** [f'{save}_{i%2}.txt'] *)
Definition output_name (i : nat) (save : string) : string :=
  save +:+ "_" +:+ pretty (i mod 2)%nat +:+ ".txt".

(** The inner [for pitch_rate in pitch_rates] loop: [ascent_altitudes]
    starts empty and grows by [append]. *)
Fixpoint fly_all (fuel : nat) (save : string) (rates : list float)
    (ascent_altitudes : list float) : M (list float) :=
  match rates with
  | [] => ret ascent_altitudes
  | pitch_rate :: rates' =>
      load save;;
      asc_alt ← find_ascent_altitude fuel pitch_rate;
      fly_all fuel save rates' (ascent_altitudes ++ [asc_alt])
  end.

(** One turn of [for i, save in enumerate(saves)].  The global [vessel] is
    bound anew after loading; the model reads the active vessel from the
    world in any case. *)
Definition sweep_save (fuel : nat) (i : nat) (save : string) : M unit :=
  load save;;
  ascent_altitudes ← fly_all fuel save pitch_rates [];
  (let name := output_name i save in
   open_w name;;
   for_each ascent_altitudes (fun asc => write name [FloatRepr asc; Str newline]));;
  print ("Completed " +:+ pretty (i + 1)%nat +:+ " of 6").

Fixpoint sweep_from (fuel : nat) (i : nat) (rest : list string) : M unit :=
  match rest with
  | [] => ret tt
  | save :: rest' => sweep_save fuel i save;; sweep_from fuel (S i) rest'
  end.

Definition sweep (fuel : nat) : M unit := sweep_from fuel 0 saves.
End Script.

Arguments State : clear implicits.
Arguments M : clear implicits.

(** ** Reading a run and its trace *)

Definition outcome_of {World A} (m : M World A) (s : State World) : outcome A :=
  fst (fst (m s)).
Definition final_state {World A} (m : M World A) (s : State World) : State World :=
  snd (fst (m s)).
Definition trace_of {World A} (m : M World A) (s : State World) : list event :=
  snd (m s).

Definition is_sleep (e : event) : bool :=
  match e with
  | ESleep _ => true
  | _ => false
  end.

(** No poll follows another one without a sleep in between ([slept]: a
    sleep has been seen since the last poll). *)
Fixpoint polls_after_sleep (slept : bool) (t : list event) : bool :=
  match t with
  | [] => true
  | ERead _ _ :: t' => slept && polls_after_sleep false t'
  | ESleep _ :: t' => polls_after_sleep true t'
  | _ :: t' => polls_after_sleep slept t'
  end.

Definition sleeps_between_polls (t : list event) : bool :=
  polls_after_sleep true t.

(** What one round of a pitch-over loop does after its poll: set the
    throttle, read the clock, command the pitch for the time elapsed. *)
Definition pitch_command (start_pitch pitch_start pitch_rate : float)
    (b : list event) : Prop :=
  exists x now,
    let t := (now - pitch_start)%float in
    b = [EThrottle x; ETime now;
         ETargetPitchAndHeading (start_pitch - t * pitch_rate)%float 90.0%float].

(** What one round of the climb loop does after its poll. *)
Definition throttle_then_sleep (b : list event) : Prop :=
  exists x, b = [EThrottle x; ESleep 0.1%float].

Definition no_sleep (e : event) : bool := negb (is_sleep e).

(** The mean altitudes a run read, in order. *)
Fixpoint mean_altitudes (t : list event) : list float :=
  match t with
  | [] => []
  | ERead (MeanAltitude _) v :: t' => v :: mean_altitudes t'
  | _ :: t' => mean_altitudes t'
  end.

(** Anything but a read of an altitude, mean or apoapsis. *)
Definition no_altitude (e : event) : bool :=
  match e with
  | ERead (MeanAltitude _) _ => false
  | ERead ApoapsisAltitude _ => false
  | _ => true
  end.

(** [f'{asc}\n'] *)
Definition altitude_line (asc : float) : text := [FloatRepr asc; Str newline].

(** A throttle setting of at most one (which a NaN is not). *)
Definition throttle_at_most_one (e : event) : bool :=
  match e with
  | EThrottle x => (x <=? 1)%float
  | _ => true
  end.

(** A throttle setting between zero and one. *)
Definition throttle_in_range (e : event) : bool :=
  match e with
  | EThrottle x => ((0 <=? x) && (x <=? 1))%float
  | _ => true
  end.

(** The lines a run printed, in order. *)
Fixpoint printed (t : list event) : list string :=
  match t with
  | [] => []
  | EPrint line :: t' => line :: printed t'
  | _ :: t' => printed t'
  end.

Definition no_print (e : event) : bool :=
  match e with
  | EPrint _ => false
  | _ => true
  end.

(** The wall-clock readings of a run, in order. *)
Fixpoint clock_readings (t : list event) : list float :=
  match t with
  | [] => []
  | ETime now :: t' => now :: clock_readings t'
  | _ :: t' => clock_readings t'
  end.


(** The pitches a run commanded, in order. *)
Fixpoint commanded_pitches (t : list event) : list float :=
  match t with
  | [] => []
  | ETargetPitchAndHeading p _ :: t' => p :: commanded_pitches t'
  | _ :: t' => commanded_pitches t'
  end.

(** Each number is at most the next one. *)
Fixpoint ascending (xs : list float) : bool :=
  match xs with
  | x :: (y :: _) as rest => (x <=? y)%float && ascending rest
  | _ => true
  end.

(** Each number is at least the next one. *)
Fixpoint descending (xs : list float) : bool :=
  match xs with
  | x :: (y :: _) as rest => (y <=? x)%float && descending rest
  | _ => true
  end.

(** The saves a run loaded, in order. *)
Fixpoint loads (t : list event) : list string :=
  match t with
  | [] => []
  | ELoad save :: t' => save :: loads t'
  | _ :: t' => loads t'
  end.

Definition no_load (e : event) : bool :=
  match e with
  | ELoad _ => false
  | _ => true
  end.

(** How many times a run activated the next stage. *)
Fixpoint stagings (t : list event) : nat :=
  match t with
  | [] => 0
  | EActivateNextStage :: t' => S (stagings t')
  | _ :: t' => stagings t'
  end.

Definition no_staging (e : event) : bool :=
  match e with
  | EActivateNextStage => false
  | _ => true
  end.

(** ** A simulation that replays recorded telemetry

    A concrete [World] for running the script: the frames still to come.
    Every read of a telemetry quantity moves on to the next frame; the last
    frame stays for ever. *)

Record Frame : Set := {
  frame_vessel : Vessel;
  frame_clock : float
}.

Module Replay.
Definition World : Set := (Frame * list Frame)%type.

Definition current_vessel (w : World) : Vessel := frame_vessel (fst w).
Definition current_clock (w : World) : float := frame_clock (fst w).

Definition advance (e : event) (w : World) : World :=
  match e, snd w with
  | ERead _ _, f :: fs => (f, fs)
  | _, _ => w
  end.

#[global] Instance sim : Simulation World :=
  {| vessel_of := current_vessel; clock := current_clock; react := advance |}.

(** A vessel with no parts, given by its numbers. *)
Definition probe (m thrust vspeed pitch_deg alt apo : float) : Vessel :=
  {| mass := m;
     available_thrust := thrust;
     parts := [];
     flight := fun _ => {| vertical_speed := vspeed; pitch := pitch_deg;
                           mean_altitude := alt |};
     orbit := {| apoapsis_altitude := apo |} |}.

Definition frame (v : Vessel) (t : float) : Frame :=
  {| frame_vessel := v; frame_clock := t |}.

(** A vessel already climbing at 120 m/s and pitched down to 40 degrees,
    14 km up, on a trajectory whose apoapsis is at 31 km: every loop of an
    ascent ends at its first poll. *)
Definition coasting : Vessel := probe 1000 20000 120 40 14000 31000.

Definition coasting_with (fs : gmap string text) : State World :=
  {| world := (frame coasting 0, []); files := fs |}.

(** A second-stage burn polled three times: the apoapsis is at 50 km, then
    at 90 km, then at 120 km. *)
Definition burning : State World :=
  {| world := (frame (probe 400 9000 900 0 60000 50000) 0,
               [frame (probe 380 9000 1200 0 61000 90000) 1;
                frame (probe 360 9000 1500 0 62000 120000) 2]);
     files := ∅ |}.

(** A two-stage stack: a tank, then the payload decoupler carrying a 100 kg
    probe and a 30 kg antenna, then a second decoupler with the same tag. *)
Definition leaf (t : string) (m : float) : Part :=
  {| tag := t; part_mass := m; children := [] |}.

Definition stack : Vessel :=
  {| mass := 5000;
     available_thrust := 20000;
     parts := [ leaf "tank" 4000;
                {| tag := "payload_decoupler"; part_mass := 50;
                   children := [leaf "probe" 100; leaf "antenna" 30] |};
                {| tag := "payload_decoupler"; part_mass := 50;
                   children := [leaf "ballast" 700] |} ];
     flight := fun _ => {| vertical_speed := 0; pitch := 90; mean_altitude := 0 |};
     orbit := {| apoapsis_altitude := 0 |} |}.

Definition six (x : float) : list float := [x; x; x; x; x; x].
End Replay.

(** More recorded flights. *)
Module Flights.
Local Open Scope float_scope.

(** The numbers of [v] on the two-stage stack of [Replay.stack]. *)
Definition stacked (v : Vessel) : Vessel :=
  {| mass := mass v; available_thrust := available_thrust v;
     parts := parts Replay.stack; flight := flight v; orbit := orbit v |}.

(** A first stage from the pad to MECO in six frames: two rounds of the
    climb loop, one round of the pitch-over, none of the 45 degree hold. *)
Definition lifting_off : State Replay.World :=
  {| world := (Replay.frame Replay.stack 0,
               [Replay.frame (stacked (Replay.probe 5000 90000 50 90 100 200)) 1;
                Replay.frame (stacked (Replay.probe 4900 90000 120 90 500 600)) 2;
                Replay.frame (stacked (Replay.probe 4800 90000 150 80 1000 2000)) 3;
                Replay.frame (stacked (Replay.probe 3000 90000 300 44 14000 20000)) 4;
                Replay.frame (stacked (Replay.probe 2000 90000 500 45 20000 31000)) 5]);
     files := ∅ |}.

(** A payload decoupler with nothing on it. *)
Definition empty_handed : Vessel :=
  {| mass := 50; available_thrust := 0;
     parts := [Replay.leaf "payload_decoupler" 50];
     flight := flight Replay.coasting; orbit := orbit Replay.coasting |}.


(** A pitch-over polled four times, one second apart: 80, 70 and 60
    degrees, then 44. *)
Definition pitching_over : State Replay.World :=
  {| world := (Replay.frame (Replay.probe 4000 90000 150 80 1000 2000) 1,
               [Replay.frame (Replay.probe 3900 90000 200 70 3000 6000) 2;
                Replay.frame (Replay.probe 3800 90000 250 60 6000 12000) 3;
                Replay.frame (Replay.probe 3700 90000 300 44 9000 20000) 4]);
     files := ∅ |}.

(** The stack standing on the pad, engines or no engines: its vertical
    speed stays at zero, so that the climb loop never ends. *)
Definition on_the_pad (fs : gmap string text) : State Replay.World :=
  {| world := (Replay.frame Replay.stack 0, []); files := fs |}.

(** A vessel whose speed, pitch and apoapsis all read as NaN. *)
Definition blind : State Replay.World :=
  {| world := (Replay.frame (Replay.probe 1000 20000 nan nan 0 nan) 0, []);
     files := ∅ |}.
End Flights.

(** ** A simulation in which nothing ever changes

    The vessel of [Replay.coasting], for ever: every state of this world
    reports the same numbers. *)
Module Parked.
Definition World : Set := unit.

#[global] Instance sim : Simulation World :=
  {| vessel_of := fun _ => Replay.coasting;
     clock := fun _ => 0%float;
     react := fun _ w => w |}.

Definition state : State World := {| world := tt; files := ∅ |}.
End Parked.

(** The same with the two-stage stack as the vessel: every state of this
    world has the payload decoupler and its 0.13 t of payload. *)
Module Staged.
Inductive World : Set := coasting_stack.

#[global] Instance sim : Simulation World :=
  {| vessel_of := fun _ => Flights.stacked Replay.coasting;
     clock := fun _ => 0%float;
     react := fun _ w => w |}.

Definition state : State World := {| world := coasting_stack; files := ∅ |}.
End Staged.

(** ** A simulation in which the engine flames out

    The engine gives 20 kN until the script has read the available thrust
    once; from then on it gives none. *)
Module Flameout.
Inductive World : Set :=
| lit
| out.

Definition vessel_in (w : World) : Vessel :=
  match w with
  | lit => Replay.probe 1000 20000 0 90 0 0
  | out => Replay.probe 1000 0 0 90 0 0
  end.

Definition flame_out (e : event) (w : World) : World :=
  match e with
  | EGet AvailableThrust _ => out
  | _ => w
  end.

#[global] Instance sim : Simulation World :=
  {| vessel_of := vessel_in; clock := fun _ => 0%float; react := flame_out |}.

Definition state : State World := {| world := lit; files := ∅ |}.
End Flameout.

(** * Properties *)

(** ** Facts about binary64 comparisons and signs *)

Module FloatFacts.
Local Open Scope float_scope.

Lemma Prim2SF_zero : Prim2SF 0 = S754_zero false.
Proof. reflexivity. Qed.

Lemma Prim2SF_one : Prim2SF 1 = S754_finite false 4503599627370496 (-52).
Proof. reflexivity. Qed.

(** A positive number is not zero. *)
Lemma ltb_0_eqb_0 (x : float) : (0 <? x) = true -> (x =? 0) = false.
Proof.
  rewrite FloatAxioms.ltb_spec, FloatAxioms.eqb_spec, Prim2SF_zero.
  destruct (Prim2SF x) as [[]|[]| |[] m e]; cbn; congruence.
Qed.

(** A negative number is not zero. *)
Lemma ltb_neg_eqb_0 (x : float) : (x <? 0) = true -> (x =? 0) = false.
Proof.
  rewrite FloatAxioms.ltb_spec, FloatAxioms.eqb_spec, Prim2SF_zero.
  destruct (Prim2SF x) as [[]|[]| |[] m e]; cbn; congruence.
Qed.

Lemma ltb_leb (x y : float) : (x <? y) = true -> (x <=? y) = true.
Proof.
  rewrite FloatAxioms.ltb_spec, FloatAxioms.leb_spec. unfold SFltb, SFleb.
  destruct (SFcompare (Prim2SF x) (Prim2SF y)) as [[]|]; congruence.
Qed.

(** The sign of a binary64 value, read off its specification: not
    negative, or not a number at all. *)
Definition sf_nonneg_or_nan (x : spec_float) : bool :=
  match x with
  | S754_nan => true
  | S754_zero _ => true
  | S754_infinity s => negb s
  | S754_finite s _ _ => negb s
  end.

Lemma leb_0_nonneg (x : float) :
  (0 <=? x) = true -> sf_nonneg_or_nan (Prim2SF x) = true.
Proof.
  rewrite FloatAxioms.leb_spec, Prim2SF_zero.
  destruct (Prim2SF x) as [[]|[]| |[] m e]; cbn; congruence.
Qed.

Lemma nonneg_leb_0 (x : float) :
  sf_nonneg_or_nan (Prim2SF x) = true -> is_nan x = false -> (0 <=? x) = true.
Proof.
  unfold is_nan. rewrite FloatAxioms.leb_spec, FloatAxioms.eqb_spec, Prim2SF_zero.
  destruct (Prim2SF x) as [[]|[]| |[] m e]; cbn; try congruence.
  all: unfold SFeqb; cbn; rewrite ?Z.compare_refl, ?Pos.compare_cont_refl;
    cbn; congruence.
Qed.

(** Rounding keeps the sign it is given. *)
Lemma binary_round_aux_sign (s : bool) (m e : Z) (l : location) :
  sf_nonneg_or_nan (binary_round_aux prec emax s m e l) = negb s
  \/ sf_nonneg_or_nan (binary_round_aux prec emax s m e l) = true.
Proof.
  unfold binary_round_aux.
  destruct (shr_fexp prec emax m e l) as [mrs' e'].
  destruct (shr_fexp prec emax _ e' loc_Exact) as [mrs'' e''].
  destruct (shr_m mrs''); cbn; auto.
  destruct (_ <=? _)%Z; cbn; auto.
Qed.

Lemma SFmul_nonneg (x y : spec_float) :
  sf_nonneg_or_nan x = true -> sf_nonneg_or_nan y = true ->
  sf_nonneg_or_nan (SF64mul x y) = true.
Proof.
  destruct x as [sx|[]| |[] mx ex], y as [sy|[]| |[] my ey];
    cbn; try congruence; intros _ _; try reflexivity.
  destruct (binary_round_aux_sign false (Z.pos (mx * my)%positive) (ex + ey)%Z
              loc_Exact);
    assumption.
Qed.

(** Strictly positive: a positive number or plus infinity. *)
Definition sf_pos (x : spec_float) : bool :=
  match x with
  | S754_infinity s => negb s
  | S754_finite s _ _ => negb s
  | _ => false
  end.

Lemma leb_0_neq_0_pos (x : float) :
  (0 <=? x) = true -> (x =? 0) = false -> sf_pos (Prim2SF x) = true.
Proof.
  rewrite FloatAxioms.leb_spec, FloatAxioms.eqb_spec, Prim2SF_zero.
  destruct (Prim2SF x) as [[]|[]| |[] m e]; cbn; congruence.
Qed.

(** The divisor must be strictly positive: a quotient by [-0.0] has the
    opposite sign. *)
Lemma SFdiv_nonneg (x y : spec_float) :
  sf_nonneg_or_nan x = true -> sf_pos y = true ->
  sf_nonneg_or_nan (SF64div x y) = true.
Proof.
  destruct x as [sx|[]| |[] mx ex], y as [sy|[]| |[] my ey];
    cbn; try congruence; intros _ _; try reflexivity.
  destruct (SFdiv_core_binary prec emax (Z.pos mx) ex (Z.pos my) ey) as [[mz ez] lz].
  destruct (binary_round_aux_sign false mz ez lz); assumption.
Qed.

Lemma mul_nonneg (x y : float) :
  sf_nonneg_or_nan (Prim2SF x) = true -> sf_nonneg_or_nan (Prim2SF y) = true ->
  sf_nonneg_or_nan (Prim2SF (x * y)) = true.
Proof. rewrite FloatAxioms.mul_spec. apply SFmul_nonneg. Qed.

Lemma div_nonneg (x y : float) :
  sf_nonneg_or_nan (Prim2SF x) = true -> sf_pos (Prim2SF y) = true ->
  sf_nonneg_or_nan (Prim2SF (x / y)) = true.
Proof. rewrite FloatAxioms.div_spec. apply SFdiv_nonneg. Qed.

(** Something below one is a number. *)
Lemma ltb_not_nan (x y : float) : (x <? y) = true -> is_nan x = false.
Proof.
  unfold is_nan. rewrite FloatAxioms.ltb_spec, FloatAxioms.eqb_spec.
  destruct (Prim2SF x) as [[]|[]| |[] m e]; cbn; try congruence.
  all: intros _; unfold SFeqb; cbn;
    rewrite ?Z.compare_refl, ?Pos.compare_cont_refl; reflexivity.
Qed.
End FloatFacts.

(** ** Rounding to nearest is monotone

    What [binary_round_aux], the rounding step of multiplication and
    division, computes, and that it keeps the order of the exact values.
    Nothing here is about the notebook; it is what the monotonicity of the
    throttle law rests on. *)

Module Rounding.
Local Open Scope Z_scope.

(** *** Digits and powers of two *)

Lemma digits2_pos_bounds (p : positive) :
  2 ^ (Z.pos (digits2_pos p) - 1) <= Z.pos p < 2 ^ Z.pos (digits2_pos p).
Proof.
  induction p as [p IH|p IH|]; cbn [digits2_pos].
  - rewrite Pos2Z.inj_succ.
    replace (Z.succ (Z.pos (digits2_pos p)) - 1) with (Z.succ (Z.pos (digits2_pos p) - 1)) by lia.
    rewrite !Z.pow_succ_r by lia. lia.
  - rewrite Pos2Z.inj_succ.
    replace (Z.succ (Z.pos (digits2_pos p)) - 1) with (Z.succ (Z.pos (digits2_pos p) - 1)) by lia.
    rewrite !Z.pow_succ_r by lia. lia.
  - cbn. lia.
Qed.

Lemma Zdigits2_bounds (m : Z) :
  0 < m -> 2 ^ (Zdigits2 m - 1) <= m < 2 ^ Zdigits2 m.
Proof.
  destruct m as [|p|p]; try lia. intros _. apply digits2_pos_bounds.
Qed.

Lemma Zdigits2_nonneg (m : Z) : 0 <= Zdigits2 m.
Proof. destruct m; cbn; lia. Qed.

Lemma Zdigits2_pos (m : Z) : 0 < m -> 0 < Zdigits2 m.
Proof. destruct m; cbn; lia. Qed.

Lemma pow2_pos (n : Z) : 0 <= n -> 0 < 2 ^ n.
Proof. intros. apply Z.pow_pos_nonneg; lia. Qed.

Lemma pow2_le (a b : Z) : 0 <= a <= b -> 2 ^ a <= 2 ^ b.
Proof. intros. apply Z.pow_le_mono_r; lia. Qed.

Lemma pow2_lt (a b : Z) : 0 <= a < b -> 2 ^ a < 2 ^ b.
Proof. intros. apply Z.pow_lt_mono_r; lia. Qed.

(** A strict bound between powers of two bounds the exponents. *)
Lemma pow2_lt_inv (a b : Z) : 0 <= a -> 0 <= b -> 2 ^ a < 2 ^ b -> a < b.
Proof.
  intros Ha Hb H. destruct (Z.lt_ge_cases a b) as [|Hge]; [assumption|].
  assert (2 ^ b <= 2 ^ a) by (apply pow2_le; lia). lia.
Qed.

Lemma pow2_split (a b : Z) : 0 <= a -> 0 <= b -> 2 ^ (a + b) = 2 ^ a * 2 ^ b.
Proof. intros. apply Z.pow_add_r; lia. Qed.

Lemma pow2_xO (p : positive) : 2 ^ Z.pos p~0 = 2 ^ Z.pos p * 2 ^ Z.pos p.
Proof.
  replace (Z.pos p~0) with (Z.pos p + Z.pos p) by lia.
  apply Z.pow_add_r; lia.
Qed.

Lemma pow2_xI (p : positive) : 2 ^ Z.pos p~1 = 2 * (2 ^ Z.pos p * 2 ^ Z.pos p).
Proof.
  replace (Z.pos p~1) with (1 + (Z.pos p + Z.pos p)) by lia.
  rewrite !Z.pow_add_r by lia. reflexivity.
Qed.

(** *** Jamming: a quotient with two extra bits, the last one sticky *)

Definition jam (n d : Z) : Z :=
  2 * (n / d) + (if n mod d =? 0 then 0 else 1).

Lemma jam_nonneg (n d : Z) : 0 <= n -> 0 < d -> 0 <= jam n d.
Proof.
  intros Hn Hd. unfold jam.
  assert (0 <= n / d) by (apply Z.div_pos; lia).
  destruct (n mod d =? 0); lia.
Qed.

Lemma div_le_cross (n1 d1 n2 d2 : Z) :
  0 <= n1 -> 0 < d1 -> 0 < d2 -> n1 * d2 <= n2 * d1 -> n1 / d1 <= n2 / d2.
Proof.
  intros Hn1 Hd1 Hd2 H.
  apply Z.div_le_lower_bound; [lia|].
  (* d2 * (n1/d1) <= n2 *)
  pose proof (Z.mul_div_le n1 d1 Hd1) as Hq.
  assert (0 <= n1 / d1) by (apply Z.div_pos; lia).
  nia.
Qed.

Lemma jam_le (n1 d1 n2 d2 : Z) :
  0 <= n1 -> 0 < d1 -> 0 < d2 -> n1 * d2 <= n2 * d1 ->
  jam n1 d1 <= jam n2 d2.
Proof.
  intros Hn1 Hd1 Hd2 H. unfold jam.
  pose proof (div_le_cross n1 d1 n2 d2 Hn1 Hd1 Hd2 H) as Hq.
  destruct (n2 mod d2 =? 0) eqn:E2; destruct (n1 mod d1 =? 0) eqn:E1; try lia.
  apply Z.eqb_eq in E2. apply Z.eqb_neq in E1.
  enough (n1 / d1 <> n2 / d2) by lia. intros Heq.
  pose proof (Z.div_mod n1 d1 ltac:(lia)) as H1.
  pose proof (Z.div_mod n2 d2 ltac:(lia)) as H2.
  pose proof (Z.mod_pos_bound n1 d1 Hd1) as B1.
  rewrite E2, <- Heq in H2. nia.
Qed.

(** One more bit jammed away. *)
Definition jam1 (k : Z) : Z :=
  k / 2 + (if (k mod 2 =? 1) && Z.even (k / 2) then 1 else 0).

Lemma jam_double (n d : Z) : 0 <= n -> 0 < d -> jam n (2 * d) = jam1 (jam n d).
Proof.
  intros Hn Hd. unfold jam, jam1.
  assert (Hq : 0 <= n / d) by (apply Z.div_pos; lia).
  pose proof (Z.mod_pos_bound n d Hd) as Bm.
  rewrite (Z.mul_comm 2 d), <- Z.div_div, Z.rem_mul_r by lia.
  rewrite Zeven_mod.
  set (q := n / d) in *. set (r := n mod d) in *. clearbody q r.
  destruct (r =? 0) eqn:E; [apply Z.eqb_eq in E|apply Z.eqb_neq in E].
  all: repeat match goal with
         | |- context [?a =? ?b] => destruct (Z.eqb_spec a b)
         end; cbn [andb]; Z.div_mod_to_equations; nia.
Qed.

(** *** Shifting a mantissa right *)

(** A mantissa with its round and sticky bits, as one integer. *)
Definition Krec (mrs : shr_record) : Z :=
  4 * shr_m mrs + (if shr_r mrs then 2 else 0) + (if shr_s mrs then 1 else 0).

Definition loc_code (l : location) : Z :=
  match l with
  | loc_Exact => 0
  | loc_Inexact Lt => 1
  | loc_Inexact Eq => 2
  | loc_Inexact Gt => 3
  end.

Lemma Krec_of_loc (m : Z) (l : location) :
  Krec (shr_record_of_loc m l) = 4 * m + loc_code l.
Proof.
  destruct l as [|[]]; unfold Krec;
    cbn [shr_record_of_loc shr_m shr_r shr_s loc_code]; lia.
Qed.

Lemma shr_m_of_loc (m : Z) (l : location) : shr_m (shr_record_of_loc m l) = m.
Proof. now destruct l as [|[]]. Qed.

Lemma shr_1_div2 (m : Z) (r s : bool) :
  0 <= m ->
  shr_1 {| shr_m := m; shr_r := r; shr_s := s |}
  = {| shr_m := m / 2; shr_r := Z.odd m; shr_s := r || s |}.
Proof.
  intros Hm. destruct m as [|[p|p|]|p]; try lia; cbn [shr_1 Z.odd].
  - reflexivity.
  - f_equal. rewrite Pos2Z.inj_xI. symmetry.
    rewrite Z.add_comm, Z.mul_comm, Z.div_add by lia. reflexivity.
  - f_equal. rewrite Pos2Z.inj_xO. symmetry.
    rewrite Z.mul_comm, Z.div_mul by lia. reflexivity.
  - reflexivity.
Qed.

Lemma jam1_Krec (m : Z) (r s : bool) :
  0 <= m ->
  jam1 (Krec {| shr_m := m; shr_r := r; shr_s := s |})
  = Krec {| shr_m := m / 2; shr_r := Z.odd m; shr_s := r || s |}.
Proof.
  intros Hm. unfold jam1, Krec. cbn [shr_m shr_r shr_s].
  rewrite Zeven_mod. pose proof (Zmod_odd m) as Hodd.
  destruct (Z.odd m), r, s; cbn [orb];
    repeat match goal with
      | |- context [?a =? ?b] => destruct (Z.eqb_spec a b)
      end; cbn [andb]; Z.div_mod_to_equations; lia.
Qed.

Lemma shr_1_Krec (mrs : shr_record) :
  0 <= shr_m mrs ->
  Krec (shr_1 mrs) = jam1 (Krec mrs) /\ 0 <= shr_m (shr_1 mrs).
Proof.
  destruct mrs as [m r s]. cbn [shr_m]. intros Hm.
  rewrite jam1_Krec, shr_1_div2 by assumption. split; [reflexivity|].
  cbn [shr_m]. apply Z.div_pos; lia.
Qed.

Lemma iter_pos_shr_1 (p : positive) :
  forall (mrs : shr_record) (n d : Z),
    0 <= n -> 0 < d -> 0 <= shr_m mrs -> Krec mrs = jam n d ->
    Krec (SpecFloat.iter_pos shr_1 p mrs) = jam n (d * 2 ^ Z.pos p)
    /\ 0 <= shr_m (SpecFloat.iter_pos shr_1 p mrs).
Proof.
  induction p as [p IH|p IH|]; intros mrs n d Hn Hd Hm HK; cbn [SpecFloat.iter_pos].
  - destruct (shr_1_Krec mrs Hm) as [HK1 Hm1].
    rewrite HK, <- jam_double in HK1 by assumption.
    destruct (IH _ n (2 * d) Hn ltac:(lia) Hm1 HK1) as [HK2 Hm2].
    assert (0 < 2 ^ Z.pos p) by (apply pow2_pos; lia).
    destruct (IH _ n (2 * d * 2 ^ Z.pos p) Hn ltac:(nia) Hm2 HK2) as [HK3 Hm3].
    split; [|assumption]. rewrite HK3, pow2_xI. f_equal. ring.
  - destruct (IH _ n d Hn Hd Hm HK) as [HK2 Hm2].
    assert (0 < 2 ^ Z.pos p) by (apply pow2_pos; lia).
    destruct (IH _ n (d * 2 ^ Z.pos p) Hn ltac:(nia) Hm2 HK2) as [HK3 Hm3].
    split; [|assumption]. rewrite HK3, pow2_xO. f_equal. ring.
  - destruct (shr_1_Krec mrs Hm) as [HK1 Hm1].
    rewrite HK, <- jam_double in HK1 by assumption.
    split; [|assumption]. rewrite HK1. f_equal. rewrite Z.pow_1_r. ring.
Qed.

(** Shifting by [k >= 0] bits divides by [2 ^ k]. *)
Lemma shr_Krec (mrs : shr_record) (e k n d : Z) :
  0 <= n -> 0 < d -> 0 <= shr_m mrs -> Krec mrs = jam n d -> 0 <= k ->
  Krec (fst (shr mrs e k)) = jam n (d * 2 ^ k)
  /\ 0 <= shr_m (fst (shr mrs e k))
  /\ snd (shr mrs e k) = e + k.
Proof.
  intros Hn Hd Hm HK Hk. destruct k as [|p|p]; try lia; cbn [shr fst snd].
  - rewrite Z.mul_1_r. split; [assumption|]. split; [assumption|lia].
  - destruct (iter_pos_shr_1 p mrs n d Hn Hd Hm HK). auto.
Qed.

(** No shift at all for a negative count. *)
Lemma shr_neg (mrs : shr_record) (e k : Z) : k <= 0 -> shr mrs e k = (mrs, e).
Proof. destruct k; try reflexivity. lia. Qed.

(** *** Rounding to nearest, ties to even, on a jammed mantissa *)

Definition rne4 (k : Z) : Z :=
  let m := k / 4 in
  let c := k mod 4 in
  if c <? 2 then m
  else if c =? 2 then (if Z.even m then m else m + 1)
  else m + 1.

Lemma div_mod_4 (m c : Z) :
  0 <= c < 4 -> (4 * m + c) / 4 = m /\ (4 * m + c) mod 4 = c.
Proof. intros. Z.div_mod_to_equations. lia. Qed.

Lemma round_nearest_even_Krec (mrs : shr_record) :
  round_nearest_even (shr_m mrs) (loc_of_shr_record mrs) = rne4 (Krec mrs).
Proof.
  destruct mrs as [m r s]. unfold Krec, rne4.
  cbn [shr_m shr_r shr_s].
  destruct r, s; cbn [loc_of_shr_record round_nearest_even].
  - replace (4 * m + 2 + 1) with (4 * m + 3) by lia.
    destruct (div_mod_4 m 3 ltac:(lia)) as [-> ->]. reflexivity.
  - replace (4 * m + 2 + 0) with (4 * m + 2) by lia.
    destruct (div_mod_4 m 2 ltac:(lia)) as [-> ->]. reflexivity.
  - replace (4 * m + 0 + 1) with (4 * m + 1) by lia.
    destruct (div_mod_4 m 1 ltac:(lia)) as [-> ->]. reflexivity.
  - replace (4 * m + 0 + 0) with (4 * m + 0) by lia.
    destruct (div_mod_4 m 0 ltac:(lia)) as [-> ->]. reflexivity.
Qed.

Lemma rne4_bounds (k : Z) : k / 4 <= rne4 k <= k / 4 + 1.
Proof.
  unfold rne4. destruct (_ <? _); [lia|].
  destruct (_ =? _); [|lia]. destruct (Z.even _); lia.
Qed.

Lemma rne4_le (k1 k2 : Z) : k1 <= k2 -> rne4 k1 <= rne4 k2.
Proof.
  intros H. unfold rne4. rewrite !Zeven_mod.
  repeat match goal with
    | |- context [?a <? ?b] => destruct (Z.ltb_spec a b)
    | |- context [?a =? ?b] => destruct (Z.eqb_spec a b)
    end; Z.div_mod_to_equations; lia.
Qed.

(** *** The order of binary64 values, as integers

    A finite binary64 value is a multiple of [2 ^ -1074]; [ord] is that
    multiple, and infinity is put above every finite value. *)

Definition BIG : Z := 2 ^ 2098.

Definition ord (x : spec_float) : Z :=
  match x with
  | S754_zero _ => 0
  | S754_nan => 0
  | S754_infinity s => if s then - BIG else BIG
  | S754_finite s m e =>
      if s then - (Z.pos m * 2 ^ (e + 1074)) else Z.pos m * 2 ^ (e + 1074)
  end.

Definition sf_nan (x : spec_float) : bool :=
  match x with
  | S754_nan => true
  | _ => false
  end.

Lemma BIG_pos : 0 < BIG.
Proof. apply pow2_pos. lia. Qed.

Lemma fexp_eq (z : Z) : fexp prec emax z = Z.max (z - 53) (-1074).
Proof. reflexivity. Qed.

(** *** What [binary_round_aux] computes *)

(** [(m, l)] places the fraction [n / d]: [m] is its integer part and [l]
    tells where the rest lies with respect to one half. *)
Definition located (m : Z) (l : location) (n d : Z) : Prop :=
  0 <= n /\ 0 < d /\ 4 * m + loc_code l = jam (2 * n) d.

Lemma jam4_div (n d : Z) : 0 <= n -> 0 < d -> jam (2 * n) d / 4 = n / d.
Proof.
  intros Hn Hd. unfold jam.
  assert (Hq : 2 * n / d / 2 = n / d).
  { rewrite Z.div_div by lia. rewrite (Z.mul_comm d 2).
    apply Z.div_mul_cancel_l; lia. }
  rewrite <- Hq. set (q := 2 * n / d).
  destruct (_ =? _); Z.div_mod_to_equations; lia.
Qed.

Lemma located_div (m : Z) (l : location) (n d : Z) :
  located m l n d -> m = n / d /\ 0 <= m.
Proof.
  intros (Hn & Hd & HK).
  assert (Hm : m = n / d).
  { rewrite <- (jam4_div n d Hn Hd), <- HK.
    destruct l as [|[]]; cbn [loc_code]; Z.div_mod_to_equations; lia. }
  split; [assumption|]. rewrite Hm. apply Z.div_pos; lia.
Qed.

(** The mantissa shifted to its exponent has at most 53 bits, and exactly 53
    above the subnormal range. *)
Lemma shifted_mantissa_bounds (m e : Z) :
  0 <= m ->
  e <= fexp prec emax (Zdigits2 m + e) ->
  0 <= m / 2 ^ (fexp prec emax (Zdigits2 m + e) - e) < 2 ^ 53
  /\ (-1074 < fexp prec emax (Zdigits2 m + e) ->
      2 ^ 52 <= m / 2 ^ (fexp prec emax (Zdigits2 m + e) - e)).
Proof.
  intros Hm. rewrite fexp_eq.
  set (dg := Zdigits2 m). set (e' := Z.max (dg + e - 53) (-1074)). intros He.
  set (k := e' - e). assert (Hk : 0 <= k) by (unfold k; lia).
  assert (H2k : 0 < 2 ^ k) by now apply pow2_pos.
  assert (Hdg : 0 <= dg) by apply Zdigits2_nonneg.
  assert (Hup : m < 2 ^ dg).
  { destruct (Z.eq_dec m 0) as [->|Hne]; [apply pow2_pos; lia|].
    apply Zdigits2_bounds. lia. }
  split; [split|].
  - apply Z.div_pos; lia.
  - apply Z.div_lt_upper_bound; [lia|].
    rewrite <- pow2_split by lia.
    assert (2 ^ dg <= 2 ^ (k + 53)) by (apply pow2_le; unfold k, e'; lia). lia.
  - intros Hnorm.
    assert (Hk' : k = dg - 53) by (unfold k, e' in *; lia).
    assert (0 < m).
    { destruct (Z.eq_dec m 0) as [->|Hne]; [|lia]. cbn in dg. lia. }
    apply Z.div_le_lower_bound; [lia|].
    rewrite <- pow2_split by lia.
    replace (k + 52) with (dg - 1) by lia.
    apply Zdigits2_bounds. lia.
Qed.

(** The end of [binary_round_aux]: the rounded mantissa is renormalised and
    checked for overflow. *)
Definition round_result (s : bool) (m' e' : Z) : spec_float :=
  let '(mrs'', e'') := shr_fexp prec emax m' e' loc_Exact in
  match shr_m mrs'' with
  | Z0 => S754_zero s
  | Zpos m => if e'' <=? emax - prec then S754_finite s m e'' else S754_infinity s
  | Zneg _ => S754_nan
  end.

Lemma binary_round_aux_unfold (s : bool) (m e : Z) (l : location) :
  binary_round_aux prec emax s m e l
  = round_result s
      (round_nearest_even (shr_m (fst (shr_fexp prec emax m e l)))
         (loc_of_shr_record (fst (shr_fexp prec emax m e l))))
      (snd (shr_fexp prec emax m e l)).
Proof.
  unfold binary_round_aux, round_result.
  destruct (shr_fexp prec emax m e l) as [mrs' e']. reflexivity.
Qed.

Lemma shr_zero (e k : Z) :
  shr_m (fst (shr {| shr_m := 0; shr_r := false; shr_s := false |} e k)) = 0.
Proof.
  destruct (Z.le_gt_cases k 0) as [Hk|Hk].
  - rewrite shr_neg by assumption. reflexivity.
  - destruct (shr_Krec {| shr_m := 0; shr_r := false; shr_s := false |} e k 0 1
                ltac:(lia) ltac:(lia) ltac:(cbn [shr_m]; lia) ltac:(reflexivity)
                ltac:(lia))
      as (HK & Hm & _).
    unfold jam in HK. rewrite Z.div_0_l, Z.mod_0_l in HK
      by (assert (0 < 2 ^ k) by (apply pow2_pos; lia); lia).
    cbn [Z.eqb] in HK. unfold Krec in HK.
    destruct (shr_r _), (shr_s _); lia.
Qed.

Lemma BIG_53 : BIG = 2 ^ 53 * 2 ^ 2045.
Proof. unfold BIG. rewrite <- pow2_split by lia. reflexivity. Qed.

Lemma BIG_52 : BIG = 2 ^ 52 * 2 ^ 2046.
Proof. unfold BIG. rewrite <- pow2_split by lia. reflexivity. Qed.

(** A mantissa below [2 ^ 53] at an exponent up to 971 is a finite value,
    below [BIG]; a mantissa from [2 ^ 52] on at a larger exponent is not. *)
Lemma below_BIG (m e : Z) :
  0 <= m < 2 ^ 53 -> -1074 <= e <= 971 -> m * 2 ^ (e + 1074) < BIG.
Proof.
  intros Hm He. rewrite BIG_53.
  assert (0 < 2 ^ (e + 1074)) by (apply pow2_pos; lia).
  assert (2 ^ (e + 1074) <= 2 ^ 2045) by (apply pow2_le; lia).
  nia.
Qed.

Lemma above_BIG (m e : Z) :
  2 ^ 52 <= m -> 971 < e -> BIG <= m * 2 ^ (e + 1074).
Proof.
  intros Hm He. rewrite BIG_52.
  assert (0 < 2 ^ 52) by (apply pow2_pos; lia).
  assert (0 < 2 ^ 2046) by (apply pow2_pos; lia).
  assert (2 ^ 2046 <= 2 ^ (e + 1074)) by (apply pow2_le; lia).
  nia.
Qed.

Lemma round_result_carry (e' : Z) :
  -1074 <= e' ->
  ord (round_result false (2 ^ 53) e') = Z.min (2 ^ 53 * 2 ^ (e' + 1074)) BIG.
Proof.
  intros He. unfold round_result, shr_fexp. rewrite fexp_eq.
  replace (Zdigits2 (2 ^ 53)) with 54 by reflexivity.
  replace (Z.max (54 + e' - 53) (-1074) - e') with 1 by lia.
  change (shr (shr_record_of_loc (2 ^ 53) loc_Exact) e' 1)
    with ({| shr_m := Z.pos 4503599627370496; shr_r := false; shr_s := false |},
          e' + 1).
  cbn [shr_m]. change (emax - prec) with 971.
  assert (E : 2 ^ 53 * 2 ^ (e' + 1074) = 2 ^ 52 * 2 ^ (e' + 1 + 1074)).
  { replace (e' + 1 + 1074) with (1 + (e' + 1074)) by lia.
    rewrite (pow2_split 1) by lia. change (2 ^ 53) with (2 ^ 52 * 2 ^ 1). ring. }
  rewrite E.
  destruct (Z.leb_spec (e' + 1) 971) as [Hle|Hgt]; cbn [ord].
  - change (Z.pos 4503599627370496) with (2 ^ 52).
    rewrite Z.min_l; [reflexivity|].
    apply Z.lt_le_incl, below_BIG; [|lia].
    split; [apply Z.lt_le_incl, pow2_pos; lia|apply pow2_lt; lia].
  - rewrite Z.min_r; [reflexivity|]. apply above_BIG; lia.
Qed.

Lemma round_result_ord (m' e' : Z) :
  0 <= m' <= 2 ^ 53 -> -1074 <= e' -> (-1074 < e' -> 2 ^ 52 <= m') ->
  ord (round_result false m' e') = Z.min (m' * 2 ^ (e' + 1074)) BIG.
Proof.
  intros Hm He Hnorm.
  destruct (Z.eq_dec m' (2 ^ 53)) as [->|Hne]; [now apply round_result_carry|].
  unfold round_result, shr_fexp. rewrite fexp_eq. cbn [shr_record_of_loc].
  destruct (Z.eq_dec m' 0) as [->|Hne0].
  { pose proof (shr_zero e' (Z.max (Zdigits2 0 + e' - 53) (-1074) - e')) as Hz.
    destruct (shr _ _ _) as [mrs'' e'']. cbn [fst] in Hz. rewrite Hz.
    cbn [ord]. pose proof BIG_pos. lia. }
  assert (Hdg : Zdigits2 m' <= 53).
  { pose proof (Zdigits2_bounds m' ltac:(lia)) as [Hlo _].
    pose proof (Zdigits2_pos m' ltac:(lia)).
    assert (Zdigits2 m' - 1 < 53); [|lia].
    apply pow2_lt_inv; lia. }
  rewrite shr_neg by lia. cbn [shr_m].
  destruct m' as [|p|p]; try lia.
  change (emax - prec) with 971.
  destruct (Z.leb_spec e' 971) as [Hle|Hgt]; cbn [ord].
  - rewrite Z.min_l; [reflexivity|].
    apply Z.lt_le_incl, below_BIG; lia.
  - rewrite Z.min_r; [reflexivity|]. apply above_BIG; [apply Hnorm|]; lia.
Qed.

(** The exponent [binary_round_aux] rounds at, and the mantissa it rounds
    to there, for the fraction [n / d] at exponent [e]. *)
Definition target_exp (m e : Z) : Z := fexp prec emax (Zdigits2 m + e).

Definition rounded (m e n d : Z) : Z :=
  rne4 (jam (2 * n) (d * 2 ^ (target_exp m e - e))).

Lemma target_exp_ge (m e : Z) : -1074 <= target_exp m e.
Proof. unfold target_exp. rewrite fexp_eq. lia. Qed.

Lemma rounded_bounds (m e : Z) (l : location) (n d : Z) :
  located m l n d -> e <= target_exp m e ->
  0 <= rounded m e n d <= 2 ^ 53
  /\ (-1074 < target_exp m e -> 2 ^ 52 <= rounded m e n d).
Proof.
  intros Hloc He. destruct (located_div _ _ _ _ Hloc) as [Hm Hm0].
  destruct Hloc as (Hn & Hd & _).
  destruct (shifted_mantissa_bounds m e Hm0 He) as [Hq Hnorm].
  fold (target_exp m e) in Hq, Hnorm. unfold rounded.
  set (k := target_exp m e - e) in *.
  assert (H2k : 0 < 2 ^ k) by (apply pow2_pos; unfold k; lia).
  pose proof (rne4_bounds (jam (2 * n) (d * 2 ^ k))) as Hr.
  rewrite jam4_div in Hr by nia.
  rewrite <- Z.div_div, <- Hm in Hr by lia.
  split; [lia|]. intros H. specialize (Hnorm H). lia.
Qed.

Lemma binary_round_aux_ord (m e : Z) (l : location) (n d : Z) :
  located m l n d -> e <= target_exp m e ->
  ord (binary_round_aux prec emax false m e l)
  = Z.min (rounded m e n d * 2 ^ (target_exp m e + 1074)) BIG.
Proof.
  intros Hloc He.
  destruct (rounded_bounds m e l n d Hloc He) as [Hb Hnorm].
  destruct (located_div _ _ _ _ Hloc) as [Hm Hm0].
  destruct Hloc as (Hn & Hd & HK).
  rewrite binary_round_aux_unfold. unfold shr_fexp. fold (target_exp m e).
  destruct (shr_Krec (shr_record_of_loc m l) e (target_exp m e - e) (2 * n) d)
    as (HK' & _ & Hsnd); try lia.
  { now rewrite shr_m_of_loc. }
  { now rewrite Krec_of_loc. }
  rewrite round_nearest_even_Krec, HK', Hsnd.
  replace (e + (target_exp m e - e)) with (target_exp m e) by lia.
  apply round_result_ord; [assumption|apply target_exp_ge|assumption].
Qed.

Lemma round_result_not_nan (s : bool) (m' e' : Z) :
  0 <= m' <= 2 ^ 53 -> -1074 <= e' -> sf_nan (round_result s m' e') = false.
Proof.
  intros Hm He.
  destruct (Z.eq_dec m' (2 ^ 53)) as [->|Hne].
  { unfold round_result, shr_fexp. rewrite fexp_eq.
    replace (Zdigits2 (2 ^ 53)) with 54 by reflexivity.
    replace (Z.max (54 + e' - 53) (-1074) - e') with 1 by lia.
    change (shr (shr_record_of_loc (2 ^ 53) loc_Exact) e' 1)
      with ({| shr_m := Z.pos 4503599627370496; shr_r := false; shr_s := false |},
            e' + 1).
    cbn [shr_m]. destruct (_ <=? _); reflexivity. }
  unfold round_result, shr_fexp. rewrite fexp_eq. cbn [shr_record_of_loc].
  destruct (Z.eq_dec m' 0) as [->|Hne0].
  { pose proof (shr_zero e' (Z.max (Zdigits2 0 + e' - 53) (-1074) - e')) as Hz.
    destruct (shr _ _ _) as [mrs'' e'']. cbn [fst] in Hz. rewrite Hz. reflexivity. }
  assert (Hdg : Zdigits2 m' <= 53).
  { pose proof (Zdigits2_bounds m' ltac:(lia)) as [Hlo _].
    pose proof (Zdigits2_pos m' ltac:(lia)).
    assert (Zdigits2 m' - 1 < 53); [|lia].
    apply pow2_lt_inv; lia. }
  rewrite shr_neg by lia. cbn [shr_m].
  destruct m' as [|p|p]; try lia. destruct (_ <=? _); reflexivity.
Qed.

Lemma binary_round_aux_not_nan (s : bool) (m e : Z) (l : location) (n d : Z) :
  located m l n d -> e <= target_exp m e ->
  sf_nan (binary_round_aux prec emax s m e l) = false.
Proof.
  intros Hloc He.
  destruct (rounded_bounds m e l n d Hloc He) as [Hb _].
  destruct (located_div _ _ _ _ Hloc) as [Hm Hm0].
  destruct Hloc as (Hn & Hd & HK).
  rewrite binary_round_aux_unfold. unfold shr_fexp. fold (target_exp m e).
  destruct (shr_Krec (shr_record_of_loc m l) e (target_exp m e - e) (2 * n) d)
    as (HK' & _ & Hsnd); try lia.
  { now rewrite shr_m_of_loc. }
  { now rewrite Krec_of_loc. }
  rewrite round_nearest_even_Krec, HK', Hsnd.
  replace (e + (target_exp m e - e)) with (target_exp m e) by lia.
  apply round_result_not_nan; [assumption|apply target_exp_ge].
Qed.

(** The sign only decides the sign of the result. *)
Lemma binary_round_aux_opp (m e : Z) (l : location) :
  binary_round_aux prec emax true m e l
  = SFopp (binary_round_aux prec emax false m e l).
Proof.
  unfold binary_round_aux.
  destruct (shr_fexp prec emax m e l) as [mrs' e'].
  destruct (shr_fexp prec emax _ e' loc_Exact) as [mrs'' e''].
  destruct (shr_m mrs''); [reflexivity| |reflexivity].
  destruct (_ <=? _); reflexivity.
Qed.

Lemma ord_opp (x : spec_float) : ord (SFopp x) = - ord x.
Proof. destruct x as [[]|[]| |[] m e]; cbn [SFopp ord negb]; lia. Qed.

(** *** Rounding is monotone *)

(** The larger value is rounded at the larger exponent. *)
Lemma target_exp_le (m1 e1 n1 d1 m2 e2 n2 d2 : Z) (l1 l2 : location) :
  located m1 l1 n1 d1 -> located m2 l2 n2 d2 ->
  e1 <= target_exp m1 e1 ->
  n1 * d2 * 2 ^ (e1 - Z.min e1 e2) <= n2 * d1 * 2 ^ (e2 - Z.min e1 e2) ->
  target_exp m1 e1 <= target_exp m2 e2.
Proof.
  intros Hloc1 Hloc2 He1 Hv.
  destruct (located_div _ _ _ _ Hloc1) as [Hm1 Hm10].
  destruct (located_div _ _ _ _ Hloc2) as [Hm2 Hm20].
  destruct Hloc1 as (Hn1 & Hd1 & _). destruct Hloc2 as (Hn2 & Hd2 & _).
  unfold target_exp in *. rewrite !fexp_eq in *.
  destruct (Z.eq_dec m1 0) as [->|Hne].
  { cbn [Zdigits2] in *. lia. }
  enough (Zdigits2 m1 + e1 <= Zdigits2 m2 + e2) by lia.
  set (c := Z.min e1 e2) in *.
  pose proof (Zdigits2_bounds m1 ltac:(lia)) as [Hlo1 _].
  pose proof (Zdigits2_pos m1 ltac:(lia)) as Hdg1.
  pose proof (Zdigits2_nonneg m2) as Hdg2.
  assert (Hup2 : m2 + 1 <= 2 ^ Zdigits2 m2).
  { destruct (Z.eq_dec m2 0) as [->|Hne2]; [cbn; lia|].
    pose proof (Zdigits2_bounds m2 ltac:(lia)). lia. }
  (* 2^(dg1-1) * d1 <= n1   and   n2 < 2^dg2 * d2 *)
  assert (HA : 2 ^ (Zdigits2 m1 - 1) * d1 <= n1).
  { pose proof (Z.mul_div_le n1 d1 Hd1). nia. }
  assert (HB : n2 < 2 ^ Zdigits2 m2 * d2).
  { pose proof (Z.mod_pos_bound n2 d2 Hd2).
    pose proof (Z.div_mod n2 d2 ltac:(lia)). nia. }
  assert (Ha : 0 < 2 ^ (e1 - c)) by (apply pow2_pos; unfold c; lia).
  assert (Hb : 0 < 2 ^ (e2 - c)) by (apply pow2_pos; unfold c; lia).
  assert (Hlt : 2 ^ (Zdigits2 m1 - 1 + (e1 - c)) < 2 ^ (Zdigits2 m2 + (e2 - c))).
  { rewrite !pow2_split by (unfold c; lia).
    assert (0 < 2 ^ (Zdigits2 m1 - 1)) by (apply pow2_pos; lia).
    assert (0 < 2 ^ Zdigits2 m2) by (apply pow2_pos; lia).
    apply Z.mul_lt_mono_pos_r with (p := d1 * d2); [nia|].
    apply Z.le_lt_trans with (n1 * d2 * 2 ^ (e1 - c)); [nia|].
    apply Z.le_lt_trans with (n2 * d1 * 2 ^ (e2 - c)); [assumption|nia]. }
  apply pow2_lt_inv in Hlt; unfold c in *; lia.
Qed.

Lemma binary_round_aux_mono
    (m1 e1 n1 d1 m2 e2 n2 d2 : Z) (l1 l2 : location) :
  located m1 l1 n1 d1 -> located m2 l2 n2 d2 ->
  e1 <= target_exp m1 e1 -> e2 <= target_exp m2 e2 ->
  n1 * d2 * 2 ^ (e1 - Z.min e1 e2) <= n2 * d1 * 2 ^ (e2 - Z.min e1 e2) ->
  ord (binary_round_aux prec emax false m1 e1 l1)
  <= ord (binary_round_aux prec emax false m2 e2 l2).
Proof.
  intros Hloc1 Hloc2 He1 He2 Hv.
  rewrite (binary_round_aux_ord m1 e1 l1 n1 d1), (binary_round_aux_ord m2 e2 l2 n2 d2)
    by assumption.
  apply Z.min_le_compat_r.
  pose proof (target_exp_le _ _ _ _ _ _ _ _ _ _ Hloc1 Hloc2 He1 Hv) as Hexp.
  destruct (rounded_bounds _ _ _ _ _ Hloc1 He1) as [Hb1 _].
  destruct (rounded_bounds _ _ _ _ _ Hloc2 He2) as [Hb2 Hnorm2].
  pose proof (target_exp_ge m1 e1) as Hge1.
  destruct Hloc1 as (Hn1 & Hd1 & _). destruct Hloc2 as (Hn2 & Hd2 & _).
  destruct (Z.eq_dec (target_exp m1 e1) (target_exp m2 e2)) as [Heq|Hne].
  - (* the same exponent: the mantissas are ordered *)
    apply Z.mul_le_mono_nonneg; try lia.
    + unfold rounded. apply rne4_le.
      set (e' := target_exp m2 e2) in *. rewrite Heq.
      set (c := Z.min e1 e2) in *.
      assert (H1 : 0 < 2 ^ (e' - e1)) by (apply pow2_pos; lia).
      assert (H2 : 0 < 2 ^ (e' - e2)) by (apply pow2_pos; lia).
      apply jam_le; try nia.
      set (r := e' - e1 - e2 + c).
      assert (Hr : 0 <= r) by (unfold r, c; lia).
      replace (e' - e2) with ((e1 - c) + r) by (unfold r; lia).
      replace (e' - e1) with ((e2 - c) + r) by (unfold r; lia).
      rewrite !pow2_split by (unfold c; lia).
      assert (0 < 2 ^ r) by now apply pow2_pos.
      assert (0 < 2 ^ (e1 - c)) by (apply pow2_pos; unfold c; lia).
      assert (0 < 2 ^ (e2 - c)) by (apply pow2_pos; unfold c; lia).
      nia.
    + rewrite Heq. lia.
  - (* a smaller exponent: at most [2 ^ 53] there, at least [2 ^ 52] here *)
    assert (Hlt : target_exp m1 e1 < target_exp m2 e2) by lia.
    specialize (Hnorm2 ltac:(lia)).
    set (a := target_exp m1 e1 + 1074) in *.
    set (b := target_exp m2 e2 + 1074) in *.
    assert (Ha : 0 < 2 ^ a) by (apply pow2_pos; unfold a; lia).
    assert (Hab : 2 * 2 ^ a <= 2 ^ b).
    { replace (2 * 2 ^ a) with (2 ^ (1 + a)) by (rewrite pow2_split by lia; reflexivity).
      apply pow2_le. unfold a, b. lia. }
    change (2 ^ 53) with (2 * 2 ^ 52) in Hb1.
    assert (0 < 2 ^ 52) by (apply pow2_pos; lia).
    nia.
Qed.

(** *** Comparing binary64 values is comparing their [ord] *)

Lemma valid_finite (s : bool) (m : positive) (e : Z) :
  valid_binary (S754_finite s m e) = true ->
  -1074 <= e <= 971
  /\ 0 < Z.pos m < 2 ^ 53
  /\ (-1074 < e -> 2 ^ 52 <= Z.pos m).
Proof.
  cbn [SpecFloat.valid_binary]. unfold bounded, canonical_mantissa.
  rewrite andb_true_iff, Z.eqb_eq, Z.leb_le, fexp_eq.
  change (emax - prec) with 971. intros [Hcan Hmax].
  pose proof (digits2_pos_bounds m) as [Hlo Hhi].
  set (dg := Z.pos (digits2_pos m)) in *.
  assert (Hdg : 0 < dg) by (unfold dg; lia).
  split; [lia|]. split; [split; [lia|]|].
  - assert (2 ^ dg <= 2 ^ 53) by (apply pow2_le; lia). lia.
  - intros Hnorm. replace 52 with (dg - 1) by lia. assumption.
Qed.

Lemma ord_finite_pos (m : positive) (e : Z) :
  valid_binary (S754_finite false m e) = true ->
  0 < Z.pos m * 2 ^ (e + 1074) < BIG.
Proof.
  intros Hv. apply (valid_finite false) in Hv as (He & Hm & _).
  assert (0 < 2 ^ (e + 1074)) by (apply pow2_pos; lia).
  split; [nia|]. apply below_BIG; lia.
Qed.

Lemma valid_sign (s s' : bool) (m : positive) (e : Z) :
  valid_binary (S754_finite s m e) = valid_binary (S754_finite s' m e).
Proof. reflexivity. Qed.

(** At a larger exponent lies a larger value. *)
Lemma canonical_lt (m1 m2 : positive) (e1 e2 : Z) :
  valid_binary (S754_finite false m1 e1) = true ->
  valid_binary (S754_finite false m2 e2) = true ->
  e1 < e2 ->
  Z.pos m1 * 2 ^ (e1 + 1074) < Z.pos m2 * 2 ^ (e2 + 1074).
Proof.
  intros Hv1 Hv2 Hlt.
  apply (valid_finite false) in Hv1 as (He1 & Hm1 & _).
  apply (valid_finite false) in Hv2 as (He2 & Hm2 & Hn2).
  specialize (Hn2 ltac:(lia)).
  assert (Ha : 0 < 2 ^ (e1 + 1074)) by (apply pow2_pos; lia).
  assert (Hab : 2 * 2 ^ (e1 + 1074) <= 2 ^ (e2 + 1074)).
  { replace (2 * 2 ^ (e1 + 1074)) with (2 ^ (1 + (e1 + 1074)))
      by (rewrite pow2_split by lia; reflexivity).
    apply pow2_le. lia. }
  change (2 ^ 53) with (2 * 2 ^ 52) in Hm1.
  assert (0 < 2 ^ 52) by (apply pow2_pos; lia).
  nia.
Qed.

Lemma compare_cont_Eq (m1 m2 : positive) :
  Pos.compare_cont Eq m1 m2 = (Z.pos m1 ?= Z.pos m2).
Proof. reflexivity. Qed.

Lemma SFcompare_finite (m1 m2 : positive) (e1 e2 : Z) :
  valid_binary (S754_finite false m1 e1) = true ->
  valid_binary (S754_finite false m2 e2) = true ->
  match e1 ?= e2 with
  | Lt => Lt
  | Gt => Gt
  | Eq => Pos.compare_cont Eq m1 m2
  end
  = (Z.pos m1 * 2 ^ (e1 + 1074) ?= Z.pos m2 * 2 ^ (e2 + 1074)).
Proof.
  intros Hv1 Hv2. symmetry. destruct (Z.compare_spec e1 e2) as [->|Hlt|Hgt].
  - rewrite compare_cont_Eq.
    apply (valid_finite false) in Hv1 as (He1 & _).
    assert (0 < 2 ^ (e2 + 1074)) by (apply pow2_pos; lia).
    destruct (Z.compare_spec (Z.pos m1) (Z.pos m2)) as [Heq|Hlt|Hgt].
    + apply Z.compare_eq_iff. now rewrite Heq.
    + apply Z.compare_lt_iff. nia.
    + apply Z.compare_gt_iff. nia.
  - apply Z.compare_lt_iff. now apply canonical_lt.
  - apply Z.compare_gt_iff. now apply canonical_lt.
Qed.

Ltac solve_compare :=
  try reflexivity; f_equal; try reflexivity; symmetry;
  first [ apply Z.compare_eq_iff; lia
        | apply Z.compare_lt_iff; lia
        | apply Z.compare_gt_iff; lia ].

Lemma SFcompare_ord (x y : spec_float) :
  valid_binary x = true -> valid_binary y = true ->
  sf_nan x = false -> sf_nan y = false ->
  SFcompare x y = Some (ord x ?= ord y).
Proof.
  pose proof BIG_pos as HB.
  destruct x as [sx|sx| |sx mx ex], y as [sy|sy| |sy my ey];
    intros Hvx Hvy Hnx Hny; try discriminate Hnx; try discriminate Hny;
    cbn [SFcompare ord];
    try (rewrite (valid_sign sx false) in Hvx;
         pose proof (ord_finite_pos _ _ Hvx));
    try (rewrite (valid_sign sy false) in Hvy;
         pose proof (ord_finite_pos _ _ Hvy)).
  1-8: try destruct sx; try destruct sy; solve_compare.
  destruct sx, sy.
  - f_equal. rewrite Z.compare_opp, <- (SFcompare_finite my mx ey ex Hvy Hvx).
    rewrite (Z.compare_antisym ex ey).
    destruct (ex ?= ey); cbn [CompOpp]; try reflexivity.
    apply Pos.compare_cont_antisym.
  - solve_compare.
  - solve_compare.
  - f_equal. apply SFcompare_finite; assumption.
Qed.

(** *** From positive finite values to all values

    Multiplying by, or dividing by, a positive finite number keeps zeros
    and infinities and the sign; what it does to a positive finite number
    decides whether it is monotone. *)

Section Lifted.
Variable F : positive -> Z -> spec_float.

Hypothesis F_range :
  forall m e, valid_binary (S754_finite false m e) = true ->
    0 <= ord (F m e) <= BIG.

Hypothesis F_mono :
  forall m1 e1 m2 e2,
    valid_binary (S754_finite false m1 e1) = true ->
    valid_binary (S754_finite false m2 e2) = true ->
    Z.pos m1 * 2 ^ (e1 + 1074) <= Z.pos m2 * 2 ^ (e2 + 1074) ->
    ord (F m1 e1) <= ord (F m2 e2).

Definition lifted (x : spec_float) : spec_float :=
  match x with
  | S754_finite s m e => if s then SFopp (F m e) else F m e
  | _ => x
  end.

Lemma lifted_mono (x1 x2 : spec_float) :
  valid_binary x1 = true -> valid_binary x2 = true ->
  sf_nan x1 = false -> sf_nan x2 = false ->
  ord x1 <= ord x2 -> ord (lifted x1) <= ord (lifted x2).
Proof.
  pose proof BIG_pos as HB.
  destruct x1 as [s1|s1| |s1 m1 e1], x2 as [s2|s2| |s2 m2 e2];
    intros Hv1 Hv2 Hn1 Hn2; try discriminate Hn1; try discriminate Hn2;
    cbn [lifted];
    try (rewrite (valid_sign s1 false) in Hv1;
         pose proof (ord_finite_pos _ _ Hv1); pose proof (F_range _ _ Hv1));
    try (rewrite (valid_sign s2 false) in Hv2;
         pose proof (ord_finite_pos _ _ Hv2); pose proof (F_range _ _ Hv2));
    try destruct s1; try destruct s2; rewrite ?ord_opp; cbn [ord]; try lia.
  - intros Hle. enough (ord (F m2 e2) <= ord (F m1 e1)) by lia.
    apply F_mono; try assumption. lia.
  - intros Hle. apply F_mono; assumption.
Qed.
End Lifted.

(** The same inequality between two values at other scales. *)
Lemma pow2_rescale (A B p q a b : Z) :
  0 <= A -> 0 <= B -> 0 <= p -> 0 <= q -> 0 <= a -> 0 <= b ->
  p - q = a - b ->
  A * 2 ^ p <= B * 2 ^ q -> A * 2 ^ a <= B * 2 ^ b.
Proof.
  intros HA HB Hp Hq Ha Hb Hd H.
  destruct (Z.le_ge_cases p a) as [Hpa|Hpa].
  - replace a with (p + (a - p)) by lia. replace b with (q + (a - p)) by lia.
    rewrite !pow2_split by lia.
    assert (0 < 2 ^ (a - p)) by (apply pow2_pos; lia). nia.
  - replace p with (a + (p - a)) in H by lia.
    replace q with (b + (p - a)) in H by lia.
    rewrite !pow2_split in H by lia.
    assert (0 < 2 ^ (p - a)) by (apply pow2_pos; lia). nia.
Qed.

(** *** Multiplication by a positive finite number *)

Definition F_mul (mw : positive) (ew : Z) (m : positive) (e : Z) : spec_float :=
  binary_round_aux prec emax false (Z.pos (m * mw)) (e + ew) loc_Exact.

Lemma SFmul_lifted (x : spec_float) (mw : positive) (ew : Z) :
  SF64mul x (S754_finite false mw ew) = lifted (F_mul mw ew) x.
Proof.
  destruct x as [s|s| |s m e]; cbn [SF64mul SFmul lifted];
    rewrite ?xorb_false_r; try reflexivity.
  unfold F_mul. destruct s; [apply binary_round_aux_opp|reflexivity].
Qed.

Lemma mul_located (m mw : positive) :
  located (Z.pos (m * mw)) loc_Exact (Z.pos m * Z.pos mw) 1.
Proof.
  unfold located, jam. split; [lia|]. split; [lia|].
  rewrite Z.div_1_r, Z.mod_1_r. cbn [loc_code Z.eqb]. lia.
Qed.

Lemma Zdigits2_ge (m k : Z) : 0 <= k -> 2 ^ k <= m -> k < Zdigits2 m.
Proof.
  intros Hk Hm. assert (0 < 2 ^ k) by now apply pow2_pos.
  pose proof (Zdigits2_bounds m ltac:(lia)) as [_ Hhi].
  pose proof (Zdigits2_nonneg m).
  apply pow2_lt_inv; lia.
Qed.

Lemma mul_shift (m mw : positive) (e ew : Z) :
  valid_binary (S754_finite false m e) = true ->
  valid_binary (S754_finite false mw ew) = true ->
  e + ew <= target_exp (Z.pos (m * mw)) (e + ew).
Proof.
  intros Hv Hvw.
  apply (valid_finite false) in Hv as (He & Hm & Hn).
  apply (valid_finite false) in Hvw as (Hew & Hmw & Hnw).
  unfold target_exp. rewrite fexp_eq.
  destruct (Z.le_gt_cases (e + ew) (-1074)) as [Hsmall|Hlarge]; [lia|].
  enough (52 < Zdigits2 (Z.pos (m * mw))) by lia.
  apply Zdigits2_ge; [lia|]. rewrite Pos2Z.inj_mul.
  assert (0 < 2 ^ 52) by (apply pow2_pos; lia).
  destruct (Z.eq_dec e (-1074)) as [->|Hne].
  - specialize (Hnw ltac:(lia)). nia.
  - specialize (Hn ltac:(lia)). nia.
Qed.

Lemma F_mul_range (mw : positive) (ew : Z) (m : positive) (e : Z) :
  valid_binary (S754_finite false mw ew) = true ->
  valid_binary (S754_finite false m e) = true ->
  0 <= ord (F_mul mw ew m e) <= BIG.
Proof.
  intros Hvw Hv. unfold F_mul.
  rewrite (binary_round_aux_ord _ _ _ _ _ (mul_located m mw) (mul_shift _ _ _ _ Hv Hvw)).
  destruct (rounded_bounds _ _ _ _ _ (mul_located m mw) (mul_shift _ _ _ _ Hv Hvw))
    as [Hb _].
  pose proof (target_exp_ge (Z.pos (m * mw)) (e + ew)).
  assert (0 < 2 ^ (target_exp (Z.pos (m * mw)) (e + ew) + 1074))
    by (apply pow2_pos; lia).
  pose proof BIG_pos. split; [apply Z.min_glb; [nia|lia]|apply Z.le_min_r].
Qed.

Lemma F_mul_mono (mw : positive) (ew : Z) (m1 : positive) (e1 : Z)
    (m2 : positive) (e2 : Z) :
  valid_binary (S754_finite false mw ew) = true ->
  valid_binary (S754_finite false m1 e1) = true ->
  valid_binary (S754_finite false m2 e2) = true ->
  Z.pos m1 * 2 ^ (e1 + 1074) <= Z.pos m2 * 2 ^ (e2 + 1074) ->
  ord (F_mul mw ew m1 e1) <= ord (F_mul mw ew m2 e2).
Proof.
  intros Hvw Hv1 Hv2 Hle. unfold F_mul.
  apply (binary_round_aux_mono _ _ (Z.pos m1 * Z.pos mw) 1 _ _ (Z.pos m2 * Z.pos mw) 1);
    try apply mul_located; try (apply mul_shift; assumption).
  apply (valid_finite false) in Hv1 as (He1 & _).
  apply (valid_finite false) in Hv2 as (He2 & _).
  rewrite !Z.mul_1_r.
  enough (Z.pos m1 * 2 ^ (e1 + ew - Z.min (e1 + ew) (e2 + ew))
          <= Z.pos m2 * 2 ^ (e2 + ew - Z.min (e1 + ew) (e2 + ew))) by nia.
  apply (pow2_rescale _ _ (e1 + 1074) (e2 + 1074)); try lia.
Qed.

(** *** Division by a positive finite number *)

(** The exponent the quotient is computed at, and the numerator shifted
    for it. *)
Definition div_exp (m : positive) (e : Z) (my : positive) (ey : Z) : Z :=
  Z.min (fexp prec emax (Zdigits2 (Z.pos m) + e - (Zdigits2 (Z.pos my) + ey)))
        (e - ey).

Definition div_num (m : positive) (e : Z) (my : positive) (ey : Z) : Z :=
  Z.pos m * 2 ^ (e - ey - div_exp m e my ey).

Lemma div_exp_le (m : positive) (e : Z) (my : positive) (ey : Z) :
  div_exp m e my ey <= e - ey.
Proof. unfold div_exp. lia. Qed.

Lemma div_num_pos (m : positive) (e : Z) (my : positive) (ey : Z) :
  0 < div_num m e my ey.
Proof.
  unfold div_num. pose proof (div_exp_le m e my ey).
  assert (0 < 2 ^ (e - ey - div_exp m e my ey)) by (apply pow2_pos; lia). nia.
Qed.

Lemma SFdiv_core_binary_eq (m : positive) (e : Z) (my : positive) (ey : Z) :
  SFdiv_core_binary prec emax (Z.pos m) e (Z.pos my) ey
  = (div_num m e my ey / Z.pos my, div_exp m e my ey,
     new_location (Z.pos my) (div_num m e my ey mod Z.pos my)).
Proof.
  unfold SFdiv_core_binary. fold (div_exp m e my ey).
  pose proof (div_exp_le m e my ey) as Hle.
  assert (Hnum : match e - ey - div_exp m e my ey with
                 | 0 => Z.pos m
                 | Z.pos _ => Z.shiftl (Z.pos m) (e - ey - div_exp m e my ey)
                 | Z.neg _ => 0
                 end = div_num m e my ey).
  { unfold div_num. destruct (e - ey - div_exp m e my ey) as [|p|p] eqn:E.
    - rewrite Z.pow_0_r. lia.
    - apply Z.shiftl_mul_pow2. lia.
    - lia. }
  rewrite Hnum. unfold Z.div, Z.modulo.
  destruct (Z.div_eucl (div_num m e my ey) (Z.pos my)) as [q r]. reflexivity.
Qed.

Lemma new_location_located (n d : Z) :
  0 <= n -> 0 < d -> located (n / d) (new_location d (n mod d)) n d.
Proof.
  intros Hn Hd. unfold located. split; [assumption|]. split; [assumption|].
  unfold jam, new_location, new_location_even, new_location_odd.
  pose proof (Z.div_mod n d ltac:(lia)) as Hdm.
  pose proof (Z.mod_pos_bound n d Hd) as Hr.
  pose proof (Z.div_mod (2 * n) d ltac:(lia)) as Hdm2.
  pose proof (Z.mod_pos_bound (2 * n) d Hd) as Hr2.
  assert (Hq : 0 <= n / d) by (apply Z.div_pos; lia).
  rewrite Zeven_mod. pose proof (Z.div_mod d 2 ltac:(lia)) as Hpar.
  pose proof (Z.mod_pos_bound d 2 ltac:(lia)) as Hpar2.
  set (q := n / d) in *. set (r := n mod d) in *.
  set (q2 := 2 * n / d) in *. set (r2 := (2 * n) mod d) in *.
  set (h := d / 2) in *. set (b := d mod 2) in *.
  clearbody q r q2 r2 h b.
  destruct (Z.eqb_spec b 0) as [Hb|Hb]; destruct (Z.eqb_spec r 0) as [Hr0|Hr0];
    cbn [loc_code].
  - destruct (Z.eqb_spec r2 0); nia.
  - destruct (Z.compare_spec (2 * r) d); cbn [loc_code];
      destruct (Z.eqb_spec r2 0); nia.
  - destruct (Z.eqb_spec r2 0); nia.
  - destruct (Z.compare_spec (2 * r + 1) d); cbn [loc_code];
      destruct (Z.eqb_spec r2 0); nia.
Qed.

Definition F_div (my : positive) (ey : Z) (m : positive) (e : Z) : spec_float :=
  let '(q, e', l) := SFdiv_core_binary prec emax (Z.pos m) e (Z.pos my) ey in
  binary_round_aux prec emax false q e' l.

Lemma F_div_eq (my : positive) (ey : Z) (m : positive) (e : Z) :
  F_div my ey m e
  = binary_round_aux prec emax false
      (div_num m e my ey / Z.pos my) (div_exp m e my ey)
      (new_location (Z.pos my) (div_num m e my ey mod Z.pos my)).
Proof. unfold F_div. rewrite SFdiv_core_binary_eq. reflexivity. Qed.

Lemma SFdiv_lifted (x : spec_float) (my : positive) (ey : Z) :
  SF64div x (S754_finite false my ey) = lifted (F_div my ey) x.
Proof.
  destruct x as [s|s| |s m e]; cbn [SF64div SFdiv lifted];
    rewrite ?xorb_false_r; try reflexivity.
  unfold F_div.
  destruct (SFdiv_core_binary prec emax (Z.pos m) e (Z.pos my) ey) as [[q e'] l].
  destruct s; [apply binary_round_aux_opp|reflexivity].
Qed.

Lemma div_located (m : positive) (e : Z) (my : positive) (ey : Z) :
  located (div_num m e my ey / Z.pos my)
    (new_location (Z.pos my) (div_num m e my ey mod Z.pos my))
    (div_num m e my ey) (Z.pos my).
Proof.
  apply new_location_located; [|lia].
  apply Z.lt_le_incl, div_num_pos.
Qed.

Lemma div_shift (m : positive) (e : Z) (my : positive) (ey : Z) :
  valid_binary (S754_finite false m e) = true ->
  div_exp m e my ey
  <= target_exp (div_num m e my ey / Z.pos my) (div_exp m e my ey).
Proof.
  intros Hv. apply (valid_finite false) in Hv as (He & Hm & _).
  pose proof (target_exp_ge (div_num m e my ey / Z.pos my) (div_exp m e my ey)) as Hge.
  destruct (Z.le_gt_cases (div_exp m e my ey) (-1074)) as [Hsmall|Hlarge]; [lia|].
  unfold target_exp in *. rewrite fexp_eq in *.
  enough (52 < Zdigits2 (div_num m e my ey / Z.pos my)) by lia.
  apply Zdigits2_ge; [lia|].
  pose proof (Zdigits2_bounds (Z.pos m) ltac:(lia)) as [Hlo1 Hhi1].
  pose proof (Zdigits2_bounds (Z.pos my) ltac:(lia)) as [Hlo2 Hhi2].
  pose proof (Zdigits2_pos (Z.pos m) ltac:(lia)) as Hd1.
  pose proof (Zdigits2_pos (Z.pos my) ltac:(lia)) as Hd2.
  assert (Hd1' : Zdigits2 (Z.pos m) <= 53).
  { assert (Zdigits2 (Z.pos m) - 1 < 53); [|lia]. apply pow2_lt_inv; lia. }
  unfold div_num. unfold div_exp in *. rewrite fexp_eq in *.
  set (d1 := Zdigits2 (Z.pos m)) in *. set (d2 := Zdigits2 (Z.pos my)) in *.
  assert (Hexp : Z.min (Z.max (d1 + e - (d2 + ey) - 53) (-1074)) (e - ey)
                 = d1 + e - (d2 + ey) - 53) by lia.
  rewrite Hexp.
  replace (e - ey - (d1 + e - (d2 + ey) - 53)) with (53 - d1 + d2) by lia.
  apply Z.div_le_lower_bound; [lia|].
  assert (H1 : 2 ^ (52 + d2) <= Z.pos m * 2 ^ (53 - d1 + d2)).
  { replace (52 + d2) with ((d1 - 1) + (53 - d1 + d2)) by lia.
    rewrite pow2_split by lia.
    assert (0 < 2 ^ (53 - d1 + d2)) by (apply pow2_pos; lia). nia. }
  rewrite pow2_split in H1 by lia.
  assert (0 < 2 ^ 52) by (apply pow2_pos; lia). nia.
Qed.

Lemma F_div_range (my : positive) (ey : Z) (m : positive) (e : Z) :
  valid_binary (S754_finite false m e) = true ->
  0 <= ord (F_div my ey m e) <= BIG.
Proof.
  intros Hv. rewrite F_div_eq.
  rewrite (binary_round_aux_ord _ _ _ _ _ (div_located m e my ey) (div_shift _ _ _ _ Hv)).
  destruct (rounded_bounds _ _ _ _ _ (div_located m e my ey) (div_shift _ _ _ _ Hv))
    as [Hb _].
  match goal with |- context [2 ^ (?t + 1074)] =>
    pose proof (target_exp_ge (div_num m e my ey / Z.pos my) (div_exp m e my ey));
    assert (0 < 2 ^ (t + 1074)) by (apply pow2_pos; lia)
  end.
  pose proof BIG_pos. split; [apply Z.min_glb; [nia|lia]|apply Z.le_min_r].
Qed.

Lemma F_div_mono (my : positive) (ey : Z) (m1 : positive) (e1 : Z)
    (m2 : positive) (e2 : Z) :
  valid_binary (S754_finite false m1 e1) = true ->
  valid_binary (S754_finite false m2 e2) = true ->
  Z.pos m1 * 2 ^ (e1 + 1074) <= Z.pos m2 * 2 ^ (e2 + 1074) ->
  ord (F_div my ey m1 e1) <= ord (F_div my ey m2 e2).
Proof.
  intros Hv1 Hv2 Hle. rewrite !F_div_eq.
  apply (binary_round_aux_mono _ _ (div_num m1 e1 my ey) (Z.pos my)
           _ _ (div_num m2 e2 my ey) (Z.pos my));
    try apply div_located; try (apply div_shift; assumption).
  apply (valid_finite false) in Hv1 as (He1 & _).
  apply (valid_finite false) in Hv2 as (He2 & _).
  pose proof (div_exp_le m1 e1 my ey) as Hx1.
  pose proof (div_exp_le m2 e2 my ey) as Hx2.
  unfold div_num.
  set (x1 := div_exp m1 e1 my ey) in *. set (x2 := div_exp m2 e2 my ey) in *.
  set (c := Z.min x1 x2).
  enough (Z.pos m1 * 2 ^ (e1 - ey - c) <= Z.pos m2 * 2 ^ (e2 - ey - c)).
  { replace (e1 - ey - c) with ((e1 - ey - x1) + (x1 - c)) in H by lia.
    replace (e2 - ey - c) with ((e2 - ey - x2) + (x2 - c)) in H by lia.
    rewrite !pow2_split in H by (unfold c; lia). nia. }
  apply (pow2_rescale _ _ (e1 + 1074) (e2 + 1074)); unfold c; lia.
Qed.

Lemma sf_nan_opp (x : spec_float) : sf_nan (SFopp x) = sf_nan x.
Proof. now destruct x. Qed.

Lemma F_mul_not_nan (mw : positive) (ew : Z) (m : positive) (e : Z) :
  valid_binary (S754_finite false mw ew) = true ->
  valid_binary (S754_finite false m e) = true ->
  sf_nan (F_mul mw ew m e) = false.
Proof.
  intros Hvw Hv.
  exact (binary_round_aux_not_nan _ _ _ _ _ _ (mul_located m mw)
           (mul_shift _ _ _ _ Hv Hvw)).
Qed.

Lemma F_div_not_nan (my : positive) (ey : Z) (m : positive) (e : Z) :
  valid_binary (S754_finite false m e) = true ->
  sf_nan (F_div my ey m e) = false.
Proof.
  intros Hv. rewrite F_div_eq.
  exact (binary_round_aux_not_nan _ _ _ _ _ _ (div_located m e my ey)
           (div_shift _ _ _ _ Hv)).
Qed.

Lemma lifted_not_nan (F : positive -> Z -> spec_float) (x : spec_float) :
  (forall m e, valid_binary (S754_finite false m e) = true -> sf_nan (F m e) = false) ->
  valid_binary x = true -> sf_nan x = false -> sf_nan (lifted F x) = false.
Proof.
  intros HF Hv Hn. destruct x as [s|s| |s m e]; try assumption.
  cbn [lifted]. rewrite (valid_sign s false) in Hv.
  destruct s; rewrite ?sf_nan_opp; now apply HF.
Qed.
End Rounding.

(** ** The order of floats through multiplication and division *)

Module FloatOrder.
Import FloatFacts Rounding.
Local Open Scope float_scope.

(** [x <=? y] holds when neither is NaN and the values are in order. *)
Lemma leb_ord (a b : float) :
  (a <=? b) = true
  <-> sf_nan (Prim2SF a) = false /\ sf_nan (Prim2SF b) = false
      /\ (ord (Prim2SF a) <= ord (Prim2SF b))%Z.
Proof.
  rewrite FloatAxioms.leb_spec. unfold SFleb.
  pose proof (Prim2SF_valid a) as Hva. pose proof (Prim2SF_valid b) as Hvb.
  destruct (sf_nan (Prim2SF a)) eqn:Hna.
  { destruct (Prim2SF a); try discriminate. cbn. intuition discriminate. }
  destruct (sf_nan (Prim2SF b)) eqn:Hnb.
  { destruct (Prim2SF b); try discriminate.
    destruct (Prim2SF a); cbn; intuition discriminate. }
  rewrite (SFcompare_ord _ _ Hva Hvb Hna Hnb).
  destruct (Z.compare_spec (ord (Prim2SF a)) (ord (Prim2SF b))); split;
    try discriminate; try (intros (_ & _ & ?)); intros; repeat split; try lia.
Qed.

Lemma ltb_ord (a b : float) :
  (a <? b) = true
  <-> sf_nan (Prim2SF a) = false /\ sf_nan (Prim2SF b) = false
      /\ (ord (Prim2SF a) < ord (Prim2SF b))%Z.
Proof.
  rewrite FloatAxioms.ltb_spec. unfold SFltb.
  pose proof (Prim2SF_valid a) as Hva. pose proof (Prim2SF_valid b) as Hvb.
  destruct (sf_nan (Prim2SF a)) eqn:Hna.
  { destruct (Prim2SF a); try discriminate. cbn. intuition discriminate. }
  destruct (sf_nan (Prim2SF b)) eqn:Hnb.
  { destruct (Prim2SF b); try discriminate.
    destruct (Prim2SF a); cbn; intuition discriminate. }
  rewrite (SFcompare_ord _ _ Hva Hvb Hna Hnb).
  destruct (Z.compare_spec (ord (Prim2SF a)) (ord (Prim2SF b))); split;
    try discriminate; try (intros (_ & _ & ?)); intros; repeat split; try lia.
Qed.

(** A positive number below infinity is finite. *)
Lemma positive_finite (y : float) :
  (0 <? y) = true -> (y <? infinity) = true ->
  exists my ey, Prim2SF y = S754_finite false my ey.
Proof.
  rewrite !FloatAxioms.ltb_spec.
  change (Prim2SF 0) with (S754_zero false).
  change (Prim2SF infinity) with (S754_infinity false).
  destruct (Prim2SF y) as [[]|[]| |[] my ey]; cbn; try discriminate.
  intros _ _. now exists my, ey.
Qed.

Lemma ord_one : ord (Prim2SF 1) = (2 ^ 1074)%Z.
Proof.
  change (Prim2SF 1) with (S754_finite false 4503599627370496 (-52)).
  cbn [ord]. change (Z.pos 4503599627370496) with (2 ^ 52)%Z.
  rewrite <- pow2_split by lia. reflexivity.
Qed.

(** Values at least [BIG] are plus infinity, values at most [- BIG] minus
    infinity. *)
Lemma ord_range (x : spec_float) :
  valid_binary x = true -> (- BIG <= ord x <= BIG)%Z.
Proof.
  pose proof BIG_pos.
  destruct x as [s|[]| |s m e]; cbn [ord]; try lia.
  intros Hv. rewrite (valid_sign s false) in Hv.
  apply ord_finite_pos in Hv. destruct s; lia.
Qed.

Lemma mul_by_finite (t w : float) (mw : positive) (ew : Z) :
  Prim2SF w = S754_finite false mw ew ->
  Prim2SF (t * w) = lifted (F_mul mw ew) (Prim2SF t).
Proof. intros Hw. rewrite FloatAxioms.mul_spec, Hw. apply SFmul_lifted. Qed.

Lemma div_by_finite (p y : float) (my : positive) (ey : Z) :
  Prim2SF y = S754_finite false my ey ->
  Prim2SF (p / y) = lifted (F_div my ey) (Prim2SF p).
Proof. intros Hy. rewrite FloatAxioms.div_spec, Hy. apply SFdiv_lifted. Qed.

(** Dividing by a positive finite number is monotone and yields a number
    for a number. *)
Lemma div_by_finite_mono (p1 p2 y : float) (my : positive) (ey : Z) :
  Prim2SF y = S754_finite false my ey ->
  sf_nan (Prim2SF p1) = false -> sf_nan (Prim2SF p2) = false ->
  (ord (Prim2SF p1) <= ord (Prim2SF p2))%Z ->
  (p1 / y <=? p2 / y) = true.
Proof.
  intros Hy Hn1 Hn2 Hle. apply leb_ord.
  rewrite !(div_by_finite _ y my ey Hy).
  repeat split.
  - apply lifted_not_nan; [|apply Prim2SF_valid|assumption].
    intros m e Hv. now apply F_div_not_nan.
  - apply lifted_not_nan; [|apply Prim2SF_valid|assumption].
    intros m e Hv. now apply F_div_not_nan.
  - apply lifted_mono; try assumption; try apply Prim2SF_valid.
    + intros m e. apply F_div_range.
    + intros m1 e1 m2 e2. apply F_div_mono.
Qed.

Lemma mul_by_finite_mono (t1 t2 w : float) (mw : positive) (ew : Z) :
  Prim2SF w = S754_finite false mw ew ->
  sf_nan (Prim2SF t1) = false -> sf_nan (Prim2SF t2) = false ->
  (ord (Prim2SF t1) <= ord (Prim2SF t2))%Z ->
  (t1 * w <=? t2 * w) = true.
Proof.
  intros Hw Hn1 Hn2 Hle. apply leb_ord.
  pose proof (Prim2SF_valid w) as Hvw. rewrite Hw in Hvw.
  rewrite !(mul_by_finite _ w mw ew Hw).
  repeat split.
  - apply lifted_not_nan; [|apply Prim2SF_valid|assumption].
    intros m e Hv. now apply F_mul_not_nan.
  - apply lifted_not_nan; [|apply Prim2SF_valid|assumption].
    intros m e Hv. now apply F_mul_not_nan.
  - apply lifted_mono; try assumption; try apply Prim2SF_valid.
    + intros m e. now apply F_mul_range.
    + intros m1 e1 m2 e2. now apply F_mul_mono.
Qed.

Lemma ord_neg_infinity : ord (Prim2SF neg_infinity) = (- BIG)%Z.
Proof. reflexivity. Qed.

Lemma one_below_BIG : (2 ^ 1074 < BIG)%Z.
Proof. apply pow2_lt. lia. Qed.

Ltac finite_facts :=
  repeat match goal with
    | H : valid_binary (S754_finite ?s ?m ?e) = true |- _ =>
        rewrite (valid_sign s false) in H; apply ord_finite_pos in H
    end.

(** The quotient [t * w / y] grows with [t], for [w] not negative and [y]
    positive and finite, as long as it stays below one (so that it is a
    number) and [t] does not start from minus infinity. *)
Lemma quotient_mono (t1 t2 w y : float) :
  sf_nonneg_or_nan (Prim2SF w) = true ->
  (0 <? y) = true -> (y <? infinity) = true ->
  (t1 <=? t2) = true -> (neg_infinity <? t1) = true ->
  (t2 * w / y <? 1) = true ->
  (t1 * w / y <=? t2 * w / y) = true.
Proof.
  intros Hw Hy0 Hyinf Hle Hninf Hq2.
  destruct (positive_finite y Hy0 Hyinf) as (my & ey & Hy).
  apply leb_ord in Hle as (Hn1 & Hn2 & Hord).
  apply ltb_ord in Hninf as (_ & _ & Hlow). rewrite ord_neg_infinity in Hlow.
  apply ltb_ord in Hq2 as (Hnq2 & _ & Hq2lt). rewrite ord_one in Hq2lt.
  pose proof one_below_BIG as H1B. pose proof BIG_pos as HB.
  set (one := (2 ^ 1074)%Z) in *. clearbody one.
  destruct (Prim2SF w) as [sw|sw| |sw mw ew] eqn:HW.
  - (* the weight underflowed to zero *)
    apply leb_ord.
    rewrite !FloatAxioms.div_spec, !FloatAxioms.mul_spec, HW, Hy in *.
    pose proof (Prim2SF_valid t1) as Hv1. pose proof (Prim2SF_valid t2) as Hv2.
    destruct (Prim2SF t1) as [s1|s1| |s1 m1 e1], (Prim2SF t2) as [s2|s2| |s2 m2 e2];
      try discriminate; finite_facts;
      try destruct s1; try destruct s2;
      cbn [SF64mul SFmul SF64div SFdiv ord sf_nan xorb] in *; try discriminate;
      repeat split; lia.
  - (* the weight overflowed to infinity *)
    destruct sw; [discriminate|].
    apply leb_ord.
    rewrite !FloatAxioms.div_spec, !FloatAxioms.mul_spec, HW, Hy in *.
    pose proof (Prim2SF_valid t1) as Hv1. pose proof (Prim2SF_valid t2) as Hv2.
    destruct (Prim2SF t1) as [s1|s1| |s1 m1 e1], (Prim2SF t2) as [s2|s2| |s2 m2 e2];
      try discriminate; finite_facts;
      try destruct s1; try destruct s2;
      cbn [SF64mul SFmul SF64div SFdiv ord sf_nan xorb] in *; try discriminate;
      repeat split; lia.
  - (* the weight is not a number *)
    exfalso.
    rewrite !FloatAxioms.div_spec, !FloatAxioms.mul_spec, HW, Hy in Hnq2.
    destruct (Prim2SF t2); discriminate.
  - destruct sw; [discriminate|].
    assert (Hp : (t1 * w <=? t2 * w) = true)
      by now apply (mul_by_finite_mono t1 t2 w mw ew).
    apply leb_ord in Hp as (Hnp1 & Hnp2 & Hpord).
    now apply (div_by_finite_mono _ _ y my ey).
Qed.
End FloatOrder.

(** ** The throttle law *)

Module Throttle.
Import FloatFacts Rounding FloatOrder.
Local Open Scope float_scope.

(** Where the thrust is not zero the function divides and clamps. *)
Lemma calc_throttle_for_twr_nonzero (g target_twr : float) (vessel : Vessel) :
  (available_thrust vessel =? 0) = false ->
  calc_throttle_for_twr g target_twr vessel
  = Ok (PyFloat.min2 1
          (target_twr * (mass vessel * g) / available_thrust vessel)).
Proof.
  intros Hne. unfold calc_throttle_for_twr, PyFloat.truediv.
  rewrite Hne. reflexivity.
Qed.

(** C1: for every target_twr, mass, gravity g and available_thrust with
    available_thrust > 0, calc_throttle_for_twr returns
    min(1.0, target_twr * mass * g / available_thrust).  The product is
    taken as the source takes it: weight = mass * g first, then
    target_twr * weight. *)
Theorem calc_throttle_for_twr_positive_thrust
    (g target_twr : float) (vessel : Vessel) :
  (0 <? available_thrust vessel) = true ->
  calc_throttle_for_twr g target_twr vessel
  = Ok (PyFloat.min2 1.0
          (target_twr * (mass vessel * g) / available_thrust vessel)).
Proof.
  intros Hpos. apply calc_throttle_for_twr_nonzero.
  now apply ltb_0_eqb_0.
Qed.

Lemma calc_throttle_for_twr_positive_thrust_witness :
  calc_throttle_for_twr 9.81 1.3 (Replay.probe 1000 20000 0 90 0 0)
  = Ok 0.63765000000000005.
Proof.
  exact (calc_throttle_for_twr_positive_thrust 9.81 1.3
           (Replay.probe 1000 20000 0 90 0 0) eq_refl).
Defined.

(** C2, as the specification states it, fails: with a negative available
    thrust the function divides and returns the (negative) quotient, not
    0.0. *)
Lemma calc_throttle_for_twr_negative_thrust_not_zero :
  (available_thrust (Replay.probe 1000 (-1) 0 90 0 0) <=? 0) = true
  /\ calc_throttle_for_twr 9.81 1.3 (Replay.probe 1000 (-1) 0 90 0 0)
     = Ok (-12753)
  /\ calc_throttle_for_twr 9.81 1.3 (Replay.probe 1000 (-1) 0 90 0 0)
     <> Ok 0.
Proof.
  split; [reflexivity|]. split; [reflexivity|].
  intros H.
  apply (f_equal (fun r => match r with
                           | Ok x => Prim2SF x
                           | Raise _ => S754_nan
                           end)) in H.
  vm_compute in H. discriminate H.
Qed.

(** C2, amended: when available_thrust is zero (0.0 or -0.0) the function
    returns 0.0 and raises nothing, so no division by it takes place; when
    it is negative the function divides and returns
    min(1.0, target_twr * mass * g / available_thrust). *)
Theorem calc_throttle_for_twr_thrust_not_positive
    (g target_twr : float) (vessel : Vessel) :
  (available_thrust vessel <=? 0) = true ->
  calc_throttle_for_twr g target_twr vessel
  = Ok (if available_thrust vessel =? 0 then 0.0
        else PyFloat.min2 1.0
               (target_twr * (mass vessel * g) / available_thrust vessel)).
Proof.
  intros _. destruct (available_thrust vessel =? 0) eqn:Hz.
  - unfold calc_throttle_for_twr. rewrite Hz. reflexivity.
  - now apply calc_throttle_for_twr_nonzero.
Qed.

Lemma calc_throttle_for_twr_thrust_not_positive_witness :
  calc_throttle_for_twr 9.81 1.3 (Replay.probe 1000 (-0) 0 90 0 0) = Ok 0
  /\ calc_throttle_for_twr 9.81 1.3 (Replay.probe 1000 (-1) 0 90 0 0)
     = Ok (-12753).
Proof.
  split.
  - exact (calc_throttle_for_twr_thrust_not_positive 9.81 1.3
             (Replay.probe 1000 (-0) 0 90 0 0) eq_refl).
  - exact (calc_throttle_for_twr_thrust_not_positive 9.81 1.3
             (Replay.probe 1000 (-1) 0 90 0 0) eq_refl).
Defined.

(** [min(1.0, x)] of something that is not negative lies in [0, 1]. *)
Lemma min2_1_range (x : float) :
  sf_nonneg_or_nan (Prim2SF x) = true ->
  (0 <=? PyFloat.min2 1 x) = true /\ (PyFloat.min2 1 x <=? 1) = true.
Proof.
  intros Hx. unfold PyFloat.min2. destruct (x <? 1) eqn:Hlt.
  - split.
    + apply nonneg_leb_0; [assumption|]. now apply ltb_not_nan with 1.
    + now apply ltb_leb.
  - split; reflexivity.
Qed.

(** C8: for every target_twr >= 0, mass >= 0, gravity >= 0 and
    available_thrust >= 0, calc_throttle_for_twr returns a value in the
    closed interval [0.0, 1.0]. *)
Theorem calc_throttle_for_twr_range (g target_twr : float) (vessel : Vessel) :
  (0 <=? target_twr) = true ->
  (0 <=? mass vessel) = true ->
  (0 <=? g) = true ->
  (0 <=? available_thrust vessel) = true ->
  exists throttle,
    calc_throttle_for_twr g target_twr vessel = Ok throttle
    /\ (0.0 <=? throttle) = true /\ (throttle <=? 1.0) = true.
Proof.
  intros Htwr Hmass Hg Hthrust.
  destruct (available_thrust vessel =? 0) eqn:Hz.
  - exists 0. unfold calc_throttle_for_twr. rewrite Hz. repeat split.
  - eexists. split; [now apply calc_throttle_for_twr_nonzero|].
    apply min2_1_range, div_nonneg.
    + apply mul_nonneg; [now apply leb_0_nonneg|].
      apply mul_nonneg; now apply leb_0_nonneg.
    + now apply leb_0_neq_0_pos.
Qed.

Lemma calc_throttle_for_twr_range_witness :
  exists throttle,
    calc_throttle_for_twr 9.81 1.5 (Replay.probe 1000 5000 0 90 0 0)
    = Ok throttle
    /\ (0.0 <=? throttle) = true /\ (throttle <=? 1.0) = true.
Proof.
  exact (calc_throttle_for_twr_range 9.81 1.5
           (Replay.probe 1000 5000 0 90 0 0) eq_refl eq_refl eq_refl eq_refl).
Defined.

(** C9, as the specification states it, fails where an infinity comes in:
    a NaN quotient makes [min(1.0, throttle)] return 1.0.  With a weight
    that underflows to zero, minus infinity as target gives 1.0 and 1.3
    gives 0.0; with an infinite available thrust, a target of -1e308 gives
    1.0 and 1.3 gives 0.0. *)
Lemma calc_throttle_for_twr_not_monotone_at_infinity :
  ((0 <? 1e-200) = true /\ (0 <? 1) = true /\ (neg_infinity <=? 1.3) = true
   /\ calc_throttle_for_twr 1e-200 neg_infinity (Replay.probe 1e-200 1 0 90 0 0)
      = Ok 1
   /\ calc_throttle_for_twr 1e-200 1.3 (Replay.probe 1e-200 1 0 90 0 0) = Ok 0
   /\ (1 <=? 0) = false)
  /\ ((0 <? 1e300) = true /\ (0 <? 9.81) = true /\ (0 <? infinity) = true
      /\ (-1e308 <=? 1.3) = true
      /\ calc_throttle_for_twr 9.81 (-1e308) (Replay.probe 1e300 infinity 0 90 0 0)
         = Ok 1
      /\ calc_throttle_for_twr 9.81 1.3 (Replay.probe 1e300 infinity 0 90 0 0)
         = Ok 0
      /\ (1 <=? 0) = false).
Proof. repeat split. Qed.

(** C9, amended: for fixed mass > 0, gravity > 0 and finite
    available_thrust > 0, calc_throttle_for_twr is monotone non-decreasing
    in target_twr over targets other than minus infinity: if
    twr1 <= twr2 then the throttle returned for twr1 is <= the one returned
    for twr2. *)
Theorem calc_throttle_for_twr_monotone
    (g twr1 twr2 : float) (vessel : Vessel) :
  (0 <? mass vessel) = true ->
  (0 <? g) = true ->
  (0 <? available_thrust vessel) = true ->
  (available_thrust vessel <? infinity) = true ->
  (neg_infinity <? twr1) = true ->
  (twr1 <=? twr2) = true ->
  exists throttle1 throttle2,
    calc_throttle_for_twr g twr1 vessel = Ok throttle1
    /\ calc_throttle_for_twr g twr2 vessel = Ok throttle2
    /\ (throttle1 <=? throttle2) = true.
Proof.
  intros Hmass Hg Hthrust Hfinite Hlow Hle.
  pose proof (ltb_0_eqb_0 _ Hthrust) as Hne.
  rewrite !calc_throttle_for_twr_nonzero by assumption.
  eexists _, _. split; [reflexivity|]. split; [reflexivity|].
  set (w := mass vessel * g).
  set (q1 := twr1 * w / available_thrust vessel).
  set (q2 := twr2 * w / available_thrust vessel).
  unfold PyFloat.min2. destruct (q2 <? 1) eqn:H2.
  - assert (Hq : (q1 <=? q2) = true).
    { apply quotient_mono; try assumption.
      apply mul_nonneg; apply leb_0_nonneg, ltb_leb; assumption. }
    assert (H1 : (q1 <? 1) = true).
    { apply ltb_ord. apply leb_ord in Hq as (Hn1 & _ & Hord).
      apply ltb_ord in H2 as (_ & Hn & Hlt). repeat split; try assumption.
      eapply Z.le_lt_trans; eassumption. }
    rewrite H1. exact Hq.
  - destruct (q1 <? 1) eqn:H1; [now apply ltb_leb|reflexivity].
Qed.

Lemma calc_throttle_for_twr_monotone_witness :
  exists throttle1 throttle2,
    calc_throttle_for_twr 9.81 1.3 (Replay.probe 1000 20000 0 90 0 0)
    = Ok throttle1
    /\ calc_throttle_for_twr 9.81 1.5 (Replay.probe 1000 20000 0 90 0 0)
       = Ok throttle2
    /\ (throttle1 <=? throttle2) = true.
Proof.
  exact (calc_throttle_for_twr_monotone 9.81 1.3 1.5
           (Replay.probe 1000 20000 0 90 0 0)
           eq_refl eq_refl eq_refl eq_refl eq_refl eq_refl).
Defined.
End Throttle.

(** ** The pitch rate and the payload mass *)

Module Payload.
Local Open Scope float_scope.

Lemma float_pow_2_rounded_square (x y : float) :
  float_pow_2 x y = float_pow_with (fun a _ => a * a) x y.
Proof. reflexivity. Qed.

Lemma abs_mul_abs (x : float) : abs x * abs x = x * x.
Proof.
  apply FloatAxioms.Prim2SF_inj.
  rewrite !FloatAxioms.mul_spec, !FloatAxioms.abs_spec.
  now destruct (Prim2SF x) as [[]|[]| |[] m e].
Qed.

Lemma is_nan_eq (x : float) : is_nan x = true -> x = nan.
Proof.
  unfold is_nan. rewrite FloatAxioms.eqb_spec. intros H.
  apply FloatAxioms.Prim2SF_inj.
  destruct (Prim2SF x) as [[]|[]| |[] m e] eqn:Hx; try reflexivity;
    cbn in H; try discriminate H.
  all: unfold SFeqb in H; cbn in H;
    rewrite ?Z.compare_refl, ?Pos.compare_cont_refl in H; cbn in H;
    discriminate H.
Qed.

Lemma eqb_0_mul (x : float) : (x =? 0) = true -> x * x = 0.
Proof.
  rewrite FloatAxioms.eqb_spec. intros H.
  apply FloatAxioms.Prim2SF_inj. rewrite FloatAxioms.mul_spec.
  change (Prim2SF 0) with (S754_zero false) in *.
  destruct (Prim2SF x) as [[]|[]| |[] m e]; try discriminate H; reflexivity.
Qed.

Lemma abs_eqb_1_mul (x : float) : (abs x =? 1) = true -> x * x = 1.
Proof.
  rewrite FloatAxioms.eqb_spec, FloatAxioms.abs_spec. intros H.
  apply FloatAxioms.Prim2SF_inj. rewrite FloatAxioms.mul_spec.
  assert (H1 : Prim2SF 1 = S754_finite false 4503599627370496 (-52)) by reflexivity.
  rewrite H1 in *.
  destruct (Prim2SF x) as [[]|[]| |s m e]; try discriminate H.
  unfold SFeqb, SFabs, SFcompare in H.
  destruct (e ?= -52)%Z eqn:He; try discriminate H.
  destruct (Pos.compare_cont Eq m 4503599627370496) eqn:Hm; try discriminate H.
  apply Z.compare_eq in He. apply Pos.compare_eq in Hm. subst e m.
  now destruct s.
Qed.

(** C3: for every payload mass m, calc_pitch_rate evaluates
    0.0041*m**2 + 0.0259*m + 0.5801 in binary64, from left to right, where
    m**2 is the interpreter's power of floats, and returns that, unless m
    is a finite number whose square the C library's pow returns as
    infinite: then it raises OverflowError, and it raises nothing else.
    With a C library that rounds the square correctly, the function
    returns 0.0041*(m*m) + 0.0259*m + 0.5801 whenever the product m*m is
    not infinite, and raises OverflowError when m is finite and m*m is
    infinite. *)
Theorem calc_pitch_rate_polynomial (c_pow : float -> float -> float) (m : float) :
  (forall m2,
      float_pow_with c_pow m 2 = Ok m2 ->
      calc_pitch_rate (float_pow_with c_pow) m
      = Ok (0.0041 * m2 + 0.0259 * m + 0.5801))
  /\ (forall e,
         calc_pitch_rate (float_pow_with c_pow) m = Raise e ->
         e = OverflowError /\ is_nan m = false /\ is_infinity m = false
         /\ is_infinity (c_pow (abs m) 2) = true)
  /\ (is_infinity (m * m) = false ->
      calc_pitch_rate float_pow_2 m = Ok (0.0041 * (m * m) + 0.0259 * m + 0.5801))
  /\ (is_infinity (m * m) = true -> is_infinity m = false ->
      calc_pitch_rate float_pow_2 m = Raise OverflowError).
Proof.
  split; [|split; [|split]].
  - intros m2 Hpow. unfold calc_pitch_rate. now rewrite Hpow.
  - intros e. unfold calc_pitch_rate, float_pow_with.
    destruct (is_nan m); [discriminate|].
    destruct (is_infinity m); [discriminate|].
    destruct (m =? 0); [discriminate|].
    destruct (abs m =? 1); [discriminate|].
    cbv zeta. destruct (is_infinity (c_pow (abs m) 2)); [|discriminate].
    now intros [= <-].
  - intros Hfin. unfold calc_pitch_rate, float_pow_2.
    destruct (is_nan m) eqn:Hnan.
    { apply is_nan_eq in Hnan as ->. reflexivity. }
    destruct (is_infinity m) eqn:Hinf.
    { exfalso. revert Hinf Hfin. unfold is_infinity.
      rewrite !FloatAxioms.eqb_spec, !FloatAxioms.abs_spec, FloatAxioms.mul_spec.
      change (Prim2SF infinity) with (S754_infinity false).
      destruct (Prim2SF m) as [[]|[]| |[] mm e]; cbn; try discriminate.
      all: unfold SFeqb; cbn; discriminate. }
    destruct (m =? 0) eqn:H0.
    { now rewrite (eqb_0_mul _ H0). }
    destruct (abs m =? 1) eqn:H1.
    { now rewrite (abs_eqb_1_mul _ H1). }
    cbv zeta. rewrite abs_mul_abs, Hfin. reflexivity.
  - intros Hinf Hm. unfold calc_pitch_rate, float_pow_2. rewrite Hm.
    destruct (is_nan m) eqn:Hnan.
    { apply is_nan_eq in Hnan as ->. discriminate Hinf. }
    destruct (m =? 0) eqn:H0.
    { rewrite (eqb_0_mul _ H0) in Hinf. discriminate Hinf. }
    destruct (abs m =? 1) eqn:H1.
    { rewrite (abs_eqb_1_mul _ H1) in Hinf. discriminate Hinf. }
    cbv zeta. rewrite abs_mul_abs, Hinf. reflexivity.
Qed.

Lemma calc_pitch_rate_polynomial_witness :
  calc_pitch_rate (float_pow_with (fun a _ => a * a)) 0.13
  = Ok (0.0041 * (0.13 * 0.13) + 0.0259 * 0.13 + 0.5801)
  /\ calc_pitch_rate float_pow_2 0.13
     = Ok (0.0041 * (0.13 * 0.13) + 0.0259 * 0.13 + 0.5801)
  /\ calc_pitch_rate float_pow_2 1e200 = Raise OverflowError.
Proof.
  split; [|split].
  - exact (proj1 (calc_pitch_rate_polynomial (fun a _ => a * a) 0.13)
             (0.13 * 0.13) eq_refl).
  - exact (proj1 (proj2 (proj2 (calc_pitch_rate_polynomial (fun a _ => a * a) 0.13)))
             eq_refl).
  - exact (proj2 (proj2 (proj2 (calc_pitch_rate_polynomial (fun a _ => a * a) 1e200)))
             eq_refl eq_refl).
Defined.

(** The square of 1e200 is 1e400, which is beyond the largest binary64
    number: [1e200 ** 2] raises OverflowError, and the function returns
    nothing. *)
Lemma calc_pitch_rate_overflows :
  calc_pitch_rate float_pow_2 1e200 = Raise OverflowError.
Proof. reflexivity. Qed.

(** The notebook's own output: the payload of the vessel it was run on
    weighs 0.13 t, which gives 0.5835 degrees per second. *)
Example calc_pitch_rate_0_13 :
  calc_pitch_rate float_pow_2 0.13 = Ok 0.58353628999999996.
Proof. reflexivity. Qed.

(** When [m ** 2] raises, so does the function. *)
Lemma calc_pitch_rate_raises
    (float_pow : float -> float -> result float) (m : float) (e : exn) :
  float_pow m 2 = Raise e -> calc_pitch_rate float_pow m = Raise e.
Proof.
  intros Hpow. unfold calc_pitch_rate. rewrite Hpow. reflexivity.
Qed.

Lemma with_tag_app (t : string) (ps qs : list Part) :
  with_tag t (ps ++ qs) = with_tag t ps ++ with_tag t qs.
Proof. unfold with_tag. apply List.filter_app. Qed.

Lemma with_tag_none (t : string) (ps : list Part) :
  (forall p, In p ps -> tag p <> t) -> with_tag t ps = [].
Proof.
  induction ps as [|p ps IH]; intros Hno; [reflexivity|].
  cbn. destruct (String.eqb_spec (tag p) t) as [Heq|Hne].
  - exfalso. apply (Hno p); [now left|exact Heq].
  - apply IH. intros q Hq. apply Hno. now right.
Qed.

Lemma find_payload_mass_first (v : Vessel) (p : Part) (rest : list Part) :
  with_tag "payload_decoupler" (parts v) = p :: rest ->
  find_payload_mass v
  = Ok (PyFloat.sum (List.map part_mass (children p)) / 1000.0).
Proof.
  intros Htag. unfold find_payload_mass. rewrite Htag. reflexivity.
Qed.

(** C10: find_payload_mass returns the sum of the masses of the children of
    the first part tagged 'payload_decoupler', divided by 1000.0, whenever
    the vessel has a part with that tag; when no part carries the tag, the
    index [0] raises (IndexError) and nothing is returned. *)
Theorem find_payload_mass_first_tagged (v : Vessel) :
  (forall before p after,
      parts v = before ++ p :: after ->
      tag p = "payload_decoupler" ->
      (forall q, In q before -> tag q <> "payload_decoupler") ->
      find_payload_mass v
      = Ok (PyFloat.sum (List.map part_mass (children p)) / 1000.0))
  /\ ((forall q, In q (parts v) -> tag q <> "payload_decoupler") ->
      find_payload_mass v = Raise IndexError).
Proof.
  split.
  - intros before p after Hparts Htag Hbefore.
    apply find_payload_mass_first with (rest := with_tag "payload_decoupler" after).
    rewrite Hparts, with_tag_app, (with_tag_none _ before Hbefore).
    cbn. rewrite Htag. reflexivity.
  - intros Hno. unfold find_payload_mass.
    rewrite (with_tag_none _ _ Hno). reflexivity.
Qed.

Lemma find_payload_mass_first_tagged_witness :
  find_payload_mass Replay.stack = Ok 0.13
  /\ find_payload_mass (Replay.probe 1000 20000 0 90 0 0) = Raise IndexError.
Proof.
  split.
  - refine (proj1 (find_payload_mass_first_tagged Replay.stack)
              [Replay.leaf "tank" 4000] _ _ eq_refl eq_refl _).
    intros q [<-|[]]. discriminate.
  - refine (proj2 (find_payload_mass_first_tagged
                     (Replay.probe 1000 20000 0 90 0 0)) _).
    intros q [].
Defined.
End Payload.

(** ** Reasoning about runs of the script *)

Ltac unfold_monad :=
  unfold mbind, M_bind, mret, M_ret in *.

Section Runs.
Context {World : Type} {sim : Simulation World}.

Lemma run_eta {A} (m : M World A) (s : State World) :
  m s = (outcome_of m s, final_state m s, trace_of m s).
Proof.
  unfold outcome_of, final_state, trace_of. now destruct (m s) as [[r s'] t].
Qed.

(** A finished run, split into its outcome, final state and trace. *)
Lemma finished {A} (m : M World A) (s : State World) (a : A) :
  outcome_of m s = Done a -> m s = (Done a, final_state m s, trace_of m s).
Proof. intros <-. apply run_eta. Qed.

(** A [bind] that finishes ran both of its parts to the end. *)
Lemma bind_done {A B} (m : M World A) (k : A -> M World B) (s s2 : State World) (b : B)
    (t : list event) :
  bind m k s = (Done b, s2, t) ->
  exists a s1 t1 t2,
    m s = (Done a, s1, t1) /\ k a s1 = (Done b, s2, t2) /\ t = t1 ++ t2.
Proof.
  unfold bind. destruct (m s) as [[[a| |] s1] t1]; try discriminate.
  destruct (k a s1) as [[r s2'] t2] eqn:Hk. intros [= -> -> <-].
  now exists a, s1, t1, t2.
Qed.

(** *** Invariants of a run

    A relation between the state before, the state after and the trace in
    between that holds of no step at all and composes is kept by [ret],
    [bind], [while] and [for_each] whenever their parts keep it. *)
Section Invariant.
Variable I : State World -> State World -> list event -> Prop.
Hypothesis I_refl : forall s, I s s [].
Hypothesis I_trans :
  forall s1 s2 s3 t1 t2, I s1 s2 t1 -> I s2 s3 t2 -> I s1 s3 (t1 ++ t2).

Definition respects {A} (m : M World A) : Prop :=
  forall s, I s (final_state m s) (trace_of m s).

Lemma respects_ret {A} (a : A) : respects (ret a).
Proof. intros s. apply I_refl. Qed.

Lemma respects_lift {A} (r : result A) : respects (lift r).
Proof. intros s. apply I_refl. Qed.

Lemma respects_vessel : respects vessel.
Proof. intros s. apply I_refl. Qed.

Lemma respects_out_of_fuel {A} : respects (fun s => (@OutOfFuel A, s, [])).
Proof. intros s. apply I_refl. Qed.

Lemma respects_bind {A B} (m : M World A) (k : A -> M World B) :
  respects m -> (forall a, respects (k a)) -> respects (bind m k).
Proof.
  intros Hm Hk s. specialize (Hm s).
  unfold final_state, trace_of, bind in *.
  destruct (m s) as [[[a| |] s1] t1]; cbn in *; try assumption.
  specialize (Hk a s1). unfold final_state, trace_of in Hk.
  destruct (k a s1) as [[r s2] t2]; cbn in *. now apply I_trans with s1.
Qed.

Lemma respects_while (fuel : nat) (cond : M World bool) (body : M World unit) :
  respects cond -> respects body -> respects (while fuel cond body).
Proof.
  intros Hc Hb. induction fuel as [|fuel IH]; cbn.
  - apply respects_out_of_fuel.
  - unfold_monad. apply respects_bind; [assumption|].
    intros [|]; [|apply respects_ret].
    apply respects_bind; [assumption|]. intros _. exact IH.
Qed.

Lemma respects_for_each {A} (xs : list A) (body : A -> M World unit) :
  (forall x, respects (body x)) -> respects (for_each xs body).
Proof.
  intros Hb. induction xs as [|x xs IH]; cbn.
  - apply respects_ret.
  - unfold_monad. apply respects_bind; [apply Hb|]. intros _. exact IH.
Qed.
End Invariant.

(** *** Quiet runs: no file is touched and every event is of a given kind *)

Definition quiet (P : event -> bool) (s s' : State World) (t : list event) : Prop :=
  files s' = files s /\ forallb P t = true.

Lemma quiet_refl (P : event -> bool) (s : State World) : quiet P s s [].
Proof. now split. Qed.

Lemma quiet_trans (P : event -> bool) (s1 s2 s3 : State World) (t1 t2 : list event) :
  quiet P s1 s2 t1 -> quiet P s2 s3 t2 -> quiet P s1 s3 (t1 ++ t2).
Proof.
  intros [Hf1 Ht1] [Hf2 Ht2]. split; [congruence|].
  rewrite forallb_app, Ht1, Ht2. reflexivity.
Qed.

Definition stays_quiet (P : event -> bool) {A} (m : M World A) : Prop :=
  respects (quiet P) m.

Lemma quiet_emit (P : event -> bool) (e : event) :
  P e = true -> stays_quiet P (emit e).
Proof. intros He s. split; cbn; [reflexivity|now rewrite He]. Qed.

Lemma quiet_read (P : event -> bool) (q : quantity) :
  (forall v, P (ERead q v) = true) -> stays_quiet P (read q).
Proof. intros He s. split; cbn; [reflexivity|now rewrite He]. Qed.

Lemma quiet_time (P : event -> bool) :
  (forall t, P (ETime t) = true) -> stays_quiet P time.
Proof. intros He s. split; cbn; [reflexivity|now rewrite He]. Qed.

Lemma quiet_ret (P : event -> bool) {A} (a : A) : stays_quiet P (ret a).
Proof. apply respects_ret, quiet_refl. Qed.

Lemma quiet_lift (P : event -> bool) {A} (r : result A) : stays_quiet P (lift r).
Proof. apply respects_lift, quiet_refl. Qed.

Lemma quiet_vessel (P : event -> bool) : stays_quiet P vessel.
Proof. apply respects_vessel, quiet_refl. Qed.

Lemma quiet_bind (P : event -> bool) {A B} (m : M World A) (k : A -> M World B) :
  stays_quiet P m -> (forall a, stays_quiet P (k a)) -> stays_quiet P (bind m k).
Proof. apply respects_bind, quiet_trans. Qed.

Lemma quiet_while (P : event -> bool) (fuel : nat)
    (cond : M World bool) (body : M World unit) :
  stays_quiet P cond -> stays_quiet P body -> stays_quiet P (while fuel cond body).
Proof. apply respects_while; [apply quiet_refl|apply quiet_trans]. Qed.

Lemma quiet_get (P : event -> bool) (a : attribute) : stays_quiet P (get a).
Proof. intros s. now split. Qed.

Lemma quiet_calc_throttle_for_twr_call (P : event -> bool) (g target_twr : float) :
  stays_quiet P (calc_throttle_for_twr_call g target_twr).
Proof.
  unfold calc_throttle_for_twr_call. unfold_monad.
  apply quiet_bind; [apply quiet_get|]. intros m.
  apply quiet_bind; [apply quiet_get|]. intros a1.
  destruct (a1 =? 0)%float; [apply quiet_ret|].
  apply quiet_bind; [apply quiet_get|]. intros a2.
  apply quiet_bind; [apply quiet_lift|]. intros x. apply quiet_ret.
Qed.

Lemma quiet_throttle_for_twr (P : event -> bool) (g target_twr : float) :
  (forall x, P (EThrottle x) = true) -> stays_quiet P (throttle_for_twr g target_twr).
Proof.
  intros He. unfold throttle_for_twr. unfold_monad.
  apply quiet_bind; [apply quiet_calc_throttle_for_twr_call|]. intros x.
  apply quiet_emit, He.
Qed.

(** *** The shape of a polling loop's trace

    A loop [while test(read q): body] whose body runs to its end, or else
    stops before it has done anything, leaves a trace of rounds: the poll,
    then what the body did; after the last round comes the poll that ended
    the loop, unless the fuel ran out. *)

Inductive rounds (q : quantity) (block : list event -> Prop) : list event -> Prop :=
| rounds_out_of_fuel : rounds q block []
| rounds_exit (v : float) : rounds q block [ERead q v]
| rounds_again (v : float) (b rest : list event) :
    block b -> rounds q block rest -> rounds q block (ERead q v :: b ++ rest).

Definition poll (q : quantity) (test : float -> bool) : M World bool :=
  bind (read q) (fun v => ret (test v)).

(** A body that does a whole round or nothing at all. *)
Definition whole_rounds (block : list event -> Prop) (body : M World unit) : Prop :=
  forall s,
    (outcome_of body s = Done tt /\ block (trace_of body s))
    \/ (outcome_of body s <> Done tt /\ trace_of body s = []).

Lemma while_poll_rounds (q : quantity) (test : float -> bool)
    (body : M World unit) (block : list event -> Prop) (fuel : nat) :
  whole_rounds block body ->
  forall s, rounds q block (trace_of (while fuel (poll q test) body) s).
Proof.
  intros Hbody. induction fuel as [|fuel IH]; intros s.
  - apply rounds_out_of_fuel.
  - unfold trace_of. cbn. unfold_monad. unfold poll, bind at 1 2. cbn.
    destruct (test _).
    + unfold bind.
      match goal with |- context [body ?s1] =>
        destruct (Hbody s1) as [[Hdone Hblock]|[Hnot Hnone]];
        specialize (IH (final_state body s1)); rewrite (run_eta body s1) end.
      * rewrite Hdone. unfold trace_of in IH.
        destruct (while fuel _ body _) as [[r s3] t3]. cbn in *.
        now apply rounds_again.
      * rewrite Hnone.
        destruct (outcome_of body _) as [[]| |]; cbn;
          try apply rounds_exit. now contradiction Hnot.
    + cbn. apply rounds_exit.
Qed.



(** *** A call of the throttle law on the remote vessel *)

(** The world after an attribute has been read. *)
Definition after_get (a : attribute) (w : World) : World :=
  react (EGet a (attribute_of a (vessel_of w))) w.

(** The three readings of a call that starts in the world [w]: the mass,
    the available thrust that is tested against [0.0], and the available
    thrust that is divided by. *)
Definition mass_read (w : World) : float := mass (vessel_of w).

Definition thrust_tested (w : World) : float :=
  available_thrust (vessel_of (after_get Mass w)).

Definition thrust_divided_by (w : World) : float :=
  available_thrust (vessel_of (after_get AvailableThrust (after_get Mass w))).

(** The vessel with the mass the call read and the thrust it divided by. *)
Definition as_read (w : World) : Vessel :=
  {| mass := mass_read w;
     available_thrust := thrust_divided_by w;
     parts := parts (vessel_of w);
     flight := flight (vessel_of w);
     orbit := orbit (vessel_of w) |}.

(** What a call does: nothing that the trace or the files show, and an
    outcome that the three readings decide. *)
Lemma calc_throttle_for_twr_call_run (g target_twr : float) (s : State World) :
  outcome_of (calc_throttle_for_twr_call g target_twr) s
  = (if thrust_tested (world s) =? 0 then Done 0
     else if thrust_divided_by (world s) =? 0 then Raised ZeroDivisionError
          else Done (PyFloat.min2 1
                       (target_twr * (mass_read (world s) * g)
                        / thrust_divided_by (world s))))%float
  /\ trace_of (calc_throttle_for_twr_call g target_twr) s = []
  /\ files (final_state (calc_throttle_for_twr_call g target_twr) s) = files s.
Proof.
  unfold outcome_of, trace_of, final_state, calc_throttle_for_twr_call,
    thrust_tested, thrust_divided_by, mass_read, after_get.
  unfold_monad. unfold bind, get, lift, ret, PyFloat.truediv.
  cbn [world files attribute_of fst snd].
  destruct (available_thrust _ =? 0)%float; cbn [world files fst snd];
    [now repeat split|].
  destruct (available_thrust _ =? 0)%float; cbn [world files fst snd];
    now repeat split.
Qed.

(** A value the call returns is [0.0], or what the function on records
    returns for the mass read and the thrust divided by. *)
Lemma calc_throttle_for_twr_call_done (g target_twr x : float) (s : State World) :
  outcome_of (calc_throttle_for_twr_call g target_twr) s = Done x ->
  x = 0%float \/ calc_throttle_for_twr g target_twr (as_read (world s)) = Ok x.
Proof.
  destruct (calc_throttle_for_twr_call_run g target_twr s) as [-> _].
  destruct (thrust_tested (world s) =? 0)%float.
  - intros H. left.
    change 0%float with (match Done 0%float with Done y => y | _ => x end).
    now rewrite H.
  - destruct (thrust_divided_by (world s) =? 0)%float eqn:Hdiv; [discriminate|].
    intros H. right. unfold calc_throttle_for_twr, PyFloat.truediv.
    cbn [as_read mass available_thrust]. rewrite Hdiv. cbn [rbind].
    set (y := PyFloat.min2 1 _) in *.
    assert (Hy : y = x).
    { change y with (match Done y with Done z => z | _ => x end). now rewrite H. }
    now rewrite Hy.
Qed.

(** The call raises nothing but [ZeroDivisionError], and that when the
    available thrust, not zero when tested, is zero when divided by. *)
Lemma calc_throttle_for_twr_call_raised (g target_twr : float) (e : exn)
    (s : State World) :
  outcome_of (calc_throttle_for_twr_call g target_twr) s = Raised e ->
  e = ZeroDivisionError
  /\ (thrust_tested (world s) =? 0)%float = false
  /\ (thrust_divided_by (world s) =? 0)%float = true.
Proof.
  destruct (calc_throttle_for_twr_call_run g target_twr s) as [-> _].
  destruct (thrust_tested (world s) =? 0)%float; [discriminate|].
  destruct (thrust_divided_by (world s) =? 0)%float; [|discriminate].
  intros [= <-]. now repeat split.
Qed.

Lemma calc_throttle_for_twr_call_fuel (g target_twr : float) (s : State World) :
  outcome_of (calc_throttle_for_twr_call g target_twr) s <> OutOfFuel.
Proof.
  destruct (calc_throttle_for_twr_call_run g target_twr s) as [-> _].
  destruct (thrust_tested (world s) =? 0)%float; [discriminate|].
  destruct (thrust_divided_by (world s) =? 0)%float; discriminate.
Qed.

(** Setting the throttle is one [EThrottle] event with the value the call
    returned, or nothing at all when the call raised. *)
Lemma throttle_for_twr_run (g target_twr : float) (s : State World) :
  (exists x,
      outcome_of (calc_throttle_for_twr_call g target_twr) s = Done x
      /\ throttle_for_twr g target_twr s
         = (Done tt,
            {| world :=
                 react (EThrottle x)
                   (world (final_state (calc_throttle_for_twr_call g target_twr) s));
               files := files s |},
            [EThrottle x]))
  \/ (outcome_of (calc_throttle_for_twr_call g target_twr) s
      = Raised ZeroDivisionError
      /\ outcome_of (throttle_for_twr g target_twr) s = Raised ZeroDivisionError
      /\ trace_of (throttle_for_twr g target_twr) s = []).
Proof.
  destruct (calc_throttle_for_twr_call_run g target_twr s) as (Hout & Htrace & Hfiles).
  pose proof (calc_throttle_for_twr_call_fuel g target_twr s) as Hfuel.
  unfold throttle_for_twr, outcome_of, trace_of, final_state in *. unfold_monad.
  unfold bind.
  destruct (calc_throttle_for_twr_call g target_twr s) as [[[x|e|] s1] t1];
    cbn [fst snd] in *.
  - left. exists x. split; [reflexivity|]. subst t1. unfold set_throttle, emit.
    cbn. now rewrite Hfiles.
  - right. subst t1.
    assert (e = ZeroDivisionError) as ->.
    { destruct (thrust_tested (world s) =? 0)%float; [discriminate|].
      destruct (thrust_divided_by (world s) =? 0)%float; [|discriminate].
      now injection Hout as <-. }
    now repeat split.
  - now contradiction Hfuel.
Qed.

(** A round that starts by setting the throttle is played whole or not at
    all. *)
Lemma throttle_first (g target_twr : float) (rest : M World unit)
    (block : list event -> Prop) :
  (forall x s, outcome_of rest s = Done tt
               /\ block (EThrottle x :: trace_of rest s)) ->
  whole_rounds block (bind (throttle_for_twr g target_twr) (fun _ => rest)).
Proof.
  intros Hrest s.
  destruct (throttle_for_twr_run g target_twr s)
    as [(x & _ & Hrun)|(_ & Hout & Htrace)].
  - left. unfold outcome_of, trace_of, bind. rewrite Hrun.
    match goal with |- context [rest ?s1] =>
      destruct (Hrest x s1) as [Hdone Hblock]; unfold outcome_of, trace_of in *;
      destruct (rest s1) as [[r s2] t2] end.
    cbn in *. now split.
  - right. unfold outcome_of, trace_of, bind in *.
    destruct (throttle_for_twr g target_twr s) as [[r s1] t1]. cbn in *.
    subst r t1. now split.
Qed.
End Runs.

(** ** The polling loops of the ascent *)

Module Ascent.
Section Loops.
Context {World : Type} {sim : Simulation World}.
Variable g : float.
Variable float_pow : float -> float -> result float.
Local Open Scope float_scope.

(** A round of a pitch-over loop is played whole, throttle, clock and
    command, or not at all (when the throttle law raises). *)
Lemma pitch_over_round (target_twr start_pitch pitch_start pitch_rate : float) :
  whole_rounds (pitch_command start_pitch pitch_start pitch_rate)
    (throttle_for_twr g target_twr;;
     now ← time;
     target_pitch_and_heading (start_pitch - (now - pitch_start) * pitch_rate) 90.0).
Proof.
  unfold_monad. apply throttle_first. intros x s. split; [reflexivity|].
  exists x, (clock (world s)). reflexivity.
Qed.

Lemma clock_readings_app (t1 t2 : list event) :
  clock_readings (t1 ++ t2) = clock_readings t1 ++ clock_readings t2.
Proof.
  induction t1 as [|e t1 IH]; [reflexivity|].
  destruct e; cbn; now rewrite ?IH.
Qed.





(** A round of the climb loop is played whole or not at all. *)
Lemma climb_round (target_twr : float) :
  whole_rounds throttle_then_sleep (throttle_for_twr g target_twr;; sleep 0.1).
Proof.
  unfold_monad. apply throttle_first. intros x s. split; [reflexivity|].
  now exists x.
Qed.

Lemma rounds_sleep_between_polls (q : quantity) (t : list event) :
  rounds q throttle_then_sleep t ->
  forall slept, polls_after_sleep slept t = true \/ slept = false.
Proof.
  induction 1 as [|v|v b rest [x ->] _ IH]; intros [|]; cbn; auto.
Qed.

Lemma poll_no_sleep (q : quantity) (test : float -> bool) :
  stays_quiet no_sleep (poll q test).
Proof.
  apply quiet_bind; [now apply quiet_read|]. intros v. apply quiet_ret.
Qed.

(** C7, amended: only the climb loop sleeps in its rounds, 0.1 s after each
    throttle setting, so that a sleep lies between any two of its polls;
    the two pitch-over loops and the two apoapsis loops never sleep. *)
Theorem only_climb_loop_sleeps
    (fuel : nat) (target_twr pitch_start pitch_rate : float) (s : State World) :
  (rounds (VerticalSpeed BodyFrame) throttle_then_sleep
     (trace_of (climb_loop g fuel target_twr) s)
   /\ sleeps_between_polls (trace_of (climb_loop g fuel target_twr) s) = true)
  /\ forallb no_sleep
       (trace_of (first_pitch_over_loop g fuel target_twr pitch_start pitch_rate) s)
     = true
  /\ forallb no_sleep (trace_of (hold_45_loop g fuel target_twr) s) = true
  /\ forallb no_sleep
       (trace_of (second_pitch_over_loop g fuel pitch_start pitch_rate) s) = true
  /\ forallb no_sleep (trace_of (burn_loop g fuel) s) = true.
Proof.
  assert (Hclimb : rounds (VerticalSpeed BodyFrame) throttle_then_sleep
                     (trace_of (climb_loop g fuel target_twr) s)).
  { apply (while_poll_rounds (VerticalSpeed BodyFrame) (fun v => v <? 100.0)).
    apply climb_round. }
  split; [split; [exact Hclimb|]|].
  { destruct (rounds_sleep_between_polls _ _ Hclimb true); [assumption|discriminate]. }
  repeat split.
  all: match goal with
       | |- forallb _ (trace_of ?m ?s) = _ =>
           enough (H : stays_quiet no_sleep m) by exact (proj2 (H s))
       end.
  all: apply quiet_while; [apply poll_no_sleep|].
  all: unfold_monad; apply quiet_bind; [now apply quiet_throttle_for_twr|]; intros _.
  all: try (apply quiet_bind; [now apply quiet_time|]; intros now).
  all: now apply quiet_emit.
Qed.
End Loops.

Local Open Scope float_scope.

(** C7, as the specification states it, fails: the burn loop polls the
    apoapsis three times in a row without a sleep in between. *)
Lemma burn_loop_polls_without_sleeping :
  trace_of (burn_loop 9.81 10) Replay.burning
  = [ERead ApoapsisAltitude 50000; EThrottle 0.72485000000000011;
     ETargetPitchAndHeading 0 90;
     ERead ApoapsisAltitude 90000; EThrottle 0.68670000000000009;
     ETargetPitchAndHeading 0 90;
     ERead ApoapsisAltitude 120000]
  /\ sleeps_between_polls (trace_of (burn_loop 9.81 10) Replay.burning) = false.
Proof. split; vm_compute; reflexivity. Qed.

End Ascent.

(** ** The pitch-rate sweep *)

Module Sweep.
Section Sweep.
Context {World : Type} {sim : Simulation World}.
Variable g : float.
Local Open Scope float_scope.

Lemma mean_altitudes_app (t1 t2 : list event) :
  mean_altitudes (t1 ++ t2) = mean_altitudes t1 ++ mean_altitudes t2.
Proof.
  induction t1 as [|e t1 IH]; [reflexivity|].
  destruct e as [[]| | | | | | | | |]; cbn; now rewrite ?IH.
Qed.

Lemma mean_altitudes_none (t : list event) :
  forallb no_altitude t = true -> mean_altitudes t = [].
Proof.
  induction t as [|e t IH]; [reflexivity|].
  destruct e as [[]| | | | | | | | |]; cbn; try discriminate; exact IH.
Qed.

(** A run that ends by reading the mean altitude and returning it, having
    read no altitude before and touched no file. *)
Definition returns_mean_altitude (m : M World float) : Prop :=
  forall s a s' t,
    m s = (Done a, s', t) ->
    files s' = files s
    /\ exists t0 w,
         t = t0 ++ [ERead (MeanAltitude SurfaceFrame) a]
         /\ a = mean_altitude (flight (vessel_of w) SurfaceFrame)
         /\ world s' = react (ERead (MeanAltitude SurfaceFrame) a) w
         /\ forallb no_altitude t0 = true.

Lemma returns_mean_altitude_read :
  returns_mean_altitude (read (MeanAltitude SurfaceFrame)).
Proof.
  intros s a s' t [= <- <- <-]. split; [reflexivity|].
  exists [], (world s). repeat split.
Qed.

Lemma returns_mean_altitude_bind {A} (m : M World A) (k : A -> M World float) :
  stays_quiet no_altitude m ->
  (forall x, returns_mean_altitude (k x)) ->
  returns_mean_altitude (bind m k).
Proof.
  intros Hm Hk s a s' t Hrun.
  apply bind_done in Hrun as (x & s1 & t1 & t2 & Hm1 & Hk1 & ->).
  destruct (Hm s) as [Hfiles Hquiet].
  unfold final_state, trace_of in Hfiles, Hquiet. rewrite Hm1 in Hfiles, Hquiet.
  cbn in Hfiles, Hquiet.
  destruct (Hk x s1 a s' t2 Hk1) as (Hfiles' & t0 & w & -> & Ha & Hw & Hquiet').
  split; [congruence|].
  exists (t1 ++ t0), w. rewrite app_assoc, forallb_app, Hquiet, Hquiet'.
  repeat split; assumption.
Qed.

Lemma poll_no_altitude (q : quantity) (test : float -> bool) :
  no_altitude (ERead q 0) = true -> stays_quiet no_altitude (poll q test).
Proof.
  intros Hq. apply quiet_bind; [|intros v; apply quiet_ret].
  apply quiet_read. intros v. now destruct q.
Qed.

Lemma find_ascent_altitude_returns_mean_altitude (fuel : nat) (pitch_rate : float) :
  returns_mean_altitude (find_ascent_altitude g fuel pitch_rate).
Proof.
  unfold find_ascent_altitude, climb_loop, first_pitch_over_loop. unfold_monad.
  repeat first
    [ apply returns_mean_altitude_read
    | apply returns_mean_altitude_bind; [|intros ?]
    | now apply quiet_throttle_for_twr
    | apply quiet_while; [now apply poll_no_altitude|]
    | apply quiet_bind; [|intros ?]
    | now apply quiet_time
    | now apply quiet_emit ].
Qed.

(** The inner loop returns what it was given followed by the mean altitudes
    it read, one per pitch rate. *)
Lemma fly_all_mean_altitudes (fuel : nat) (save : string) (rates : list float) :
  forall acc s l s' t,
    fly_all g fuel save rates acc s = (Done l, s', t) ->
    files s' = files s
    /\ l = acc ++ mean_altitudes t
    /\ length (mean_altitudes t) = length rates.
Proof.
  induction rates as [|rate rates IH]; intros acc s l s' t Hrun.
  - injection Hrun as <- <- <-. cbn. now rewrite app_nil_r.
  - cbn in Hrun. unfold_monad.
    apply bind_done in Hrun as ([] & s1 & t1 & t2 & Hload & Hrun & ->).
    injection Hload as <- <-.
    apply bind_done in Hrun as (a & s2 & t3 & t4 & Hfly & Hrun & ->).
    apply find_ascent_altitude_returns_mean_altitude in Hfly
      as (Hfiles & t0 & w & -> & _ & _ & Hquiet).
    apply IH in Hrun as (Hfiles' & -> & Hlen).
    rewrite !mean_altitudes_app, (mean_altitudes_none t0 Hquiet). cbn.
    rewrite <- app_assoc. cbn in *. repeat split; congruence.
Qed.

(** The flights of a turn: for each pitch rate in its turn the save is
    loaded and [find_ascent_altitude] is called with that rate, from the
    state in which the flight before ended; the altitudes are what the
    calls returned, in order. *)
Inductive flights (fuel : nat) (save : string)
  : list float -> State World -> list float -> State World -> Prop :=
| flights_none (s : State World) : flights fuel save [] s [] s
| flights_next (pitch_rate : float) (pitch_rates : list float)
    (s s1 s2 : State World) (asc_alt : float) (t : list event)
    (ascent_altitudes : list float) :
    find_ascent_altitude g fuel pitch_rate (final_state (load save) s)
    = (Done asc_alt, s1, t) ->
    flights fuel save pitch_rates s1 ascent_altitudes s2 ->
    flights fuel save (pitch_rate :: pitch_rates) s (asc_alt :: ascent_altitudes) s2.

Lemma fly_all_flights (fuel : nat) (save : string) (rates : list float) :
  forall acc s l s' t,
    fly_all g fuel save rates acc s = (Done l, s', t) ->
    exists alts, l = acc ++ alts /\ flights fuel save rates s alts s'.
Proof.
  induction rates as [|rate rates IH]; intros acc s l s' t Hrun.
  - injection Hrun as <- <- <-. exists []. split; [now rewrite app_nil_r|].
    apply flights_none.
  - cbn in Hrun. unfold_monad.
    apply bind_done in Hrun as ([] & s1 & t1 & t2 & Hload & Hrun & ->).
    injection Hload as <- <-.
    apply bind_done in Hrun as (a & s2 & t3 & t4 & Hfly & Hrun & ->).
    apply IH in Hrun as (alts & -> & Hrest).
    exists (a :: alts). split; [now rewrite <- app_assoc|].
    now apply flights_next with s2 t3.
Qed.

(** Writing the lines one after the other appends them to what the file
    holds. *)
Lemma write_lines (name : string) (alts : list float) :
  forall (s : State World) (held : text),
    files s !! name = Some held ->
    for_each alts (fun asc => write name (altitude_line asc)) s
    = (Done tt,
       {| world := world s;
          files := <[name := held ++ concat (List.map altitude_line alts)]> (files s) |},
       []).
Proof.
  induction alts as [|a alts IH]; intros s held Hheld.
  - cbn. rewrite app_nil_r, insert_id by assumption. now destruct s.
  - cbn [for_each]. unfold_monad. unfold bind. unfold write at 1.
    cbn [files world]. rewrite Hheld. cbn [default].
    rewrite (IH _ (held ++ altitude_line a)) by apply lookup_insert_eq.
    cbn [files world concat List.map].
    rewrite insert_insert_eq, <- app_assoc. reflexivity.
Qed.

(** One turn of the sweep: the output file ends up holding the mean
    altitudes of the six flights, one per line, and nothing else. *)
Lemma sweep_save_files (fuel i : nat) (save : string) (s s' : State World)
    (t : list event) :
  sweep_save g fuel i save s = (Done tt, s', t) ->
  files s'
  = <[output_name i save := concat (List.map altitude_line (mean_altitudes t))]>
      (files s)
  /\ length (mean_altitudes t) = 6%nat.
Proof.
  unfold sweep_save. unfold_monad. intros Hrun.
  apply bind_done in Hrun as ([] & s1 & t1 & t2 & Hload & Hrun & ->).
  injection Hload as <- <-.
  apply bind_done in Hrun as (alts & s2 & t3 & t4 & Hfly & Hrun & ->).
  apply fly_all_mean_altitudes in Hfly as (Hfiles & -> & Hlen).
  apply bind_done in Hrun as ([] & s3 & t5 & t6 & Hwrite & Hprint & ->).
  injection Hprint as <- <-.
  unfold bind, open_w at 1 in Hwrite. cbn in Hwrite.
  rewrite (write_lines _ _ _ []) in Hwrite by apply lookup_insert_eq.
  injection Hwrite as <- <-. cbn.
  rewrite !mean_altitudes_app. cbn. rewrite app_nil_r, insert_insert_eq, Hfiles.
  split; [reflexivity|exact Hlen].
Qed.

(** The altitudes a turn read are those its six flights returned, one
    flight per pitch rate. *)
Lemma sweep_save_flights (fuel i : nat) (save : string) (s s' : State World)
    (t : list event) :
  sweep_save g fuel i save s = (Done tt, s', t) ->
  exists s_end,
    flights fuel save pitch_rates (final_state (load save) s) (mean_altitudes t) s_end.
Proof.
  unfold sweep_save. unfold_monad. intros Hrun.
  apply bind_done in Hrun as ([] & s1 & t1 & t2 & Hload & Hrun & ->).
  injection Hload as <- <-.
  apply bind_done in Hrun as (alts & s2 & t3 & t4 & Hfly & Hrun & ->).
  pose proof (fly_all_mean_altitudes _ _ _ _ _ _ _ _ Hfly) as (_ & Halts & _).
  apply fly_all_flights in Hfly as (alts' & Halts' & Hflights).
  apply bind_done in Hrun as ([] & s3 & t5 & t6 & Hwrite & Hprint & ->).
  injection Hprint as <- <-.
  unfold bind, open_w at 1 in Hwrite. cbn in Hwrite.
  rewrite (write_lines _ _ _ []) in Hwrite by apply lookup_insert_eq.
  injection Hwrite as <- <-. cbn.
  rewrite !mean_altitudes_app. cbn. rewrite app_nil_r.
  cbn in Halts, Halts'. subst alts. subst alts'.
  now exists s2.
Qed.

(** The four turns write four different files. *)
Example output_names :
  [output_name 0 "pad_125"; output_name 1 "pad_125";
   output_name 2 "pad_000"; output_name 3 "pad_000"]
  = ["pad_125_0.txt"; "pad_125_1.txt"; "pad_000_0.txt"; "pad_000_1.txt"].
Proof. reflexivity. Qed.

(** The whole sweep: twenty-four flights, six mean altitudes to each of the
    four files, in the order flown. *)
Lemma sweep_files (fuel : nat) (s s' : State World) (t : list event) :
  sweep g fuel s = (Done tt, s', t) ->
  exists l0 l1 l2 l3,
    mean_altitudes t = l0 ++ l1 ++ l2 ++ l3
    /\ (length l0 = 6 /\ length l1 = 6 /\ length l2 = 6 /\ length l3 = 6)%nat
    /\ files s'
       = <["pad_000_1.txt" := concat (List.map altitude_line l3)]>
           (<["pad_000_0.txt" := concat (List.map altitude_line l2)]>
              (<["pad_125_1.txt" := concat (List.map altitude_line l1)]>
                 (<["pad_125_0.txt" := concat (List.map altitude_line l0)]>
                    (files s)))).
Proof.
  unfold sweep, saves. cbn [sweep_from]. unfold_monad. intros Hrun.
  apply bind_done in Hrun as ([] & s0 & t0 & r0 & H0 & Hrun & ->).
  apply bind_done in Hrun as ([] & s1 & t1 & r1 & H1 & Hrun & ->).
  apply bind_done in Hrun as ([] & s2 & t2 & r2 & H2 & Hrun & ->).
  apply bind_done in Hrun as ([] & s3 & t3 & r3 & H3 & Hrun & ->).
  injection Hrun as <- <-.
  apply sweep_save_files in H0 as [F0 L0], H1 as [F1 L1], H2 as [F2 L2],
    H3 as [F3 L3].
  exists (mean_altitudes t0), (mean_altitudes t1), (mean_altitudes t2),
    (mean_altitudes t3).
  rewrite !mean_altitudes_app. cbn [mean_altitudes]. rewrite app_nil_r.
  split; [reflexivity|]. split; [tauto|].
  rewrite F3, F2, F1, F0. reflexivity.
Qed.
End Sweep.
End Sweep.

Module Logged.
Section Logged.
Context {World : Type} {sim : Simulation World}.
Variable g : float.
Local Open Scope float_scope.

(** C5, amended: find_ascent_altitude returns the vessel's mean altitude
    (vessel.flight().mean_altitude), read when the pitch-over loop has
    ended, and never reads the apoapsis altitude; a turn of the sweep calls
    find_ascent_altitude once for each pitch rate, in order and each time
    after loading the save, and the values written to the output file of
    the turn are what these calls returned, one per pitch rate in that
    order. *)
Theorem sweep_logs_mean_altitudes
    (fuel i : nat) (pitch_rate : float) (save : string)
    (s s1 s2 : State World) (asc_alt : float) (t1 t2 : list event) :
  (find_ascent_altitude g fuel pitch_rate s = (Done asc_alt, s1, t1) ->
   exists t0 w,
     t1 = t0 ++ [ERead (MeanAltitude SurfaceFrame) asc_alt]
     /\ asc_alt = mean_altitude (flight (vessel_of w) SurfaceFrame)
     /\ world s1 = react (ERead (MeanAltitude SurfaceFrame) asc_alt) w
     /\ forallb no_altitude t0 = true)
  /\ (sweep_save g fuel i save s = (Done tt, s2, t2) ->
      exists ascent_altitudes s_end,
        Sweep.flights g fuel save pitch_rates (final_state (load save) s)
          ascent_altitudes s_end
        /\ files s2 !! output_name i save
           = Some (concat (List.map altitude_line ascent_altitudes))
        /\ ascent_altitudes = mean_altitudes t2).
Proof.
  split.
  - intros Hrun.
    apply Sweep.find_ascent_altitude_returns_mean_altitude in Hrun
      as (_ & t0 & w & -> & Ha & Hw & Hquiet).
    now exists t0, w.
  - intros Hrun.
    destruct (Sweep.sweep_save_flights _ _ _ _ _ _ _ Hrun) as [s_end Hflights].
    apply Sweep.sweep_save_files in Hrun as [-> Hlen].
    exists (mean_altitudes t2), s_end.
    split; [exact Hflights|]. split; [apply lookup_insert_eq|reflexivity].
Qed.

(** C6, amended: a turn of the sweep opens its output file for writing, not
    for appending: whatever the file held is discarded, the file ends up
    holding the six altitudes of the turn, each formatted as a float and
    followed by a newline, and no other file changes. *)
Theorem sweep_save_overwrites
    (fuel i : nat) (save : string) (s s' : State World) (t : list event) :
  sweep_save g fuel i save s = (Done tt, s', t) ->
  exists ascent_altitudes,
    length ascent_altitudes = 6%nat
    /\ files s' !! output_name i save
       = Some (concat (List.map altitude_line ascent_altitudes))
    /\ forall other,
         other <> output_name i save -> files s' !! other = files s !! other.
Proof.
  intros Hrun. apply Sweep.sweep_save_files in Hrun as [-> Hlen].
  exists (mean_altitudes t). split; [exact Hlen|]. split.
  - apply lookup_insert_eq.
  - intros other Hother. now apply lookup_insert_ne.
Qed.
End Logged.

Local Open Scope float_scope.

(** C5, as the specification states it, fails: on a vessel 14 km up whose
    apoapsis is at 31 km, find_ascent_altitude returns 14000.0, and a turn
    of the sweep writes 14000.0 six times. *)
Lemma find_ascent_altitude_is_not_the_apoapsis :
  outcome_of (find_ascent_altitude 9.81 10 0.7) (Replay.coasting_with ∅)
  = Done 14000
  /\ apoapsis_altitude
       (orbit (vessel_of
                 (world (final_state (find_ascent_altitude 9.81 10 0.7)
                           (Replay.coasting_with ∅)))))
     = 31000
  /\ files (final_state (sweep_save 9.81 10 0 "pad_125") (Replay.coasting_with ∅))
       !! "pad_125_0.txt"
     = Some (concat (List.map altitude_line (Replay.six 14000))).
Proof.
  split; [reflexivity|]. split; [reflexivity|].
  vm_compute. reflexivity.
Qed.

Lemma sweep_logs_mean_altitudes_witness :
  (exists t0 w,
      trace_of (find_ascent_altitude 9.81 10 0.7) (Replay.coasting_with ∅)
      = t0 ++ [ERead (MeanAltitude SurfaceFrame) 14000]
      /\ 14000 = mean_altitude (flight (vessel_of w) SurfaceFrame)
      /\ world (final_state (find_ascent_altitude 9.81 10 0.7)
                  (Replay.coasting_with ∅))
         = react (ERead (MeanAltitude SurfaceFrame) 14000) w
      /\ forallb no_altitude t0 = true)
  /\ (exists ascent_altitudes s_end,
         Sweep.flights 9.81 10 "pad_125" pitch_rates
           (final_state (load "pad_125") (Replay.coasting_with ∅))
           ascent_altitudes s_end
         /\ files (final_state (sweep_save 9.81 10 0 "pad_125")
                     (Replay.coasting_with ∅))
              !! output_name 0 "pad_125"
            = Some (concat (List.map altitude_line ascent_altitudes))
         /\ ascent_altitudes
            = mean_altitudes (trace_of (sweep_save 9.81 10 0 "pad_125")
                                (Replay.coasting_with ∅))).
Proof.
  pose proof
    (sweep_logs_mean_altitudes 9.81 10 0 0.7 "pad_125" (Replay.coasting_with ∅)
       (final_state (find_ascent_altitude 9.81 10 0.7) (Replay.coasting_with ∅))
       (final_state (sweep_save 9.81 10 0 "pad_125") (Replay.coasting_with ∅))
       14000
       (trace_of (find_ascent_altitude 9.81 10 0.7) (Replay.coasting_with ∅))
       (trace_of (sweep_save 9.81 10 0 "pad_125") (Replay.coasting_with ∅)))
    as [Hfly Hsweep].
  split.
  - apply Hfly. now apply finished.
  - apply Hsweep. now apply finished.
Defined.

(** C6, as the specification states it, fails: what the output file held
    before a turn of the sweep is gone afterwards. *)
Lemma sweep_save_discards_old_contents :
  files (final_state (sweep_save 9.81 10 0 "pad_125")
           (Replay.coasting_with {[ "pad_125_0.txt" := [Str "old"] ]}))
    !! "pad_125_0.txt"
  = Some (concat (List.map altitude_line (Replay.six 14000)))
  /\ ~ (exists appended,
          files (final_state (sweep_save 9.81 10 0 "pad_125")
                   (Replay.coasting_with {[ "pad_125_0.txt" := [Str "old"] ]}))
            !! "pad_125_0.txt"
          = Some ([Str "old"] ++ appended)).
Proof.
  assert (H : files (final_state (sweep_save 9.81 10 0 "pad_125")
                       (Replay.coasting_with {[ "pad_125_0.txt" := [Str "old"] ]}))
                !! "pad_125_0.txt"
              = Some (concat (List.map altitude_line (Replay.six 14000))))
    by (vm_compute; reflexivity).
  split; [exact H|]. intros [appended Happ]. rewrite H in Happ. discriminate Happ.
Qed.

Lemma sweep_save_overwrites_witness :
  exists ascent_altitudes,
    length ascent_altitudes = 6%nat
    /\ files (final_state (sweep_save 9.81 10 0 "pad_125")
                (Replay.coasting_with {[ "pad_125_0.txt" := [Str "old"] ]}))
         !! output_name 0 "pad_125"
       = Some (concat (List.map altitude_line ascent_altitudes))
    /\ forall other,
         other <> output_name 0 "pad_125" ->
         files (final_state (sweep_save 9.81 10 0 "pad_125")
                  (Replay.coasting_with {[ "pad_125_0.txt" := [Str "old"] ]}))
           !! other
         = ({[ "pad_125_0.txt" := [Str "old"] ]} : gmap string text) !! other.
Proof.
  refine (sweep_save_overwrites 9.81 10 0 "pad_125"
            (Replay.coasting_with {[ "pad_125_0.txt" := [Str "old"] ]})
            (final_state (sweep_save 9.81 10 0 "pad_125")
               (Replay.coasting_with {[ "pad_125_0.txt" := [Str "old"] ]}))
            (trace_of (sweep_save 9.81 10 0 "pad_125")
               (Replay.coasting_with {[ "pad_125_0.txt" := [Str "old"] ]}))
            _).
  now apply finished.
Defined.

End Logged.

(** * Further properties of the code *)

(** ** The throttle law: its ceiling *)

Module Clamp.
Import FloatFacts Rounding FloatOrder.
Local Open Scope float_scope.

Lemma div_exp_self (my : positive) (ey : Z) : div_exp my ey my ey = (-53)%Z.
Proof.
  unfold div_exp.
  replace (Zdigits2 (Z.pos my) + ey - (Zdigits2 (Z.pos my) + ey))%Z with 0%Z by lia.
  replace (ey - ey)%Z with 0%Z by lia. reflexivity.
Qed.

Lemma div_num_self (my : positive) (ey : Z) :
  div_num my ey my ey = (Z.pos my * 2 ^ 53)%Z.
Proof. unfold div_num. rewrite div_exp_self. f_equal. f_equal. lia. Qed.

Lemma jam_self (my : positive) :
  jam (2 * (Z.pos my * 2 ^ 53)) (Z.pos my * 2) = (2 ^ 54)%Z.
Proof.
  unfold jam.
  replace (2 * (Z.pos my * 2 ^ 53))%Z with (2 ^ 53 * (Z.pos my * 2))%Z by lia.
  rewrite Z.div_mul, Z.mod_mul by lia. reflexivity.
Qed.

(** A positive finite number divided by itself is one. *)
Lemma F_div_self (my : positive) (ey : Z) :
  valid_binary (S754_finite false my ey) = true ->
  ord (F_div my ey my ey) = (2 ^ 1074)%Z.
Proof.
  intros Hv. rewrite F_div_eq.
  rewrite (binary_round_aux_ord _ _ _ _ _ (div_located my ey my ey)
             (div_shift _ _ _ _ Hv)).
  assert (Hq : (div_num my ey my ey / Z.pos my)%Z = (2 ^ 53)%Z).
  { rewrite div_num_self, Z.mul_comm. apply Z.div_mul. lia. }
  unfold rounded. rewrite Hq, div_exp_self, div_num_self.
  assert (Ht : target_exp (2 ^ 53) (-53) = (-52)%Z) by reflexivity.
  rewrite Ht.
  replace (2 ^ (-52 - -53))%Z with 2%Z by reflexivity.
  rewrite jam_self.
  assert (Hr : rne4 (2 ^ 54) = (2 ^ 52)%Z) by reflexivity.
  rewrite Hr.
  replace (-52 + 1074)%Z with 1022%Z by reflexivity.
  rewrite <- pow2_split by lia.
  replace (52 + 1022)%Z with 1074%Z by reflexivity.
  pose proof one_below_BIG.
  apply Z.min_l.
  apply Z.lt_le_incl. assumption.
Qed.

(** The only number whose value is one is [1.0]. *)
Lemma ord_one_inj (x : float) :
  sf_nan (Prim2SF x) = false -> ord (Prim2SF x) = (2 ^ 1074)%Z -> x = 1.
Proof.
  intros Hn Hord.
  assert (Hc : SFcompare (Prim2SF x) (Prim2SF 1) = Some Eq).
  { rewrite (SFcompare_ord _ _ (Prim2SF_valid x) (Prim2SF_valid 1) Hn eq_refl).
    rewrite ord_one, Hord. now rewrite Z.compare_refl. }
  clear Hord. apply Prim2SF_inj. rewrite Prim2SF_one in *.
  destruct (Prim2SF x) as [s|s| |s m e]; try discriminate Hn.
  - discriminate Hc.
  - destruct s; discriminate Hc.
  - destruct s; [discriminate Hc|]. cbn [SFcompare] in Hc.
    destruct (Z.compare_spec e (-52)) as [->| |]; try discriminate Hc.
    destruct (Pos.compare_cont Eq m 4503599627370496) eqn:Hm; try discriminate Hc.
    apply Pos.compare_eq in Hm. now subst m.
Qed.

Lemma min2_1_at_most_one (x : float) : (PyFloat.min2 1 x <=? 1) = true.
Proof.
  unfold PyFloat.min2. destruct (x <? 1) eqn:Hlt; [now apply ltb_leb|reflexivity].
Qed.

(** A quotient by a positive finite number no greater than the dividend is
    not below one. *)
Lemma quotient_at_least_one (p y : float) :
  (0 <? y) = true -> (y <? infinity) = true -> (y <=? p) = true ->
  (p / y <? 1) = false.
Proof.
  intros Hy0 Hyinf Hle.
  destruct (positive_finite y Hy0 Hyinf) as (my & ey & Hy).
  apply leb_ord in Hle as (Hny & Hnp & Hord).
  pose proof (div_by_finite_mono y p y my ey Hy Hny Hnp Hord) as Hq.
  apply leb_ord in Hq as (_ & _ & Hq).
  rewrite (div_by_finite y y my ey Hy), Hy in Hq. cbn [lifted] in Hq.
  pose proof (Prim2SF_valid y) as Hv. rewrite Hy in Hv.
  rewrite (F_div_self my ey Hv) in Hq.
  destruct (p / y <? 1) eqn:Hlt; [|reflexivity].
  apply ltb_ord in Hlt as (_ & _ & Hlt). rewrite ord_one in Hlt.
  now apply Z.lt_nge in Hlt.
Qed.

(** A quotient by a positive finite number no smaller than the dividend is
    at most one, so that [min(1.0, .)] leaves it as it is. *)
Lemma quotient_at_most_one (p y : float) :
  (0 <? y) = true -> (y <? infinity) = true -> (p <=? y) = true ->
  PyFloat.min2 1 (p / y) = p / y.
Proof.
  intros Hy0 Hyinf Hle.
  destruct (positive_finite y Hy0 Hyinf) as (my & ey & Hy).
  apply leb_ord in Hle as (Hnp & Hny & Hord).
  pose proof (div_by_finite_mono p y y my ey Hy Hnp Hny Hord) as Hq.
  apply leb_ord in Hq as (Hnq & _ & Hq).
  rewrite (div_by_finite y y my ey Hy) in Hq. rewrite Hy in Hq.
  cbn [lifted] in Hq.
  pose proof (Prim2SF_valid y) as Hv. rewrite Hy in Hv.
  rewrite (F_div_self my ey Hv) in Hq.
  unfold PyFloat.min2. destruct (p / y <? 1) eqn:Hlt; [reflexivity|].
  symmetry. apply ord_one_inj; [assumption|].
  apply Z.le_antisymm; [assumption|].
  destruct (Z.lt_ge_cases (ord (Prim2SF (p / y))) (2 ^ 1074)) as [Hc|Hc];
    [|assumption].
  exfalso. enough ((p / y <? 1) = true) by congruence.
  apply ltb_ord. rewrite ord_one. repeat split; assumption.
Qed.

(** The function on records never returns more than 1.0. *)
Lemma calc_throttle_for_twr_le_1 (g target_twr x : float) (v : Vessel) :
  calc_throttle_for_twr g target_twr v = Ok x -> (x <=? 1) = true.
Proof.
  unfold calc_throttle_for_twr, PyFloat.truediv.
  destruct (available_thrust v =? 0); cbn; intros H.
  - apply (f_equal (fun r => match r with Ok y => (y <=? 1) | Raise _ => true end)) in H.
    cbn in H. now rewrite <- H.
  - apply (f_equal (fun r => match r with Ok y => (y <=? 1) | Raise _ => true end)) in H.
    cbn in H. now rewrite <- H, min2_1_at_most_one.
Qed.

Section Call.
Context {World : Type} {sim : Simulation World}.

(** X1: a call of calc_throttle_for_twr on the remote vessel reads the mass
    and then the available thrust twice, once for the test against 0.0 and
    once for the division.  Whatever the numbers are, the call never
    returns more than 1.0 (so never a NaN); it raises nothing but
    ZeroDivisionError, and that exactly when the available thrust is not
    zero when tested and zero when divided by; when the two readings of the
    thrust are the same, it raises nothing and returns what the function
    returns for the mass and the thrust read. *)
Theorem calc_throttle_for_twr_call_outcomes
    (g target_twr : float) (s : State World) :
  (forall x,
      outcome_of (calc_throttle_for_twr_call g target_twr) s = Done x ->
      (x <=? 1.0) = true)
  /\ (forall e,
         outcome_of (calc_throttle_for_twr_call g target_twr) s = Raised e
         <-> e = ZeroDivisionError
             /\ (thrust_tested (world s) =? 0) = false
             /\ (thrust_divided_by (world s) =? 0) = true)
  /\ (thrust_divided_by (world s) = thrust_tested (world s) ->
      exists x,
        calc_throttle_for_twr g target_twr (as_read (world s)) = Ok x
        /\ outcome_of (calc_throttle_for_twr_call g target_twr) s = Done x).
Proof.
  split; [|split].
  - intros x Hx. apply calc_throttle_for_twr_call_done in Hx as [->|Hx];
      [reflexivity|]. exact (calc_throttle_for_twr_le_1 _ _ _ _ Hx).
  - intros e. split; [apply calc_throttle_for_twr_call_raised|].
    intros (-> & Htested & Hdiv).
    destruct (calc_throttle_for_twr_call_run g target_twr s) as [-> _].
    now rewrite Htested, Hdiv.
  - intros Hsame.
    destruct (calc_throttle_for_twr_call_run g target_twr s) as [-> _].
    unfold calc_throttle_for_twr, PyFloat.truediv.
    cbn [as_read mass available_thrust]. rewrite <- Hsame.
    destruct (thrust_divided_by (world s) =? 0); cbn [rbind]; eauto.
Qed.
End Call.

Lemma calc_throttle_for_twr_call_outcomes_witness :
  outcome_of (calc_throttle_for_twr_call 9.81 1.3) Flameout.state
  = Raised ZeroDivisionError
  /\ (exists x,
         calc_throttle_for_twr 9.81 1.3 (as_read (world Parked.state)) = Ok x
         /\ outcome_of (calc_throttle_for_twr_call 9.81 1.3) Parked.state = Done x).
Proof.
  split.
  - apply (proj1 (proj2 (calc_throttle_for_twr_call_outcomes 9.81 1.3
                           Flameout.state))).
    now repeat split.
  - now apply (proj2 (proj2 (calc_throttle_for_twr_call_outcomes 9.81 1.3
                               Parked.state))).
Defined.

(** X2: when the available thrust is positive and finite and does not
    exceed target_twr * weight (the engines cannot give the wanted
    thrust-to-weight ratio), calc_throttle_for_twr returns exactly 1.0. *)
Theorem calc_throttle_for_twr_saturates (g target_twr : float) (vessel : Vessel) :
  (0 <? available_thrust vessel) = true ->
  (available_thrust vessel <? infinity) = true ->
  (available_thrust vessel <=? target_twr * (mass vessel * g)) = true ->
  calc_throttle_for_twr g target_twr vessel = Ok 1.0.
Proof.
  intros Hpos Hfin Hle.
  rewrite Throttle.calc_throttle_for_twr_nonzero by now apply ltb_0_eqb_0.
  unfold PyFloat.min2. now rewrite quotient_at_least_one.
Qed.

Lemma calc_throttle_for_twr_saturates_witness :
  calc_throttle_for_twr 9.81 1.5 (Replay.probe 1000 5000 0 90 0 0) = Ok 1.0.
Proof.
  exact (calc_throttle_for_twr_saturates 9.81 1.5
           (Replay.probe 1000 5000 0 90 0 0) eq_refl eq_refl eq_refl).
Defined.

(** X3: when the available thrust is positive and finite and is at least
    target_twr * weight, nothing is clamped: calc_throttle_for_twr returns
    the quotient target_twr * weight / available_thrust itself. *)
Theorem calc_throttle_for_twr_unclamped (g target_twr : float) (vessel : Vessel) :
  (0 <? available_thrust vessel) = true ->
  (available_thrust vessel <? infinity) = true ->
  (target_twr * (mass vessel * g) <=? available_thrust vessel) = true ->
  calc_throttle_for_twr g target_twr vessel
  = Ok (target_twr * (mass vessel * g) / available_thrust vessel).
Proof.
  intros Hpos Hfin Hle.
  rewrite Throttle.calc_throttle_for_twr_nonzero by now apply ltb_0_eqb_0.
  now rewrite quotient_at_most_one.
Qed.

Lemma calc_throttle_for_twr_unclamped_witness :
  calc_throttle_for_twr 9.81 1.3 (Replay.probe 1000 20000 0 90 0 0)
  = Ok (1.3 * (1000 * 9.81) / 20000).
Proof.
  exact (calc_throttle_for_twr_unclamped 9.81 1.3
           (Replay.probe 1000 20000 0 90 0 0) eq_refl eq_refl eq_refl).
Defined.
End Clamp.

(** ** What the programs send

    An invariant of the trace alone: every event is of a given kind, files
    or no files. *)

Section Events.
Context {World : Type} {sim : Simulation World}.

Definition emits (P : event -> bool) (s s' : State World) (t : list event) : Prop :=
  forallb P t = true.

Lemma emits_refl (P : event -> bool) (s : State World) : emits P s s [].
Proof. reflexivity. Qed.

Lemma emits_trans (P : event -> bool) (s1 s2 s3 : State World) (t1 t2 : list event) :
  emits P s1 s2 t1 -> emits P s2 s3 t2 -> emits P s1 s3 (t1 ++ t2).
Proof. unfold emits. intros H1 H2. now rewrite forallb_app, H1, H2. Qed.

Definition only (P : event -> bool) {A} (m : M World A) : Prop :=
  respects (emits P) m.

Lemma only_bind (P : event -> bool) {A B} (m : M World A) (k : A -> M World B) :
  only P m -> (forall a, only P (k a)) -> only P (bind m k).
Proof. apply respects_bind, emits_trans. Qed.

Lemma only_while (P : event -> bool) (fuel : nat)
    (cond : M World bool) (body : M World unit) :
  only P cond -> only P body -> only P (while fuel cond body).
Proof. apply respects_while; [apply emits_refl|apply emits_trans]. Qed.

Lemma only_for_each (P : event -> bool) {A} (xs : list A) (body : A -> M World unit) :
  (forall x, only P (body x)) -> only P (for_each xs body).
Proof. apply respects_for_each; [apply emits_refl|apply emits_trans]. Qed.

Lemma only_silent (P : event -> bool) {A} (m : M World A) :
  (forall s, trace_of m s = []) -> only P m.
Proof. intros H s. unfold emits. now rewrite H. Qed.

Lemma only_one (P : event -> bool) {A} (m : M World A) :
  (forall s, exists e, trace_of m s = [e] /\ P e = true) -> only P m.
Proof.
  intros H s. destruct (H s) as (e & He & HP). unfold emits.
  rewrite He. cbn. now rewrite HP.
Qed.

Lemma only_emit (P : event -> bool) (e : event) : P e = true -> only P (emit e).
Proof. intros He. apply only_one. intros s. now exists e. Qed.

Lemma only_read (P : event -> bool) (q : quantity) :
  (forall v, P (ERead q v) = true) -> only P (read q).
Proof. intros He. apply only_one. intros s. eexists. split; [reflexivity|apply He]. Qed.

Lemma only_time (P : event -> bool) :
  (forall t, P (ETime t) = true) -> only P time.
Proof. intros He. apply only_one. intros s. eexists. split; [reflexivity|apply He]. Qed.

(** The throttle set is zero or what the function returns for the mass and
    the thrust read; a call that raises sets none. *)
Lemma only_throttle_for_twr (P : event -> bool) (g target_twr : float) :
  P (EThrottle 0) = true ->
  (forall w x, calc_throttle_for_twr g target_twr (as_read w) = Ok x ->
               P (EThrottle x) = true) ->
  only P (throttle_for_twr g target_twr).
Proof.
  intros H0 HP s. unfold emits.
  destruct (throttle_for_twr_run g target_twr s)
    as [(x & Hx & Hrun)|(_ & _ & ->)]; [|reflexivity].
  unfold trace_of. rewrite Hrun. cbn.
  apply calc_throttle_for_twr_call_done in Hx as [->|Hx].
  - now rewrite H0.
  - now rewrite (HP _ _ Hx).
Qed.

(** A kind of event that takes in what the throttle law returns, a
    throttle of zero and everything that is not a throttle setting is the
    only kind the programs send. *)
Section Programs.
Variable g : float.
Variable float_pow : float -> float -> result float.
Variable P : event -> bool.
Hypothesis P_throttle :
  forall target_twr w x,
    (0 <=? target_twr)%float = true ->
    calc_throttle_for_twr g target_twr (as_read w) = Ok x -> P (EThrottle x) = true.
Hypothesis P_zero : P (EThrottle 0) = true.
Hypothesis P_other :
  forall e, match e with EThrottle _ | EPrint _ => True | _ => P e = true end.
Hypothesis P_print : forall line, P (EPrint line) = true.

Ltac only_step :=
  first
    [ apply only_throttle_for_twr; [exact P_zero|intros w x; now apply P_throttle]
    | apply only_while
    | apply only_bind; [|intros ?]
    | match goal with
      | |- only _ (emit ?e) =>
          apply only_emit; first [exact P_zero | exact (P_other e)]
      end
    | apply only_read; intros v; exact (P_other (ERead _ v))
    | apply only_time; intros t; exact (P_other (ETime t))
    | apply only_silent; intros s; reflexivity ].

Lemma only_ignition_to_meco (fuel : nat) : only P (ignition_to_meco g float_pow fuel).
Proof.
  unfold ignition_to_meco, climb_loop, first_pitch_over_loop, hold_45_loop,
    sleep, target_pitch_and_heading, engage, activate_next_stage, set_throttle.
  unfold_monad. repeat only_step.
Qed.

Lemma only_meco_to_seco1 (fuel : nat) : only P (meco_to_seco1 g fuel).
Proof.
  unfold meco_to_seco1, second_pitch_over_loop, burn_loop,
    sleep, target_pitch_and_heading, engage, activate_next_stage, set_throttle.
  unfold_monad. repeat only_step.
Qed.

Lemma only_find_ascent_altitude (fuel : nat) (pitch_rate : float) :
  only P (find_ascent_altitude g fuel pitch_rate).
Proof.
  unfold find_ascent_altitude, climb_loop, first_pitch_over_loop,
    sleep, target_pitch_and_heading, engage, activate_next_stage, set_throttle.
  unfold_monad. repeat only_step.
Qed.

Lemma only_fly_all (fuel : nat) (save : string) (rates : list float) :
  forall acc, only P (fly_all g fuel save rates acc).
Proof.
  induction rates as [|rate rates IH]; intros acc; cbn [fly_all].
  - apply only_silent. reflexivity.
  - unfold_monad. unfold load. apply only_bind; [apply only_emit, (P_other (ELoad _))|].
    intros _. apply only_bind; [apply only_find_ascent_altitude|].
    intros a. apply IH.
Qed.

Lemma only_sweep_save (fuel i : nat) (save : string) :
  only P (sweep_save g fuel i save).
Proof.
  unfold sweep_save, load, print. unfold_monad.
  apply only_bind; [apply only_emit, (P_other (ELoad _))|]. intros _.
  apply only_bind; [apply only_fly_all|]. intros alts.
  apply only_bind; [|intros _; apply only_emit, P_print].
  apply only_bind; [apply only_silent; reflexivity|]. intros _.
  apply only_for_each. intros asc. apply only_silent. reflexivity.
Qed.

Lemma only_sweep (fuel : nat) : only P (sweep g fuel).
Proof.
  unfold sweep. generalize 0%nat. induction (saves) as [|save rest IH]; intros i.
  - apply only_silent. reflexivity.
  - cbn [sweep_from]. unfold_monad.
    apply only_bind; [apply only_sweep_save|]. intros _. apply IH.
Qed.
End Programs.
End Events.

(** ** The throttle commands of the ascent and of the sweep *)

Module Commands.
Import FloatFacts.
Local Open Scope float_scope.

Lemma calc_throttle_for_twr_in_unit (g target_twr x : float) (v : Vessel) :
  (0 <=? target_twr) = true -> (0 <=? g) = true ->
  (0 <=? mass v) = true -> (0 <=? available_thrust v) = true ->
  calc_throttle_for_twr g target_twr v = Ok x ->
  (0 <=? x) && (x <=? 1) = true.
Proof.
  intros Htwr Hg Hmass Hthrust H.
  destruct (available_thrust v =? 0) eqn:Hz.
  - unfold calc_throttle_for_twr in H. rewrite Hz in H.
    apply (f_equal (fun r => match r with
                             | Ok y => (0 <=? y) && (y <=? 1)
                             | Raise _ => true
                             end)) in H.
    cbn in H. now rewrite <- H.
  - rewrite Throttle.calc_throttle_for_twr_nonzero in H by assumption.
    apply (f_equal (fun r => match r with
                             | Ok y => (0 <=? y) && (y <=? 1)
                             | Raise _ => true
                             end)) in H.
    cbn beta iota in H. rewrite <- H.
    destruct (Throttle.min2_1_range (target_twr * (mass v * g) / available_thrust v))
      as [H0 H1].
    + apply div_nonneg.
      * apply mul_nonneg; [now apply leb_0_nonneg|].
        apply mul_nonneg; now apply leb_0_nonneg.
      * now apply leb_0_neq_0_pos.
    + now rewrite H0, H1.
Qed.

Section Bounds.
Context {World : Type} {sim : Simulation World}.
Variable g : float.
Variable float_pow : float -> float -> result float.

(** X4: every throttle setting that the two ascent cells and the sweep
    send is at most 1.0, and so never a NaN, whatever the game reports and
    however the run ends. *)
Theorem throttle_commands_at_most_one (fuel : nat) (s : State World) :
  forallb throttle_at_most_one (trace_of (ignition_to_meco g float_pow fuel) s) = true
  /\ forallb throttle_at_most_one (trace_of (meco_to_seco1 g fuel) s) = true
  /\ forallb throttle_at_most_one (trace_of (sweep g fuel) s) = true.
Proof.
  assert (Hlaw : forall target_twr w x,
             (0 <=? target_twr) = true ->
             calc_throttle_for_twr g target_twr (as_read w) = Ok x ->
             throttle_at_most_one (EThrottle x) = true).
  { intros twr w x _ Hx. exact (Clamp.calc_throttle_for_twr_le_1 _ _ _ _ Hx). }
  assert (Hother : forall e, match e with
                             | EThrottle _ | EPrint _ => True
                             | _ => throttle_at_most_one e = true
                             end) by now intros [].
  repeat split.
  - now apply (only_ignition_to_meco g float_pow _ Hlaw).
  - now apply (only_meco_to_seco1 g _ Hlaw).
  - now apply (only_sweep g _ Hlaw).
Qed.

(** X5: when the gravity is not negative and the game never reports a
    negative mass or a negative available thrust, every throttle setting
    that the two ascent cells and the sweep send lies in [0.0, 1.0]. *)
Theorem throttle_commands_in_range (fuel : nat) (s : State World) :
  (0 <=? g) = true ->
  (forall w, (0 <=? mass (vessel_of w)) = true
             /\ (0 <=? available_thrust (vessel_of w)) = true) ->
  forallb throttle_in_range (trace_of (ignition_to_meco g float_pow fuel) s) = true
  /\ forallb throttle_in_range (trace_of (meco_to_seco1 g fuel) s) = true
  /\ forallb throttle_in_range (trace_of (sweep g fuel) s) = true.
Proof.
  intros Hg Hgame.
  assert (Hlaw : forall target_twr w x,
             (0 <=? target_twr) = true ->
             calc_throttle_for_twr g target_twr (as_read w) = Ok x ->
             throttle_in_range (EThrottle x) = true).
  { intros twr w x Htwr Hx.
    refine (calc_throttle_for_twr_in_unit _ _ _ _ Htwr Hg _ _ Hx).
    - exact (proj1 (Hgame w)).
    - exact (proj2 (Hgame _)). }
  assert (Hother : forall e, match e with
                             | EThrottle _ | EPrint _ => True
                             | _ => throttle_in_range e = true
                             end) by now intros [].
  repeat split.
  - now apply (only_ignition_to_meco g float_pow _ Hlaw).
  - now apply (only_meco_to_seco1 g _ Hlaw).
  - now apply (only_sweep g _ Hlaw).
Qed.
End Bounds.

Lemma throttle_commands_in_range_witness :
  forallb throttle_in_range
    (trace_of (ignition_to_meco 9.81 float_pow_2 3) Parked.state) = true
  /\ forallb throttle_in_range (trace_of (meco_to_seco1 9.81 3) Parked.state) = true
  /\ forallb throttle_in_range (trace_of (sweep 9.81 3) Parked.state) = true.
Proof.
  apply (throttle_commands_in_range 9.81 float_pow_2 3 Parked.state eq_refl).
  intros []. split; reflexivity.
Defined.
End Commands.

(** ** How the polling loops end *)

Module LoopExit.
Import FloatFacts.
Local Open Scope float_scope.

(** Nothing is below, and nothing is above, what is not a number. *)
Lemma nan_ltb (v c : float) :
  is_nan v = true -> (v <? c) = false /\ (c <? v) = false.
Proof.
  unfold is_nan. rewrite !FloatAxioms.ltb_spec, FloatAxioms.eqb_spec.
  destruct (Prim2SF v) as [[]|[]| |[] m e]; cbn.
  all: try (intros _; split; [reflexivity|]; now destruct (Prim2SF c) as [[]|[]| |[] ? ?]).
  all: unfold SFeqb; cbn; rewrite ?Z.compare_refl, ?Pos.compare_cont_refl; cbn;
    discriminate.
Qed.

Section Loops.
Context {World : Type} {sim : Simulation World}.

(** The state a poll leaves behind. *)
Definition polled (q : quantity) (s : State World) : State World :=
  {| world := react (ERead q (observe q (vessel_of (world s)))) (world s);
     files := files s |}.

(** A polling loop that finishes has just polled a value that fails its
    test. *)
Lemma while_poll_done (q : quantity) (test : float -> bool) (body : M World unit)
    (fuel : nat) :
  forall s s' t,
    while fuel (poll q test) body s = (Done tt, s', t) ->
    exists t0 v, t = t0 ++ [ERead q v] /\ test v = false.
Proof.
  induction fuel as [|fuel IH]; intros s s' t Hrun; [discriminate Hrun|].
  cbn [while] in Hrun. unfold_monad.
  apply bind_done in Hrun as (c & s1 & t1 & t2 & Hpoll & Hrun & ->).
  unfold poll, bind, read, ret in Hpoll. cbn in Hpoll.
  injection Hpoll as <- <- <-.
  destruct (test _) eqn:Htest.
  - apply bind_done in Hrun as ([] & s2 & t3 & t4 & _ & Hrun & ->).
    apply IH in Hrun as (t0 & v & -> & Hv).
    exists (ERead q (observe q (vessel_of (world s))) :: t3 ++ t0), v.
    split; [|exact Hv]. cbn. now rewrite <- app_assoc.
  - injection Hrun as <- <-. now exists [], (observe q (vessel_of (world s))).
Qed.

(** A reading that fails the test ends the loop at its first poll. *)
Lemma while_poll_exit (q : quantity) (test : float -> bool) (body : M World unit)
    (fuel : nat) (s : State World) :
  test (observe q (vessel_of (world s))) = false ->
  while (S fuel) (poll q test) body s
  = (Done tt, polled q s, [ERead q (observe q (vessel_of (world s)))]).
Proof.
  intros Htest. cbn [while]. unfold_monad. unfold poll, bind, read, ret. cbn.
  rewrite Htest. reflexivity.
Qed.

Variable g : float.

(** X6: each of the five polling loops, when it ends, has just read a value
    that fails its test: a vertical speed not below 100.0, a pitch not above
    45.0 (0.0 in the second pitch-over), an apoapsis altitude not below
    30000 (100000.0 in the final burn); NaN readings included. *)
Theorem loops_end_on_failed_test
    (fuel : nat) (target_twr pitch_start pitch_rate : float)
    (s s' : State World) (t : list event) :
  (climb_loop g fuel target_twr s = (Done tt, s', t) ->
   exists t0 v, t = t0 ++ [ERead (VerticalSpeed BodyFrame) v] /\ (v <? 100) = false)
  /\ (first_pitch_over_loop g fuel target_twr pitch_start pitch_rate s = (Done tt, s', t) ->
      exists t0 p, t = t0 ++ [ERead (Pitch SurfaceFrame) p] /\ (45 <? p) = false)
  /\ (hold_45_loop g fuel target_twr s = (Done tt, s', t) ->
      exists t0 a, t = t0 ++ [ERead ApoapsisAltitude a] /\ (a <? 30000) = false)
  /\ (second_pitch_over_loop g fuel pitch_start pitch_rate s = (Done tt, s', t) ->
      exists t0 p, t = t0 ++ [ERead (Pitch SurfaceFrame) p] /\ (0 <? p) = false)
  /\ (burn_loop g fuel s = (Done tt, s', t) ->
      exists t0 a, t = t0 ++ [ERead ApoapsisAltitude a] /\ (a <? 100000) = false).
Proof.
  repeat split; intros Hrun.
  - exact (while_poll_done (VerticalSpeed BodyFrame) (fun v => v <? 100) _ _ _ _ _ Hrun).
  - exact (while_poll_done (Pitch SurfaceFrame) (fun p => 45 <? p) _ _ _ _ _ Hrun).
  - exact (while_poll_done ApoapsisAltitude (fun a => a <? 30000) _ _ _ _ _ Hrun).
  - exact (while_poll_done (Pitch SurfaceFrame) (fun p => 0 <? p) _ _ _ _ _ Hrun).
  - exact (while_poll_done ApoapsisAltitude (fun a => a <? 100000) _ _ _ _ _ Hrun).
Qed.

(** X7: a NaN reading ends a polling loop at its first poll: the loop
    returns having read the quantity once and sent no command, since no
    comparison with a NaN holds. *)
Theorem nan_reading_ends_loop
    (fuel : nat) (target_twr pitch_start pitch_rate : float) (s : State World) :
  (is_nan (observe (VerticalSpeed BodyFrame) (vessel_of (world s))) = true ->
   climb_loop g (S fuel) target_twr s
   = (Done tt, polled (VerticalSpeed BodyFrame) s,
      [ERead (VerticalSpeed BodyFrame)
         (observe (VerticalSpeed BodyFrame) (vessel_of (world s)))]))
  /\ (is_nan (observe (Pitch SurfaceFrame) (vessel_of (world s))) = true ->
      first_pitch_over_loop g (S fuel) target_twr pitch_start pitch_rate s
      = (Done tt, polled (Pitch SurfaceFrame) s,
         [ERead (Pitch SurfaceFrame)
            (observe (Pitch SurfaceFrame) (vessel_of (world s)))])
      /\ second_pitch_over_loop g (S fuel) pitch_start pitch_rate s
         = (Done tt, polled (Pitch SurfaceFrame) s,
            [ERead (Pitch SurfaceFrame)
               (observe (Pitch SurfaceFrame) (vessel_of (world s)))]))
  /\ (is_nan (observe ApoapsisAltitude (vessel_of (world s))) = true ->
      hold_45_loop g (S fuel) target_twr s
      = (Done tt, polled ApoapsisAltitude s,
         [ERead ApoapsisAltitude (observe ApoapsisAltitude (vessel_of (world s)))])
      /\ burn_loop g (S fuel) s
         = (Done tt, polled ApoapsisAltitude s,
            [ERead ApoapsisAltitude (observe ApoapsisAltitude (vessel_of (world s)))])).
Proof.
  split; [|split]; intros Hnan; [|split..].
  - apply (while_poll_exit (VerticalSpeed BodyFrame) (fun v => v <? 100)).
    exact (proj1 (nan_ltb _ _ Hnan)).
  - apply (while_poll_exit (Pitch SurfaceFrame) (fun p => 45 <? p)).
    exact (proj2 (nan_ltb _ _ Hnan)).
  - apply (while_poll_exit (Pitch SurfaceFrame) (fun p => 0 <? p)).
    exact (proj2 (nan_ltb _ _ Hnan)).
  - apply (while_poll_exit ApoapsisAltitude (fun a => a <? 30000)).
    exact (proj1 (nan_ltb _ _ Hnan)).
  - apply (while_poll_exit ApoapsisAltitude (fun a => a <? 100000)).
    exact (proj1 (nan_ltb _ _ Hnan)).
Qed.
End Loops.

Lemma loops_end_on_failed_test_witness :
  (exists t0 v,
      trace_of (climb_loop 9.81 5 1.3) Flights.lifting_off
      = t0 ++ [ERead (VerticalSpeed BodyFrame) v] /\ (v <? 100) = false)
  /\ (exists t0 p,
         trace_of (first_pitch_over_loop 9.81 5 1.5 0 0.58) (Replay.coasting_with ∅)
         = t0 ++ [ERead (Pitch SurfaceFrame) p] /\ (45 <? p) = false)
  /\ (exists t0 a,
         trace_of (hold_45_loop 9.81 5 1.5) (Replay.coasting_with ∅)
         = t0 ++ [ERead ApoapsisAltitude a] /\ (a <? 30000) = false)
  /\ (exists t0 p,
         trace_of (second_pitch_over_loop 9.81 5 0 1) Replay.burning
         = t0 ++ [ERead (Pitch SurfaceFrame) p] /\ (0 <? p) = false)
  /\ (exists t0 a,
         trace_of (burn_loop 9.81 5) Replay.burning
         = t0 ++ [ERead ApoapsisAltitude a] /\ (a <? 100000) = false).
Proof.
  split; [|split; [|split; [|split]]].
  - refine (proj1 (loops_end_on_failed_test 9.81 5 1.3 0 0 Flights.lifting_off
                     (final_state (climb_loop 9.81 5 1.3) Flights.lifting_off)
                     (trace_of (climb_loop 9.81 5 1.3) Flights.lifting_off)) _).
    now apply finished.
  - refine (proj1 (proj2 (loops_end_on_failed_test 9.81 5 1.5 0 0.58
                            (Replay.coasting_with ∅)
                            (final_state (first_pitch_over_loop 9.81 5 1.5 0 0.58)
                               (Replay.coasting_with ∅))
                            (trace_of (first_pitch_over_loop 9.81 5 1.5 0 0.58)
                               (Replay.coasting_with ∅)))) _).
    now apply finished.
  - refine (proj1 (proj2 (proj2 (loops_end_on_failed_test 9.81 5 1.5 0 0
                                   (Replay.coasting_with ∅)
                                   (final_state (hold_45_loop 9.81 5 1.5)
                                      (Replay.coasting_with ∅))
                                   (trace_of (hold_45_loop 9.81 5 1.5)
                                      (Replay.coasting_with ∅))))) _).
    now apply finished.
  - refine (proj1 (proj2 (proj2 (proj2
              (loops_end_on_failed_test 9.81 5 0 0 1 Replay.burning
                 (final_state (second_pitch_over_loop 9.81 5 0 1) Replay.burning)
                 (trace_of (second_pitch_over_loop 9.81 5 0 1) Replay.burning))))) _).
    now apply finished.
  - refine (proj2 (proj2 (proj2 (proj2
              (loops_end_on_failed_test 9.81 5 0 0 0 Replay.burning
                 (final_state (burn_loop 9.81 5) Replay.burning)
                 (trace_of (burn_loop 9.81 5) Replay.burning))))) _).
    now apply finished.
Defined.

Lemma nan_reading_ends_loop_witness :
  trace_of (climb_loop 9.81 1 1.3) Flights.blind
  = [ERead (VerticalSpeed BodyFrame) nan]
  /\ trace_of (second_pitch_over_loop 9.81 1 0 1) Flights.blind
     = [ERead (Pitch SurfaceFrame) nan]
  /\ outcome_of (burn_loop 9.81 1) Flights.blind = Done tt.
Proof.
  pose proof (nan_reading_ends_loop 9.81 0 1.3 0 1 Flights.blind)
    as (Hspeed & Hpitch & Hapo).
  split; [|split].
  - unfold trace_of. now rewrite (Hspeed eq_refl).
  - unfold trace_of. now rewrite (proj2 (Hpitch eq_refl)).
  - unfold outcome_of. now rewrite (proj2 (Hapo eq_refl)).
Defined.
End LoopExit.

(** ** How the two ascent cells end *)

Module Cutoff.
Local Open Scope float_scope.

Section Cutoff.
Context {World : Type} {sim : Simulation World}.

(** Every finished run of [m] ends with the events [suffix]. *)
Definition ends_with {A} (suffix : list event) (m : M World A) : Prop :=
  forall s a s' t, m s = (Done a, s', t) -> exists t0, t = t0 ++ suffix.

Lemma ends_with_bind {A B} (suffix : list event) (m : M World A) (k : A -> M World B) :
  (forall a, ends_with suffix (k a)) -> ends_with suffix (bind m k).
Proof.
  intros Hk s b s' t Hrun.
  apply bind_done in Hrun as (a & s1 & t1 & t2 & _ & Hrun & ->).
  apply Hk in Hrun as (t0 & ->). exists (t1 ++ t0). apply app_assoc.
Qed.

Lemma ends_with_emit (e : event) : ends_with [e] (emit e).
Proof. intros s a s' t [= <- <-]. now exists []. Qed.

Lemma ends_with_emit3 (e1 e2 e3 : event) :
  ends_with [e1; e2; e3] (bind (emit e1) (fun _ => bind (emit e2) (fun _ => emit e3))).
Proof. intros s a s' t [= <- <-]. now exists []. Qed.

Variable g : float.
Variable float_pow : float -> float -> result float.

(** X8: a run of the first ascent cell that finishes ends with the throttle
    set to 0.0, then the next stage activated, then a sleep of 0.1 s: the
    engine is cut before the stage separates.  A run of the second cell that
    finishes starts by activating the next stage and ends with the throttle
    set to 0.0. *)
Theorem ascent_ends_with_cutoff (fuel : nat) (s s' : State World) (t : list event) :
  (ignition_to_meco g float_pow fuel s = (Done tt, s', t) ->
   exists t0, t = t0 ++ [EThrottle 0; EActivateNextStage; ESleep 0.1])
  /\ (meco_to_seco1 g fuel s = (Done tt, s', t) ->
      exists t0, t = EActivateNextStage :: t0 ++ [EThrottle 0]).
Proof.
  split.
  - revert s s' t.
    enough (H : ends_with [EThrottle 0; EActivateNextStage; ESleep 0.1]
                  (ignition_to_meco g float_pow fuel))
      by (intros s s' t; apply H).
    unfold ignition_to_meco, set_throttle, activate_next_stage, sleep.
    unfold_monad.
    repeat first [apply ends_with_emit3 | apply ends_with_bind; intros ?].
  - unfold meco_to_seco1, activate_next_stage. unfold_monad. intros Hrun.
    apply bind_done in Hrun as ([] & s1 & t1 & t2 & Hstage & Hrun & ->).
    injection Hstage as <- <-.
    enough (H : forall pitch_start,
               ends_with [EThrottle 0]
                 (second_pitch_over_loop g fuel pitch_start 1;;
                  sleep 0.1;; burn_loop g fuel;; sleep 0.1;; set_throttle 0)).
    { apply bind_done in Hrun as (ps & s2 & t3 & t4 & Htime & Hrun & ->).
      apply H in Hrun as (t0 & ->). exists (t3 ++ t0).
      cbn. now rewrite app_assoc. }
    intros ps. unfold set_throttle. unfold_monad.
    repeat first [apply ends_with_emit | apply ends_with_bind; intros ?].
Qed.
End Cutoff.

Lemma ascent_ends_with_cutoff_witness :
  (exists t0,
      trace_of (ignition_to_meco 9.81 float_pow_2 10) Flights.lifting_off
      = t0 ++ [EThrottle 0; EActivateNextStage; ESleep 0.1])
  /\ (exists t0,
         trace_of (meco_to_seco1 9.81 10) Replay.burning
         = EActivateNextStage :: t0 ++ [EThrottle 0]).
Proof.
  split.
  - refine (proj1 (ascent_ends_with_cutoff 9.81 float_pow_2 10 Flights.lifting_off
                     (final_state (ignition_to_meco 9.81 float_pow_2 10)
                        Flights.lifting_off)
                     (trace_of (ignition_to_meco 9.81 float_pow_2 10)
                        Flights.lifting_off)) _).
    now apply finished.
  - refine (proj2 (ascent_ends_with_cutoff 9.81 float_pow_2 10 Replay.burning
                     (final_state (meco_to_seco1 9.81 10) Replay.burning)
                     (trace_of (meco_to_seco1 9.81 10) Replay.burning)) _).
    now apply finished.
Defined.
End Cutoff.

(** ** An ascent without a payload decoupler *)

Module NoPayload.
Local Open Scope float_scope.

Section NoPayload.
Context {World : Type} {sim : Simulation World}.

(** The exceptions a program can raise. *)
Definition raises_only (ok : exn -> Prop) {A} (m : M World A) : Prop :=
  forall s e, outcome_of m s = Raised e -> ok e.

Lemma raises_only_bind (ok : exn -> Prop) {A B} (m : M World A) (k : A -> M World B) :
  raises_only ok m -> (forall a, raises_only ok (k a)) -> raises_only ok (bind m k).
Proof.
  intros Hm Hk s e. specialize (Hm s). unfold outcome_of, bind in *.
  destruct (m s) as [[[a| |] s1] t1]; cbn in *.
  - specialize (Hk a s1 e). unfold outcome_of in Hk.
    now destruct (k a s1) as [[r s2] t2].
  - intros [= <-]. now apply Hm.
  - discriminate.
Qed.

Lemma raises_only_done (ok : exn -> Prop) {A} (m : M World A) :
  (forall s, exists a, outcome_of m s = Done a) -> raises_only ok m.
Proof. intros H s e He. destruct (H s) as [a Ha]. congruence. Qed.

Lemma raises_only_emit (ok : exn -> Prop) (e : event) : raises_only ok (emit e).
Proof. apply raises_only_done. intros s. now exists tt. Qed.

Lemma raises_only_while (ok : exn -> Prop) (fuel : nat)
    (cond : M World bool) (body : M World unit) :
  raises_only ok cond -> raises_only ok body -> raises_only ok (while fuel cond body).
Proof.
  intros Hc Hb. induction fuel as [|fuel IH]; cbn [while].
  - intros s e. discriminate.
  - unfold_monad. apply raises_only_bind; [assumption|].
    intros [|]; [|apply raises_only_done; intros s; now exists tt].
    apply raises_only_bind; [assumption|]. intros _. exact IH.
Qed.

Lemma raises_only_for_each (ok : exn -> Prop) {A} (xs : list A)
    (body : A -> M World unit) :
  (forall x, raises_only ok (body x)) -> raises_only ok (for_each xs body).
Proof.
  intros Hb. induction xs as [|x xs IH]; cbn [for_each].
  - apply raises_only_done. intros s. now exists tt.
  - unfold_monad. apply raises_only_bind; [apply Hb|]. intros _. exact IH.
Qed.

Lemma raises_only_vessel (ok : exn -> Prop) {A} (k : Vessel -> M World A) :
  (forall w, raises_only ok (k (vessel_of w))) -> raises_only ok (bind vessel k).
Proof.
  intros Hk s e. specialize (Hk (world s) s e).
  unfold outcome_of, bind, vessel in *. cbn.
  now destruct (k (vessel_of (world s)) s) as [[r s2] t2].
Qed.

Lemma raises_only_lift (ok : exn -> Prop) {A B} (r : result A) (k : A -> M World B) :
  (forall e, r = Raise e -> ok e) ->
  (forall a, r = Ok a -> raises_only ok (k a)) ->
  raises_only ok (bind (lift r) k).
Proof.
  intros He Ha s e. unfold outcome_of, bind, lift. destruct r as [a|e0]; cbn.
  - specialize (Ha a eq_refl s e). unfold outcome_of in Ha.
    now destruct (k a s) as [[r s2] t2].
  - intros [= <-]. now apply He.
Qed.

(** Setting the throttle for a thrust-to-weight ratio can raise
    [ZeroDivisionError] and nothing else. *)
Lemma raises_only_throttle_for_twr (ok : exn -> Prop) (g target_twr : float) :
  ok ZeroDivisionError -> raises_only ok (throttle_for_twr g target_twr).
Proof.
  intros Hok s e He.
  destruct (throttle_for_twr_run g target_twr s) as [(x & _ & Hrun)|(_ & Hr & _)].
  - unfold outcome_of in He. rewrite Hrun in He. discriminate He.
  - rewrite Hr in He. injection He as <-. exact Hok.
Qed.

(** A program that never runs to its end. *)
Definition never_done {A} (m : M World A) : Prop :=
  forall s a, outcome_of m s <> Done a.

Lemma never_done_bind {A B} (m : M World A) (k : A -> M World B) :
  (forall a, never_done (k a)) -> never_done (bind m k).
Proof.
  intros Hk s b. unfold outcome_of, bind.
  destruct (m s) as [[[a| |] s1] t1]; cbn; try discriminate.
  specialize (Hk a s1 b). unfold outcome_of in Hk.
  now destruct (k a s1) as [[r s2] t2].
Qed.

Lemma bind_assoc {A B C} (m : M World A) (k : A -> M World B) (h : B -> M World C)
    (s : State World) :
  bind (bind m k) h s = bind m (fun a => bind (k a) h) s.
Proof.
  unfold bind. destruct (m s) as [[[a| |] s1] t1]; try reflexivity.
  destruct (k a s1) as [[[b| |] s2] t2]; try reflexivity.
  destruct (h b s2) as [[r s3] t3]. now rewrite app_assoc.
Qed.

Lemma bind_ext {A B} (m : M World A) (k1 k2 : A -> M World B) (s : State World) :
  (forall a s1, k1 a s1 = k2 a s1) -> bind m k1 s = bind m k2 s.
Proof.
  intros Hk. unfold bind. destruct (m s) as [[[a| |] s1] t1]; try reflexivity.
  now rewrite Hk.
Qed.

Variable g : float.
Variable float_pow : float -> float -> result float.

(** The first ascent cell from ignition to the end of the climb loop
    (lines 132 to 145). *)
Definition up_to_the_climb (fuel : nat) : M World unit :=
  target_pitch_and_heading 90.0 90.0;;
  engage;;
  sleep 1;;
  let target_twr := 1.3 in
  throttle_for_twr g target_twr;;
  activate_next_stage;;
  climb_loop g fuel target_twr.

(** After the climb loop the cell sets the throttle and looks for the
    payload. *)
Lemma ignition_to_meco_after_the_climb (fuel : nat) :
  exists rest,
    forall s,
      ignition_to_meco g float_pow fuel s
      = bind (up_to_the_climb fuel)
          (fun _ => bind (throttle_for_twr g 1.5)
             (fun _ => bind vessel
                (fun v => bind (lift (find_payload_mass v)) rest))) s.
Proof.
  eexists. intros s. unfold ignition_to_meco, up_to_the_climb. unfold_monad.
  symmetry.
  repeat (rewrite bind_assoc; apply bind_ext; intros ? ?).
  reflexivity.
Qed.

Section Missing.
Hypothesis no_payload_decoupler :
  forall w, with_tag "payload_decoupler" (parts (vessel_of w)) = [].

Lemma find_payload_mass_missing (w : World) :
  find_payload_mass (vessel_of w) = Raise IndexError.
Proof. unfold find_payload_mass. now rewrite no_payload_decoupler. Qed.

Lemma never_done_ignition_to_meco (fuel : nat) :
  never_done (ignition_to_meco g float_pow fuel).
Proof.
  destruct (ignition_to_meco_after_the_climb fuel) as [rest Hcell].
  intros s a. unfold outcome_of. rewrite Hcell. revert s a.
  do 2 (apply never_done_bind; intros _).
  intros s a. unfold outcome_of, bind, vessel, lift.
  now rewrite find_payload_mass_missing.
Qed.

Lemma raises_only_ignition_to_meco (fuel : nat) :
  raises_only (fun e => e = IndexError \/ e = ZeroDivisionError)
    (ignition_to_meco g float_pow fuel).
Proof.
  destruct (ignition_to_meco_after_the_climb fuel) as [rest Hcell].
  intros s e. unfold outcome_of. rewrite Hcell. revert s e.
  unfold up_to_the_climb, climb_loop, target_pitch_and_heading, engage, sleep,
    activate_next_stage.
  unfold_monad.
  apply raises_only_bind; [|intros _; apply raises_only_bind; [|intros _]].
  - repeat first
      [ apply raises_only_throttle_for_twr; now right
      | apply raises_only_emit
      | apply raises_only_while
      | apply raises_only_bind; [|intros ?]
      | apply raises_only_done; intros ?; eexists; reflexivity ].
  - apply raises_only_throttle_for_twr. now right.
  - apply raises_only_vessel. intros w. apply raises_only_lift.
    + intros e. rewrite find_payload_mass_missing. intros [= <-]. now left.
    + intros a. rewrite find_payload_mass_missing. discriminate.
Qed.

(** X9: on a vessel none of whose parts is tagged 'payload_decoupler' the
    first ascent cell never finishes, and the only exceptions it can raise
    are IndexError and ZeroDivisionError.  Once the climb loop has ended
    and calc_throttle_for_twr has returned a throttle x for a
    thrust-to-weight ratio of 1.5, the cell fails with IndexError in
    find_payload_mass, and setting the throttle to x is the last thing it
    did. *)
Theorem ascent_without_payload_decoupler (fuel : nat) (s : State World) :
  (forall a, outcome_of (ignition_to_meco g float_pow fuel) s <> Done a)
  /\ (forall e,
         outcome_of (ignition_to_meco g float_pow fuel) s = Raised e ->
         e = IndexError \/ e = ZeroDivisionError)
  /\ (forall x,
         outcome_of (up_to_the_climb fuel) s = Done tt ->
         outcome_of (calc_throttle_for_twr_call g 1.5)
           (final_state (up_to_the_climb fuel) s) = Done x ->
         outcome_of (ignition_to_meco g float_pow fuel) s = Raised IndexError
         /\ trace_of (ignition_to_meco g float_pow fuel) s
            = trace_of (up_to_the_climb fuel) s ++ [EThrottle x]).
Proof.
  split; [|split].
  - apply never_done_ignition_to_meco.
  - apply raises_only_ignition_to_meco.
  - intros x Hclimb Hcall.
    destruct (ignition_to_meco_after_the_climb fuel) as [rest Hcell].
    assert (exists s',
               ignition_to_meco g float_pow fuel s
               = (Raised IndexError, s',
                  trace_of (up_to_the_climb fuel) s ++ [EThrottle x]))
      as [s' Hend].
    { rewrite Hcell. apply finished in Hclimb. unfold bind at 1. rewrite Hclimb.
      destruct (throttle_for_twr_run g 1.5 (final_state (up_to_the_climb fuel) s))
        as [(x' & Hx' & Hrun)|(Hraised & _)]; [|congruence].
      assert (x' = x) as -> by congruence.
      unfold bind at 1. rewrite Hrun. unfold bind, vessel, lift.
      rewrite find_payload_mass_missing. cbn. eexists. reflexivity. }
    unfold outcome_of, trace_of. rewrite Hend. now split.
Qed.
End Missing.
End NoPayload.

Lemma ascent_without_payload_decoupler_witness :
  outcome_of (ignition_to_meco 9.81 float_pow_2 3) Parked.state = Raised IndexError
  /\ trace_of (ignition_to_meco 9.81 float_pow_2 3) Parked.state
     = trace_of (up_to_the_climb 9.81 3) Parked.state
       ++ [EThrottle 0.73575000000000002].
Proof.
  assert (Hnone : forall w : Parked.World,
             with_tag "payload_decoupler" (parts (vessel_of w)) = [])
    by (intros []; reflexivity).
  apply (proj2 (proj2 (ascent_without_payload_decoupler 9.81 float_pow_2
                         Hnone 3 Parked.state))).
  - reflexivity.
  - vm_compute. reflexivity.
Defined.
End NoPayload.

(** ** What the sweep prints and writes *)

Module Progress.
Local Open Scope float_scope.

Lemma printed_app (t1 t2 : list event) :
  printed (t1 ++ t2) = printed t1 ++ printed t2.
Proof.
  induction t1 as [|e t1 IH]; [reflexivity|].
  destruct e; cbn; now rewrite ?IH.
Qed.

Lemma printed_none (t : list event) :
  forallb no_print t = true -> printed t = [].
Proof.
  induction t as [|e t IH]; [reflexivity|].
  destruct e; cbn; try discriminate; exact IH.
Qed.

Section Progress.
Context {World : Type} {sim : Simulation World}.
Variable g : float.

Lemma fly_all_prints_nothing (fuel : nat) (save : string) (rates : list float)
    (acc : list float) (s : State World) :
  printed (trace_of (fly_all g fuel save rates acc) s) = [].
Proof.
  apply printed_none.
  apply (only_fly_all g no_print); try reflexivity.
  now intros [].
Qed.

Lemma sweep_save_prints (fuel i : nat) (save : string) (s s' : State World)
    (t : list event) :
  sweep_save g fuel i save s = (Done tt, s', t) ->
  printed t = ["Completed " +:+ pretty (i + 1)%nat +:+ " of 6"].
Proof.
  unfold sweep_save. unfold_monad. intros Hrun.
  apply bind_done in Hrun as ([] & s1 & t1 & t2 & Hload & Hrun & ->).
  injection Hload as <- <-.
  apply bind_done in Hrun as (alts & s2 & t3 & t4 & Hfly & Hrun & ->).
  pose proof (fly_all_prints_nothing fuel save pitch_rates []
                {| world := react (ELoad save) (world s); files := files s |}) as Hq.
  unfold trace_of in Hq. rewrite Hfly in Hq. cbn in Hq.
  apply bind_done in Hrun as ([] & s3 & t5 & t6 & Hwrite & Hprint & ->).
  injection Hprint as <- <-.
  assert (Ht5 : t5 = []).
  { apply bind_done in Hwrite as ([] & s4 & t7 & t8 & Hopen & Hwrite & ->).
    injection Hopen as <- <-.
    rewrite (Sweep.write_lines _ _ _ []) in Hwrite by apply lookup_insert_eq.
    now injection Hwrite as <- <-. }
  subst t5. rewrite !printed_app, Hq. reflexivity.
Qed.

(** X10: a sweep that finishes prints four progress lines, one per save
    file: Completed 1 of 6 up to Completed 4 of 6, and nothing else; the
    count goes to four, not to the six the lines announce. *)
Theorem sweep_prints_four_lines (fuel : nat) (s s' : State World) (t : list event) :
  sweep g fuel s = (Done tt, s', t) ->
  printed t
  = ["Completed 1 of 6"; "Completed 2 of 6"; "Completed 3 of 6"; "Completed 4 of 6"].
Proof.
  unfold sweep, saves. cbn [sweep_from]. unfold_monad. intros Hrun.
  apply bind_done in Hrun as ([] & s0 & t0 & r0 & H0 & Hrun & ->).
  apply bind_done in Hrun as ([] & s1 & t1 & r1 & H1 & Hrun & ->).
  apply bind_done in Hrun as ([] & s2 & t2 & r2 & H2 & Hrun & ->).
  apply bind_done in Hrun as ([] & s3 & t3 & r3 & H3 & Hrun & ->).
  injection Hrun as <- <-.
  apply sweep_save_prints in H0, H1, H2, H3.
  rewrite !printed_app, H0, H1, H2, H3. reflexivity.
Qed.

(** X11: a sweep that finishes has read twenty-four mean altitudes and
    written them, six to a file in the order flown, to pad_125_0.txt,
    pad_125_1.txt, pad_000_0.txt and pad_000_1.txt; every other file is as
    it was. *)
Theorem sweep_writes_four_files (fuel : nat) (s s' : State World) (t : list event) :
  sweep g fuel s = (Done tt, s', t) ->
  exists l0 l1 l2 l3,
    mean_altitudes t = l0 ++ l1 ++ l2 ++ l3
    /\ (length l0 = 6 /\ length l1 = 6 /\ length l2 = 6 /\ length l3 = 6)%nat
    /\ files s' !! "pad_125_0.txt" = Some (concat (List.map altitude_line l0))
    /\ files s' !! "pad_125_1.txt" = Some (concat (List.map altitude_line l1))
    /\ files s' !! "pad_000_0.txt" = Some (concat (List.map altitude_line l2))
    /\ files s' !! "pad_000_1.txt" = Some (concat (List.map altitude_line l3))
    /\ forall other,
         other ∉ ["pad_125_0.txt"; "pad_125_1.txt"; "pad_000_0.txt"; "pad_000_1.txt"] ->
         files s' !! other = files s !! other.
Proof.
  intros Hrun.
  apply Sweep.sweep_files in Hrun as (l0 & l1 & l2 & l3 & Ht & Hlen & ->).
  exists l0, l1, l2, l3. split; [exact Ht|]. split; [exact Hlen|].
  repeat split.
  - now rewrite !lookup_insert_ne, lookup_insert_eq by discriminate.
  - now rewrite !lookup_insert_ne, lookup_insert_eq by discriminate.
  - now rewrite lookup_insert_ne, lookup_insert_eq by discriminate.
  - now rewrite lookup_insert_eq.
  - intros other Hother.
    rewrite !lookup_insert_ne; [reflexivity|..]; intros <-; apply Hother;
      repeat constructor.
Qed.
End Progress.

Lemma sweep_prints_four_lines_witness :
  printed (trace_of (sweep 9.81 10) (Replay.coasting_with ∅))
  = ["Completed 1 of 6"; "Completed 2 of 6"; "Completed 3 of 6"; "Completed 4 of 6"].
Proof.
  refine (sweep_prints_four_lines 9.81 10 (Replay.coasting_with ∅)
            (final_state (sweep 9.81 10) (Replay.coasting_with ∅))
            (trace_of (sweep 9.81 10) (Replay.coasting_with ∅)) _).
  apply finished. vm_compute. reflexivity.
Defined.

Lemma sweep_writes_four_files_witness :
  exists l0 l1 l2 l3,
    mean_altitudes (trace_of (sweep 9.81 10) (Replay.coasting_with ∅))
    = l0 ++ l1 ++ l2 ++ l3
    /\ (length l0 = 6 /\ length l1 = 6 /\ length l2 = 6 /\ length l3 = 6)%nat
    /\ files (final_state (sweep 9.81 10) (Replay.coasting_with ∅)) !! "pad_125_0.txt"
       = Some (concat (List.map altitude_line l0))
    /\ files (final_state (sweep 9.81 10) (Replay.coasting_with ∅)) !! "pad_125_1.txt"
       = Some (concat (List.map altitude_line l1))
    /\ files (final_state (sweep 9.81 10) (Replay.coasting_with ∅)) !! "pad_000_0.txt"
       = Some (concat (List.map altitude_line l2))
    /\ files (final_state (sweep 9.81 10) (Replay.coasting_with ∅)) !! "pad_000_1.txt"
       = Some (concat (List.map altitude_line l3))
    /\ forall other,
         other ∉ ["pad_125_0.txt"; "pad_125_1.txt"; "pad_000_0.txt"; "pad_000_1.txt"] ->
         files (final_state (sweep 9.81 10) (Replay.coasting_with ∅)) !! other
         = (∅ : gmap string text) !! other.
Proof.
  refine (sweep_writes_four_files 9.81 10 (Replay.coasting_with ∅)
            (final_state (sweep 9.81 10) (Replay.coasting_with ∅))
            (trace_of (sweep 9.81 10) (Replay.coasting_with ∅)) _).
  apply finished. vm_compute. reflexivity.
Defined.
End Progress.

(** ** How find_payload_mass fails *)

Module PayloadErrors.
Local Open Scope float_scope.

(** X12: find_payload_mass raises nothing but IndexError, and that only
    when no part carries the tag (the division by 1000.0 never fails); a
    tagged decoupler that carries nothing gives 0.0. *)
Theorem find_payload_mass_errors (v : Vessel) :
  (forall e, find_payload_mass v = Raise e ->
             e = IndexError /\ with_tag "payload_decoupler" (parts v) = [])
  /\ (forall p rest,
        with_tag "payload_decoupler" (parts v) = p :: rest ->
        children p = [] -> find_payload_mass v = Ok 0).
Proof.
  split.
  - intros e. unfold find_payload_mass.
    destruct (with_tag "payload_decoupler" (parts v)) as [|p rest]; cbn.
    + intros [= <-]. now split.
    + discriminate.
  - intros p rest Htag Hnone.
    rewrite (Payload.find_payload_mass_first v p rest Htag), Hnone. reflexivity.
Qed.

Lemma find_payload_mass_errors_witness :
  (IndexError = IndexError
   /\ with_tag "payload_decoupler" (parts Replay.coasting) = [])
  /\ find_payload_mass Flights.empty_handed = Ok 0.
Proof.
  split.
  - exact (proj1 (find_payload_mass_errors Replay.coasting) IndexError eq_refl).
  - exact (proj2 (find_payload_mass_errors Flights.empty_handed)
             (Replay.leaf "payload_decoupler" 50) [] eq_refl eq_refl).
Defined.
End PayloadErrors.

(** ** Addition is monotone

    What [SFadd] computes for finite operands, the rounding of the exact
    sum, and that it keeps the order of its operands. *)

Module Addition.
Import FloatFacts Rounding FloatOrder.
Local Open Scope Z_scope.

Lemma iter_xO (m d : positive) : Z.pos (Pos.iter xO m d) = Z.pos m * 2 ^ Z.pos d.
Proof.
  induction d as [|d IH] using Pos.peano_ind.
  - cbn [Pos.iter]. change (2 ^ 1) with 2. lia.
  - rewrite Pos.iter_succ, Pos2Z.inj_succ, Z.pow_succ_r by lia.
    rewrite Pos2Z.inj_xO, IH. lia.
Qed.

(** Aligning a mantissa to a smaller exponent keeps the value. *)
Lemma shl_align_spec (mx : positive) (ex ex' : Z) :
  snd (shl_align mx ex ex') = Z.min ex ex'
  /\ Z.pos (fst (shl_align mx ex ex')) = Z.pos mx * 2 ^ (ex - Z.min ex ex').
Proof.
  unfold shl_align. destruct (ex' - ex) as [|d|d] eqn:Hd; cbn [fst snd].
  - rewrite Z.min_l by lia. replace (ex - ex) with 0 by lia. lia.
  - rewrite Z.min_l by lia. replace (ex - ex) with 0 by lia. lia.
  - rewrite Z.min_r by lia. split; [reflexivity|].
    rewrite iter_xO. f_equal. f_equal. lia.
Qed.

Lemma located_exact (m : positive) : located (Z.pos m) loc_Exact (Z.pos m) 1.
Proof.
  unfold located, jam. cbn [loc_code]. rewrite Z.div_1_r, Z.mod_1_r. cbn [Z.eqb]. lia.
Qed.

Lemma Zdigits2_shift (m : positive) (k : Z) :
  0 <= k -> Zdigits2 (Z.pos m * 2 ^ k) = Z.pos (digits2_pos m) + k.
Proof.
  intros Hk. pose proof (digits2_pos_bounds m) as [Hlo Hhi].
  pose proof (pow2_pos k Hk) as Hp.
  assert (Hm : 0 < Z.pos m * 2 ^ k) by nia.
  pose proof (Zdigits2_bounds _ Hm) as [Dlo Dhi].
  set (dg := Z.pos (digits2_pos m)) in *.
  assert (0 < dg) by (unfold dg; lia).
  set (D := Zdigits2 (Z.pos m * 2 ^ k)) in *.
  assert (HD : 0 < D).
  { unfold D. apply (Zdigits2_ge _ 0); lia. }
  assert (H1 : 2 ^ (D - 1) < 2 ^ (dg + k)).
  { rewrite (pow2_split dg k) by lia. nia. }
  assert (H2 : 2 ^ (dg - 1 + k) < 2 ^ D).
  { rewrite (pow2_split (dg - 1) k) by lia. nia. }
  apply pow2_lt_inv in H1; [|lia|lia]. apply pow2_lt_inv in H2; [|lia|lia]. lia.
Qed.

(** What [binary_round] hands to the rounding step. *)
Definition aligned_exp (m : positive) (e : Z) : Z :=
  Z.min e (fexp prec emax (Z.pos (digits2_pos m) + e)).

Definition aligned (m : positive) (e : Z) : Z :=
  Z.pos m * 2 ^ (e - aligned_exp m e).

Lemma binary_round_unfold (s : bool) (m : positive) (e : Z) :
  binary_round prec emax s m e
  = binary_round_aux prec emax s (aligned m e) (aligned_exp m e) loc_Exact.
Proof.
  unfold binary_round, aligned, aligned_exp.
  pose proof (shl_align_spec m e (fexp prec emax (Z.pos (digits2_pos m) + e)))
    as [He Hm].
  destruct (shl_align m e _) as [mz ez]. cbn [fst snd] in *.
  now rewrite He, <- Hm.
Qed.

Lemma aligned_pos (m : positive) (e : Z) : 0 < aligned m e.
Proof.
  unfold aligned. assert (0 < 2 ^ (e - aligned_exp m e)).
  { apply pow2_pos. unfold aligned_exp. lia. }
  nia.
Qed.

Lemma aligned_located (m : positive) (e : Z) :
  located (aligned m e) loc_Exact (aligned m e) 1.
Proof.
  pose proof (aligned_pos m e). destruct (aligned m e) as [|p|p]; try lia.
  apply located_exact.
Qed.

Lemma aligned_shift (m : positive) (e : Z) :
  aligned_exp m e <= target_exp (aligned m e) (aligned_exp m e).
Proof.
  unfold target_exp, aligned. rewrite Zdigits2_shift by (unfold aligned_exp; lia).
  replace (Z.pos (digits2_pos m) + (e - aligned_exp m e) + aligned_exp m e)
    with (Z.pos (digits2_pos m) + e) by lia.
  unfold aligned_exp. lia.
Qed.

Lemma binary_round_range (m : positive) (e : Z) :
  0 <= ord (binary_round prec emax false m e) <= BIG.
Proof.
  rewrite binary_round_unfold.
  rewrite (binary_round_aux_ord _ _ _ _ _ (aligned_located m e) (aligned_shift m e)).
  destruct (rounded_bounds _ _ _ _ _ (aligned_located m e) (aligned_shift m e))
    as [Hb _].
  pose proof (target_exp_ge (aligned m e) (aligned_exp m e)).
  assert (0 < 2 ^ (target_exp (aligned m e) (aligned_exp m e) + 1074))
    by (apply pow2_pos; lia).
  pose proof BIG_pos. split; [apply Z.min_glb; [nia|lia]|apply Z.le_min_r].
Qed.

Lemma binary_round_not_nan (s : bool) (m : positive) (e : Z) :
  sf_nan (binary_round prec emax s m e) = false.
Proof.
  rewrite binary_round_unfold.
  exact (binary_round_aux_not_nan _ _ _ _ _ _ (aligned_located m e)
           (aligned_shift m e)).
Qed.

Lemma binary_round_opp (m : positive) (e : Z) :
  binary_round prec emax true m e = SFopp (binary_round prec emax false m e).
Proof. rewrite !binary_round_unfold. apply binary_round_aux_opp. Qed.

(** Rounding keeps the order of the values [m * 2 ^ e]. *)
Lemma binary_round_mono (m1 : positive) (e1 : Z) (m2 : positive) (e2 : Z) :
  Z.pos m1 * 2 ^ (e1 - Z.min e1 e2) <= Z.pos m2 * 2 ^ (e2 - Z.min e1 e2) ->
  ord (binary_round prec emax false m1 e1) <= ord (binary_round prec emax false m2 e2).
Proof.
  intros Hle. rewrite !binary_round_unfold.
  apply (binary_round_aux_mono _ _ _ _ _ _ _ _ _ _
           (aligned_located m1 e1) (aligned_located m2 e2)
           (aligned_shift m1 e1) (aligned_shift m2 e2)).
  rewrite !Z.mul_1_r. unfold aligned.
  set (a1 := aligned_exp m1 e1). set (a2 := aligned_exp m2 e2).
  assert (a1 <= e1) by (unfold a1, aligned_exp; lia).
  assert (a2 <= e2) by (unfold a2, aligned_exp; lia).
  rewrite <- !Z.mul_assoc, <- !pow2_split by lia.
  apply (pow2_rescale _ _ (e1 - Z.min e1 e2) (e2 - Z.min e1 e2)); try lia.
Qed.

Lemma binary_normalize_not_nan (S e : Z) :
  sf_nan (binary_normalize prec emax S e false) = false.
Proof. destruct S; cbn [binary_normalize]; [reflexivity|..]; apply binary_round_not_nan. Qed.

Lemma binary_normalize_range (S e : Z) :
  - BIG <= ord (binary_normalize prec emax S e false) <= BIG.
Proof.
  pose proof BIG_pos.
  destruct S as [|p|p]; cbn [binary_normalize].
  - cbn [ord]. lia.
  - pose proof (binary_round_range p e). lia.
  - rewrite binary_round_opp, ord_opp. pose proof (binary_round_range p e). lia.
Qed.

(** Normalising keeps the order of the values [S * 2 ^ e]. *)
Lemma binary_normalize_mono (S1 e1 S2 e2 : Z) :
  S1 * 2 ^ (e1 - Z.min e1 e2) <= S2 * 2 ^ (e2 - Z.min e1 e2) ->
  ord (binary_normalize prec emax S1 e1 false)
  <= ord (binary_normalize prec emax S2 e2 false).
Proof.
  intros Hle.
  assert (H1 : 0 < 2 ^ (e1 - Z.min e1 e2)) by (apply pow2_pos; lia).
  assert (H2 : 0 < 2 ^ (e2 - Z.min e1 e2)) by (apply pow2_pos; lia).
  destruct S1 as [|p1|p1], S2 as [|p2|p2]; cbn [binary_normalize];
    rewrite ?binary_round_opp, ?ord_opp; cbn [ord];
    try (pose proof (binary_round_range p1 e1));
    try (pose proof (binary_round_range p2 e2));
    try lia; try (exfalso; nia).
  - now apply binary_round_mono.
  - enough (ord (binary_round prec emax false p2 e2)
            <= ord (binary_round prec emax false p1 e1)) by lia.
    apply binary_round_mono. rewrite (Z.min_comm e2 e1). lia.
Qed.

(** The rounding of an integer multiple of [2 ^ -1074]. *)
Definition RO (N : Z) : Z := ord (binary_normalize prec emax N (-1074) false).

Lemma RO_mono (N1 N2 : Z) : N1 <= N2 -> RO N1 <= RO N2.
Proof.
  intros Hle. apply binary_normalize_mono.
  rewrite Z.min_id, Z.sub_diag. cbn. lia.
Qed.

Lemma RO_range (N : Z) : - BIG <= RO N <= BIG.
Proof. apply binary_normalize_range. Qed.

Lemma binary_normalize_RO (S e : Z) :
  -1074 <= e -> ord (binary_normalize prec emax S e false) = RO (S * 2 ^ (e + 1074)).
Proof.
  intros He. unfold RO.
  assert (Hmin : Z.min e (-1074) = -1074) by lia.
  assert (Hmin' : Z.min (-1074) e = -1074) by lia.
  apply Z.le_antisymm; apply binary_normalize_mono.
  - rewrite Hmin. replace (-1074 - -1074) with 0 by lia.
    replace (e - -1074) with (e + 1074) by lia. rewrite Z.pow_0_r. lia.
  - rewrite Hmin'. replace (-1074 - -1074) with 0 by lia.
    replace (e - -1074) with (e + 1074) by lia. rewrite Z.pow_0_r. lia.
Qed.

Lemma rne4_exact (m : Z) : rne4 (4 * m) = m.
Proof.
  unfold rne4. rewrite (Z.mul_comm 4 m), Z.div_mul, Z.mod_mul by lia. reflexivity.
Qed.

(** A number is its own rounding. *)
Lemma binary_round_canonical (m : positive) (e : Z) :
  valid_binary (S754_finite false m e) = true ->
  ord (binary_round prec emax false m e) = Z.pos m * 2 ^ (e + 1074).
Proof.
  intros Hv. pose proof (ord_finite_pos m e Hv) as Hord.
  revert Hv. cbn [SpecFloat.valid_binary]. unfold bounded, canonical_mantissa.
  rewrite andb_true_iff, Z.eqb_eq. intros [Hcan _].
  assert (Ha : aligned_exp m e = e) by (unfold aligned_exp; lia).
  assert (Hm : aligned m e = Z.pos m).
  { unfold aligned. rewrite Ha, Z.sub_diag, Z.pow_0_r. lia. }
  rewrite binary_round_unfold.
  rewrite (binary_round_aux_ord _ _ _ _ _ (aligned_located m e) (aligned_shift m e)).
  rewrite Hm, Ha.
  assert (Ht : target_exp (Z.pos m) e = e) by exact Hcan.
  unfold rounded. rewrite Ht, Z.sub_diag, Z.pow_0_r, Z.mul_1_r.
  assert (Hj : jam (2 * Z.pos m) 1 = 4 * Z.pos m).
  { unfold jam. rewrite Z.div_1_r, Z.mod_1_r. cbn [Z.eqb]. lia. }
  rewrite Hj, rne4_exact. apply Z.min_l. lia.
Qed.

Definition sf_finite (x : spec_float) : bool :=
  match x with
  | S754_zero _ | S754_finite _ _ _ => true
  | _ => false
  end.

Lemma RO_ord (x : spec_float) :
  valid_binary x = true -> sf_finite x = true -> RO (ord x) = ord x.
Proof.
  intros Hv Hf. destruct x as [s|s| |s m e]; try discriminate; [reflexivity|].
  destruct (valid_finite _ _ _ Hv) as [He _].
  rewrite (valid_sign s false) in Hv.
  pose proof (binary_round_canonical m e Hv) as Hc.
  destruct s; cbn [ord].
  - replace (- (Z.pos m * 2 ^ (e + 1074))) with (Z.neg m * 2 ^ (e + 1074)) by lia.
    rewrite <- binary_normalize_RO by lia. cbn [binary_normalize].
    rewrite binary_round_opp, ord_opp. lia.
  - rewrite <- binary_normalize_RO by lia. exact Hc.
Qed.

Lemma cond_Zopp_ord (s : bool) (m : positive) (e ez : Z) :
  ez <= e -> -1074 <= ez ->
  cond_Zopp s (Z.pos (fst (shl_align m e ez))) * 2 ^ (ez + 1074)
  = ord (S754_finite s m e).
Proof.
  intros Hle Hez. destruct (shl_align_spec m e ez) as [_ Hm].
  rewrite Hm, Z.min_r by lia.
  assert (Hp : 2 ^ (e + 1074) = 2 ^ (e - ez) * 2 ^ (ez + 1074)).
  { rewrite <- pow2_split by lia. f_equal. lia. }
  destruct s; cbn [cond_Zopp ord]; rewrite Hp; lia.
Qed.

(** The sum of two finite numbers is the rounding of the exact sum. *)
Lemma SFadd_ord (x c : spec_float) :
  valid_binary x = true -> valid_binary c = true ->
  sf_finite x = true -> sf_finite c = true ->
  sf_nan (SF64add x c) = false /\ ord (SF64add x c) = RO (ord x + ord c).
Proof.
  intros Hvx Hvc Hfx Hfc.
  destruct x as [sx|sx| |sx mx ex], c as [sc|sc| |sc mc ec]; try discriminate.
  - split; [now destruct sx, sc|]. now destruct sx, sc.
  - split; [reflexivity|]. cbn [SF64add SFadd].
    change (ord (S754_zero sx)) with 0. rewrite Z.add_0_l.
    symmetry. now apply RO_ord.
  - split; [reflexivity|]. cbn [SF64add SFadd].
    change (ord (S754_zero sc)) with 0. rewrite Z.add_0_r.
    symmetry. now apply RO_ord.
  - split; [apply binary_normalize_not_nan|].
    destruct (valid_finite _ _ _ Hvx) as [Hex _].
    destruct (valid_finite _ _ _ Hvc) as [Hec _].
    cbn [SF64add SFadd]. rewrite binary_normalize_RO by lia. f_equal.
    rewrite Z.mul_add_distr_r, !cond_Zopp_ord by lia. reflexivity.
Qed.

Lemma finite_below_BIG (x : spec_float) :
  valid_binary x = true -> sf_finite x = true -> - BIG < ord x < BIG.
Proof.
  pose proof BIG_pos.
  destruct x as [s|s| |s m e]; try discriminate; cbn [ord]; [lia|].
  intros Hv _. rewrite (valid_sign s false) in Hv.
  apply ord_finite_pos in Hv. destruct s; lia.
Qed.

(** Adding a finite number keeps numbers numbers and keeps their order. *)
Lemma SFadd_mono (x1 x2 c : spec_float) :
  valid_binary x1 = true -> valid_binary x2 = true -> valid_binary c = true ->
  sf_nan x1 = false -> sf_nan x2 = false -> sf_finite c = true ->
  ord x1 <= ord x2 ->
  sf_nan (SF64add x1 c) = false /\ sf_nan (SF64add x2 c) = false
  /\ ord (SF64add x1 c) <= ord (SF64add x2 c).
Proof.
  intros Hv1 Hv2 Hvc Hn1 Hn2 Hfc Hle.
  pose proof BIG_pos as HB.
  assert (Hinf : forall s, SF64add (S754_infinity s) c = S754_infinity s).
  { intros s. destruct c; try discriminate; reflexivity. }
  destruct (sf_finite x1) eqn:Hf1, (sf_finite x2) eqn:Hf2.
  - destruct (SFadd_ord x1 c Hv1 Hvc Hf1 Hfc) as [-> ->].
    destruct (SFadd_ord x2 c Hv2 Hvc Hf2 Hfc) as [-> ->].
    repeat split. apply RO_mono. lia.
  - destruct (SFadd_ord x1 c Hv1 Hvc Hf1 Hfc) as [-> ->].
    pose proof (finite_below_BIG x1 Hv1 Hf1).
    pose proof (RO_range (ord x1 + ord c)).
    destruct x2 as [s|[]| |s m e]; try discriminate; rewrite Hinf; cbn [ord sf_nan] in *;
      repeat split; lia.
  - destruct (SFadd_ord x2 c Hv2 Hvc Hf2 Hfc) as [-> ->].
    pose proof (finite_below_BIG x2 Hv2 Hf2).
    pose proof (RO_range (ord x2 + ord c)).
    destruct x1 as [s|[]| |s m e]; try discriminate; rewrite Hinf; cbn [ord sf_nan] in *;
      repeat split; lia.
  - destruct x1 as [s1|[]| |s1 m1 e1], x2 as [s2|[]| |s2 m2 e2]; try discriminate;
      rewrite !Hinf; cbn [ord sf_nan] in *; repeat split; lia.
Qed.
End Addition.

(** ** Sums, differences and products of floats in order *)

Module Sums.
Import FloatFacts Rounding FloatOrder Addition.
Local Open Scope float_scope.

(** A number strictly between the infinities. *)
Lemma between_infinities (c : float) :
  (neg_infinity <? c) = true -> (c <? infinity) = true ->
  sf_finite (Prim2SF c) = true.
Proof.
  rewrite !FloatAxioms.ltb_spec.
  change (Prim2SF neg_infinity) with (S754_infinity true).
  change (Prim2SF infinity) with (S754_infinity false).
  destruct (Prim2SF c) as [[]|[]| |[] m e]; cbn; congruence.
Qed.

Lemma add_mono_l (a1 a2 c : float) :
  sf_finite (Prim2SF c) = true ->
  (a1 <=? a2) = true -> (a1 + c <=? a2 + c) = true.
Proof.
  intros Hc Hle. apply leb_ord in Hle as (Hn1 & Hn2 & Hord).
  apply leb_ord. rewrite !FloatAxioms.add_spec.
  apply SFadd_mono; try apply Prim2SF_valid; assumption.
Qed.

Lemma SFadd_comm (x y : spec_float) : SF64add x y = SF64add y x.
Proof.
  destruct x as [sx|sx| |sx mx ex], y as [sy|sy| |sy my ey]; try reflexivity;
    try (now destruct sx, sy).
  cbn [SF64add SFadd]. now rewrite (Z.min_comm ey ex), Z.add_comm.
Qed.

Lemma add_comm (x y : float) : x + y = y + x.
Proof. apply Prim2SF_inj. rewrite !FloatAxioms.add_spec. apply SFadd_comm. Qed.

Lemma add_mono_r (c b1 b2 : float) :
  sf_finite (Prim2SF c) = true ->
  (b1 <=? b2) = true -> (c + b1 <=? c + b2) = true.
Proof. intros Hc Hle. rewrite !(add_comm c). now apply add_mono_l. Qed.

Lemma SFsub_add_opp (x y : spec_float) : SF64sub x y = SF64add x (SFopp y).
Proof.
  destruct x as [sx|sx| |sx mx ex], y as [sy|sy| |sy my ey]; try reflexivity;
    try (now destruct sx, sy).
Qed.

Lemma sub_add_opp (x y : float) : x - y = x + - y.
Proof.
  apply Prim2SF_inj.
  rewrite FloatAxioms.sub_spec, FloatAxioms.add_spec, FloatAxioms.opp_spec.
  apply SFsub_add_opp.
Qed.

Lemma opp_antitone (a b : float) : (a <=? b) = true -> (- b <=? - a) = true.
Proof.
  intros Hle. apply leb_ord in Hle as (Hna & Hnb & Hord).
  apply leb_ord. rewrite !FloatAxioms.opp_spec, !sf_nan_opp, !ord_opp.
  repeat split; try assumption. lia.
Qed.

Lemma opp_finite (c : float) :
  sf_finite (Prim2SF c) = true -> sf_finite (Prim2SF (- c)) = true.
Proof. rewrite FloatAxioms.opp_spec. now destruct (Prim2SF c). Qed.

Lemma SFmul_comm (x y : spec_float) : SF64mul x y = SF64mul y x.
Proof.
  destruct x as [sx|sx| |sx mx ex], y as [sy|sy| |sy my ey]; try reflexivity;
    cbn [SF64mul SFmul]; rewrite ?(xorb_comm sy sx); try reflexivity.
  now rewrite (Pos.mul_comm my mx), (Z.add_comm ey ex).
Qed.

Lemma mul_comm (x y : float) : x * y = y * x.
Proof. apply Prim2SF_inj. rewrite !FloatAxioms.mul_spec. apply SFmul_comm. Qed.

(** The sum of two numbers that are not negative is not negative (and is a
    number). *)
Lemma add_nonneg (a b : float) :
  (0 <=? a) = true -> (0 <=? b) = true -> (0 <=? a + b) = true.
Proof.
  intros Ha Hb.
  apply leb_ord in Ha as (_ & Hna & Ha), Hb as (_ & Hnb & Hb).
  change (ord (Prim2SF 0)) with 0%Z in *.
  apply leb_ord. change (ord (Prim2SF 0)) with 0%Z.
  split; [reflexivity|]. rewrite FloatAxioms.add_spec.
  pose proof (Prim2SF_valid a) as Hva. pose proof (Prim2SF_valid b) as Hvb.
  pose proof BIG_pos as HB.
  destruct (sf_finite (Prim2SF a)) eqn:Hfa, (sf_finite (Prim2SF b)) eqn:Hfb.
  - destruct (SFadd_ord _ _ Hva Hvb Hfa Hfb) as [-> ->]. split; [reflexivity|].
    change 0%Z with (RO 0). apply RO_mono. lia.
  - destruct (Prim2SF b) as [sb|[]| |sb mb eb]; try discriminate; cbn [ord] in Hb;
      try lia.
    destruct (Prim2SF a) as [sa|[]| |sa ma ea]; try discriminate; cbn; split;
      try reflexivity; lia.
  - destruct (Prim2SF a) as [sa|[]| |sa ma ea]; try discriminate; cbn [ord] in Ha;
      try lia.
    destruct (Prim2SF b) as [sb|[]| |sb mb eb]; try discriminate; cbn; split;
      try reflexivity; lia.
  - destruct (Prim2SF a) as [sa|[]| |sa ma ea]; try discriminate; cbn [ord] in Ha;
      try lia.
    destruct (Prim2SF b) as [sb|[]| |sb mb eb]; try discriminate; cbn [ord] in Hb;
      try lia.
    cbn. split; [reflexivity|lia].
Qed.

(** Scaling by a positive finite constant on the left keeps what is not
    negative so. *)
Lemma scale_nonneg (k x : float) :
  (0 <? k) = true -> (k <? infinity) = true ->
  (0 <=? x) = true -> (0 <=? k * x) = true.
Proof.
  intros Hk0 Hkinf Hx.
  destruct (positive_finite k Hk0 Hkinf) as (mk & ek & Hk).
  apply leb_ord in Hx as (Hn0 & Hnx & Hord).
  pose proof (mul_by_finite_mono 0 x k mk ek Hk Hn0 Hnx Hord) as Hle.
  rewrite (mul_comm k x).
  assert (H0 : Prim2SF (0 * k) = S754_zero false).
  { rewrite FloatAxioms.mul_spec, Hk. reflexivity. }
  apply leb_ord in Hle as (_ & Hn & Hle). rewrite H0 in Hle.
  apply leb_ord. repeat split; assumption.
Qed.
End Sums.

(** ** The pitch program: rate, payload mass and commanded pitch *)

Module PitchProgram.
Import FloatFacts Rounding FloatOrder Addition Sums.
Local Open Scope float_scope.

(** X13: for a payload mass m >= 0 whose square m ** 2 is >= 0, the pitch rate
    is at least 0.5801 degrees per second, the constant term of the
    polynomial. *)
Theorem calc_pitch_rate_at_least
    (float_pow : float -> float -> result float) (m m2 : float) :
  float_pow m 2 = Ok m2 ->
  (0 <=? m) = true -> (0 <=? m2) = true ->
  exists pitch_rate,
    calc_pitch_rate float_pow m = Ok pitch_rate
    /\ (0.5801 <=? pitch_rate) = true.
Proof.
  intros Hpow Hm Hm2. unfold calc_pitch_rate. rewrite Hpow. cbn [rbind].
  eexists. split; [reflexivity|].
  assert (Hsum : (0 <=? 0.0041 * m2 + 0.0259 * m) = true).
  { apply add_nonneg; now apply scale_nonneg. }
  exact (add_mono_l 0 (0.0041 * m2 + 0.0259 * m) 0.5801 eq_refl Hsum).
Qed.

Lemma calc_pitch_rate_at_least_witness :
  exists pitch_rate,
    calc_pitch_rate float_pow_2 0.13 = Ok pitch_rate
    /\ (0.5801 <=? pitch_rate) = true.
Proof.
  exact (calc_pitch_rate_at_least float_pow_2 0.13 (0.13 * 0.13)
           eq_refl eq_refl eq_refl).
Defined.

Lemma sum_nonneg (xs : list float) :
  forall acc,
    (0 <=? acc) = true -> Forall (fun x => (0 <=? x) = true) xs ->
    (0 <=? fold_left add xs acc) = true.
Proof.
  induction xs as [|x xs IH]; intros acc Hacc Hxs; [exact Hacc|].
  inversion Hxs as [|? ? Hx Hrest]; subst. cbn [fold_left].
  apply IH; [now apply add_nonneg|assumption].
Qed.

(** X14: when no child of the payload decoupler has a negative mass,
    find_payload_mass returns a mass that is not negative. *)
Theorem find_payload_mass_nonneg (v : Vessel) (p : Part) (rest : list Part) :
  with_tag "payload_decoupler" (parts v) = p :: rest ->
  Forall (fun c => (0 <=? part_mass c) = true) (children p) ->
  exists m, find_payload_mass v = Ok m /\ (0 <=? m) = true.
Proof.
  intros Htag Hmasses.
  rewrite (Payload.find_payload_mass_first v p rest Htag).
  eexists. split; [reflexivity|].
  assert (Hsum : (0 <=? PyFloat.sum (List.map part_mass (children p))) = true).
  { apply sum_nonneg; [reflexivity|]. now apply Forall_map. }
  destruct (positive_finite 1000 eq_refl eq_refl) as (my & ey & Hy).
  apply leb_ord in Hsum as (Hn0 & Hns & Hord).
  exact (div_by_finite_mono 0 _ 1000 my ey Hy Hn0 Hns Hord).
Qed.

Lemma find_payload_mass_nonneg_witness :
  exists m, find_payload_mass Replay.stack = Ok m /\ (0 <=? m) = true.
Proof.
  refine (find_payload_mass_nonneg Replay.stack _ _ eq_refl _).
  repeat constructor.
Defined.

(** The pitch commanded at a later time is not above the one commanded
    earlier. *)
Lemma target_pitch_antitone (start pitch_start pitch_rate now1 now2 : float) :
  sf_finite (Prim2SF start) = true ->
  sf_finite (Prim2SF pitch_start) = true ->
  (0 <? pitch_rate) = true -> (pitch_rate <? infinity) = true ->
  (now1 <=? now2) = true ->
  (start - (now2 - pitch_start) * pitch_rate
   <=? start - (now1 - pitch_start) * pitch_rate) = true.
Proof.
  intros Hstart Hps Hr0 Hrinf Hle.
  destruct (positive_finite pitch_rate Hr0 Hrinf) as (mr & er & Hr).
  rewrite !(sub_add_opp start).
  apply add_mono_r; [assumption|]. apply opp_antitone.
  assert (Hd : (now1 - pitch_start <=? now2 - pitch_start) = true).
  { rewrite !(sub_add_opp _ pitch_start).
    apply add_mono_l; [now apply opp_finite|assumption]. }
  apply leb_ord in Hd as (Hn1 & Hn2 & Hord).
  exact (mul_by_finite_mono _ _ pitch_rate mr er Hr Hn1 Hn2 Hord).
Qed.

Lemma descending_map (f : float -> float) (xs : list float) :
  (forall x y, (x <=? y) = true -> (f y <=? f x) = true) ->
  ascending xs = true -> descending (List.map f xs) = true.
Proof.
  intros Hf. induction xs as [|x [|y xs] IH]; try reflexivity.
  cbn [ascending List.map descending]. intros [Hxy Hrest]%andb_true_iff.
  rewrite (Hf x y Hxy). exact (IH Hrest).
Qed.

Lemma rounds_commanded_pitches (q : quantity) (start pitch_start pitch_rate : float)
    (t : list event) :
  rounds q (pitch_command start pitch_start pitch_rate) t ->
  commanded_pitches t
  = List.map (fun now => start - (now - pitch_start) * pitch_rate) (clock_readings t).
Proof.
  induction 1 as [|v|v b rest (x & now & ->) _ IH]; try reflexivity.
  cbn. now rewrite IH.
Qed.

Section PitchOver.
Context {World : Type} {sim : Simulation World}.
Variable g : float.

(** X15: in both pitch-over loops, for a finite pitch_start and a positive
    finite pitch_rate, the commanded pitch never goes up as long as the
    wall clock does not go back: if each clock reading of the loop is at
    least the one before, each pitch commanded is at most the one before. *)
Theorem pitch_over_never_pitches_up
    (fuel : nat) (target_twr pitch_start pitch_rate : float) (s : State World) :
  (neg_infinity <? pitch_start) = true -> (pitch_start <? infinity) = true ->
  (0 <? pitch_rate) = true -> (pitch_rate <? infinity) = true ->
  (ascending (clock_readings
                (trace_of (first_pitch_over_loop g fuel target_twr pitch_start pitch_rate) s))
   = true ->
   descending (commanded_pitches
                 (trace_of (first_pitch_over_loop g fuel target_twr pitch_start pitch_rate) s))
   = true)
  /\ (ascending (clock_readings
                   (trace_of (second_pitch_over_loop g fuel pitch_start pitch_rate) s))
      = true ->
      descending (commanded_pitches
                    (trace_of (second_pitch_over_loop g fuel pitch_start pitch_rate) s))
      = true).
Proof.
  intros Hps1 Hps2 Hr0 Hrinf.
  pose proof (between_infinities _ Hps1 Hps2) as Hps.
  split; intros Hclock.
  - rewrite (rounds_commanded_pitches (Pitch SurfaceFrame) 90 pitch_start pitch_rate).
    + apply descending_map; [|assumption].
      intros x y Hxy. now apply target_pitch_antitone.
    + apply (while_poll_rounds (Pitch SurfaceFrame) (fun p => 45 <? p)).
      intros s'. apply Ascent.pitch_over_round.
  - rewrite (rounds_commanded_pitches (Pitch SurfaceFrame) 45 pitch_start pitch_rate).
    + apply descending_map; [|assumption].
      intros x y Hxy. now apply target_pitch_antitone.
    + apply (while_poll_rounds (Pitch SurfaceFrame) (fun p => 0 <? p)).
      intros s'. apply Ascent.pitch_over_round.
Qed.
End PitchOver.

Lemma pitch_over_never_pitches_up_witness :
  descending (commanded_pitches
                (trace_of (first_pitch_over_loop 9.81 10 1.5 1 0.58)
                   Flights.pitching_over)) = true
  /\ descending (commanded_pitches
                   (trace_of (second_pitch_over_loop 9.81 10 1 1)
                      Flights.pitching_over)) = true.
Proof.
  destruct (pitch_over_never_pitches_up 9.81 10 1.5 1 0.58 Flights.pitching_over
              eq_refl eq_refl eq_refl eq_refl) as [Hfirst _].
  destruct (pitch_over_never_pitches_up 9.81 10 1.5 1 1 Flights.pitching_over
              eq_refl eq_refl eq_refl eq_refl) as [_ Hsecond].
  split; [apply Hfirst|apply Hsecond]; vm_compute; reflexivity.
Defined.
End PitchProgram.

(** ** The turns of the sweep: what they load, and when they write *)

Module Turns.
Local Open Scope float_scope.

Lemma loads_app (t1 t2 : list event) : loads (t1 ++ t2) = loads t1 ++ loads t2.
Proof.
  induction t1 as [|e t1 IH]; [reflexivity|].
  destruct e; cbn; now rewrite ?IH.
Qed.

Lemma loads_none (t : list event) : forallb no_load t = true -> loads t = [].
Proof.
  induction t as [|e t IH]; [reflexivity|].
  destruct e; cbn; try discriminate; exact IH.
Qed.

Section Turns.
Context {World : Type} {sim : Simulation World}.
Variable g : float.

(** A flight loads no save and touches no file. *)
Lemma find_ascent_altitude_quiet (fuel : nat) (pitch_rate : float) :
  stays_quiet no_load (find_ascent_altitude g fuel pitch_rate).
Proof.
  unfold find_ascent_altitude, climb_loop, first_pitch_over_loop. unfold_monad.
  repeat first
    [ now apply quiet_throttle_for_twr
    | apply quiet_while
    | apply quiet_bind; [|intros ?]
    | now apply quiet_read
    | now apply quiet_time
    | now apply quiet_emit
    | apply quiet_ret ].
Qed.

Lemma find_ascent_altitude_loads_nothing (fuel : nat) (pitch_rate : float)
    (s : State World) :
  loads (trace_of (find_ascent_altitude g fuel pitch_rate) s) = [].
Proof. apply loads_none. exact (proj2 (find_ascent_altitude_quiet fuel pitch_rate s)). Qed.

Lemma fly_all_loads (fuel : nat) (save : string) (rates : list float) :
  forall acc s l s' t,
    fly_all g fuel save rates acc s = (Done l, s', t) ->
    loads t = repeat save (length rates).
Proof.
  induction rates as [|rate rates IH]; intros acc s l s' t Hrun.
  - now injection Hrun as <- <- <-.
  - cbn in Hrun. unfold_monad.
    apply bind_done in Hrun as ([] & s1 & t1 & t2 & Hload & Hrun & ->).
    injection Hload as <- <-.
    apply bind_done in Hrun as (a & s2 & t3 & t4 & Hfly & Hrun & ->).
    pose proof (find_ascent_altitude_loads_nothing fuel rate
                  {| world := react (ELoad save) (world s); files := files s |}) as Hq.
    unfold trace_of in Hq. rewrite Hfly in Hq. cbn in Hq.
    apply IH in Hrun. cbn. now rewrite loads_app, Hq, Hrun.
Qed.

Lemma sweep_save_loads (fuel i : nat) (save : string) (s s' : State World)
    (t : list event) :
  sweep_save g fuel i save s = (Done tt, s', t) ->
  loads t = repeat save 7.
Proof.
  unfold sweep_save. unfold_monad. intros Hrun.
  apply bind_done in Hrun as ([] & s1 & t1 & t2 & Hload & Hrun & ->).
  injection Hload as <- <-.
  apply bind_done in Hrun as (alts & s2 & t3 & t4 & Hfly & Hrun & ->).
  apply fly_all_loads in Hfly.
  apply bind_done in Hrun as ([] & s3 & t5 & t6 & Hwrite & Hprint & ->).
  injection Hprint as <- <-.
  assert (Ht5 : t5 = []).
  { apply bind_done in Hwrite as ([] & s4 & t7 & t8 & Hopen & Hwrite & ->).
    injection Hopen as <- <-.
    rewrite (Sweep.write_lines _ _ _ []) in Hwrite by apply lookup_insert_eq.
    now injection Hwrite as <- <-. }
  subst t5. cbn. rewrite loads_app, Hfly. reflexivity.
Qed.

(** X16: a sweep that finishes has loaded a save twenty-eight times: in each
    of the four turns once before the flights and once more before each of
    the six flights, so that every flight starts from the save. *)
Theorem sweep_loads_before_every_flight
    (fuel : nat) (s s' : State World) (t : list event) :
  sweep g fuel s = (Done tt, s', t) ->
  loads t = repeat "pad_125" 14 ++ repeat "pad_000" 14.
Proof.
  unfold sweep, saves. cbn [sweep_from]. unfold_monad. intros Hrun.
  apply bind_done in Hrun as ([] & s0 & t0 & r0 & H0 & Hrun & ->).
  apply bind_done in Hrun as ([] & s1 & t1 & r1 & H1 & Hrun & ->).
  apply bind_done in Hrun as ([] & s2 & t2 & r2 & H2 & Hrun & ->).
  apply bind_done in Hrun as ([] & s3 & t3 & r3 & H3 & Hrun & ->).
  injection Hrun as <- <-.
  apply sweep_save_loads in H0, H1, H2, H3.
  rewrite !loads_app, H0, H1, H2, H3. reflexivity.
Qed.

(** The files are as they were. *)
Definition files_kept (s s' : State World) (t : list event) : Prop :=
  files s' = files s.

Lemma files_kept_refl (s : State World) : files_kept s s [].
Proof. reflexivity. Qed.

Lemma files_kept_trans (s1 s2 s3 : State World) (t1 t2 : list event) :
  files_kept s1 s2 t1 -> files_kept s2 s3 t2 -> files_kept s1 s3 (t1 ++ t2).
Proof. unfold files_kept. congruence. Qed.

Lemma find_ascent_altitude_keeps_files (fuel : nat) (pitch_rate : float) :
  respects files_kept (find_ascent_altitude g fuel pitch_rate).
Proof. intros s. exact (proj1 (find_ascent_altitude_quiet fuel pitch_rate s)). Qed.

Lemma fly_all_keeps_files (fuel : nat) (save : string) (rates : list float) :
  forall acc, respects files_kept (fly_all g fuel save rates acc).
Proof.
  induction rates as [|rate rates IH]; intros acc; cbn [fly_all].
  - apply respects_ret, files_kept_refl.
  - unfold_monad.
    apply respects_bind; [apply files_kept_trans|now intros s|intros _].
    apply respects_bind; [apply files_kept_trans| |intros a; apply IH].
    apply find_ascent_altitude_keeps_files.
Qed.

(** A [bind] goes on with its second part, or stops where the first part
    stopped. *)
Lemma bind_cases {A B} (m : M World A) (k : A -> M World B) (s : State World) :
  (exists a,
      outcome_of m s = Done a
      /\ outcome_of (bind m k) s = outcome_of (k a) (final_state m s)
      /\ final_state (bind m k) s = final_state (k a) (final_state m s))
  \/ ((forall b, outcome_of (bind m k) s <> Done b)
      /\ final_state (bind m k) s = final_state m s).
Proof.
  unfold outcome_of, final_state, bind.
  destruct (m s) as [[[a| |] s1] t1]; cbn.
  - left. exists a. destruct (k a s1) as [[r s2] t2]. now cbn.
  - right. now split.
  - right. now split.
Qed.

Lemma write_out_done (name : string) (alts : list float) (line : string)
    (s : State World) :
  outcome_of ((open_w name;;
               for_each alts (fun asc => write name [FloatRepr asc; Str newline]));;
              print line) s
  = Done tt.
Proof.
  unfold outcome_of. unfold_monad. unfold bind, open_w at 1.
  rewrite (Sweep.write_lines _ _ _ []) by apply lookup_insert_eq.
  reflexivity.
Qed.

(** X17: a turn of the sweep writes all or nothing: unless the turn runs to
    its end (all six flights finish), no file is created, emptied or
    written, so that what an interrupted turn leaves behind is the files
    as they were. *)
Theorem sweep_save_all_or_nothing
    (fuel i : nat) (save : string) (s : State World) :
  outcome_of (sweep_save g fuel i save) s <> Done tt ->
  files (final_state (sweep_save g fuel i save) s) = files s.
Proof.
  unfold sweep_save. unfold_monad. intros Hnot.
  destruct (bind_cases (load save)
              (fun _ => bind (fly_all g fuel save pitch_rates [])
                          (fun alts =>
                             bind (bind (open_w (output_name i save))
                                     (fun _ => for_each alts
                                                 (fun asc => write (output_name i save)
                                                               [FloatRepr asc; Str newline])))
                               (fun _ => print ("Completed " +:+ pretty (i + 1)%nat
                                                 +:+ " of 6")))) s)
    as [([] & _ & Hout & Hfin)|[_ Hfin]]; [|now rewrite Hfin].
  rewrite Hfin. rewrite Hout in Hnot. clear Hout Hfin.
  set (s1 := final_state (load save) s) in *.
  assert (Hs1 : files s1 = files s) by reflexivity.
  clearbody s1.
  pose proof (fly_all_keeps_files fuel save pitch_rates [] s1) as Hkept.
  unfold files_kept in Hkept.
  match type of Hnot with
  | outcome_of (bind ?m ?k) _ <> _ =>
      destruct (bind_cases m k s1) as [(alts & _ & Hout & _)|[_ Hfin]]
  end.
  - exfalso. apply Hnot. rewrite Hout. apply write_out_done.
  - rewrite Hfin. congruence.
Qed.
End Turns.

Lemma sweep_loads_before_every_flight_witness :
  loads (trace_of (sweep 9.81 10) (Replay.coasting_with ∅))
  = repeat "pad_125" 14 ++ repeat "pad_000" 14.
Proof.
  refine (sweep_loads_before_every_flight 9.81 10 (Replay.coasting_with ∅)
            (final_state (sweep 9.81 10) (Replay.coasting_with ∅))
            (trace_of (sweep 9.81 10) (Replay.coasting_with ∅)) _).
  apply finished. vm_compute. reflexivity.
Defined.

Lemma sweep_save_all_or_nothing_witness :
  files (final_state (sweep_save 9.81 3 0 "pad_125")
           (Flights.on_the_pad {[ "pad_125_0.txt" := [Str "old"] ]}))
  = {[ "pad_125_0.txt" := [Str "old"] ]}.
Proof.
  refine (sweep_save_all_or_nothing 9.81 3 0 "pad_125"
            (Flights.on_the_pad {[ "pad_125_0.txt" := [Str "old"] ]}) _).
  vm_compute. discriminate.
Defined.
End Turns.

(** ** The sweep's flights and the first ascent cell *)

Module Profile.
Local Open Scope float_scope.

Section Profile.
Context {World : Type} {sim : Simulation World}.
Variable g : float.
Variable float_pow : float -> float -> result float.


End Profile.

End Profile.

(** ** The throttle law against the thrust and the mass *)

Module Tradeoffs.
Import FloatFacts Rounding FloatOrder Sums.

Local Open Scope Z_scope.

(** Dividing by more gives less. *)
Lemma F_div_antitone (m : positive) (e : Z) (my1 : positive) (ey1 : Z)
    (my2 : positive) (ey2 : Z) :
  valid_binary (S754_finite false m e) = true ->
  valid_binary (S754_finite false my1 ey1) = true ->
  valid_binary (S754_finite false my2 ey2) = true ->
  Z.pos my1 * 2 ^ (ey1 + 1074) <= Z.pos my2 * 2 ^ (ey2 + 1074) ->
  ord (F_div my2 ey2 m e) <= ord (F_div my1 ey1 m e).
Proof.
  intros Hv Hv1 Hv2 Hle. rewrite !F_div_eq.
  apply (binary_round_aux_mono _ _ (div_num m e my2 ey2) (Z.pos my2)
           _ _ (div_num m e my1 ey1) (Z.pos my1));
    try apply div_located; try (apply div_shift; assumption).
  apply (valid_finite false) in Hv1 as (He1 & _).
  apply (valid_finite false) in Hv2 as (He2 & _).
  pose proof (div_exp_le m e my1 ey1) as Hx1.
  pose proof (div_exp_le m e my2 ey2) as Hx2.
  unfold div_num.
  set (x1 := div_exp m e my1 ey1) in *. set (x2 := div_exp m e my2 ey2) in *.
  set (c := Z.min x2 x1).
  assert (Hc : c <= x1 /\ c <= x2) by (unfold c; lia).
  enough (H : Z.pos my1 * 2 ^ (e - ey2 - c) <= Z.pos my2 * 2 ^ (e - ey1 - c)).
  { replace (e - ey2 - c) with ((e - ey2 - x2) + (x2 - c)) in H by lia.
    replace (e - ey1 - c) with ((e - ey1 - x1) + (x1 - c)) in H by lia.
    rewrite !pow2_split in H by lia.
    assert (0 < 2 ^ (e - ey2 - x2)) by (apply pow2_pos; lia).
    assert (0 < 2 ^ (e - ey1 - x1)) by (apply pow2_pos; lia).
    assert (0 < 2 ^ (x2 - c)) by (apply pow2_pos; lia).
    assert (0 < 2 ^ (x1 - c)) by (apply pow2_pos; lia).
    set (A := 2 ^ (e - ey2 - x2)) in *. set (B := 2 ^ (x2 - c)) in *.
    set (C := 2 ^ (e - ey1 - x1)) in *. set (D := 2 ^ (x1 - c)) in *.
    clearbody A B C D. nia. }
  apply (pow2_rescale _ _ (ey1 + 1074) (ey2 + 1074)); lia.
Qed.

Local Open Scope float_scope.

Lemma div_antitone (p y1 y2 : float) :
  (0 <=? p) = true ->
  (0 <? y1) = true -> (y1 <=? y2) = true -> (y2 <? infinity) = true ->
  (p / y2 <=? p / y1) = true.
Proof.
  intros Hp Hy1 Hle Hy2.
  assert (Hy1inf : (y1 <? infinity) = true).
  { apply ltb_ord. apply leb_ord in Hle as (H1 & _ & Hle).
    apply ltb_ord in Hy2 as (_ & H3 & Hlt). repeat split; try assumption.
    eapply Z.le_lt_trans; eassumption. }
  assert (Hy2pos : (0 <? y2) = true).
  { apply ltb_ord. apply leb_ord in Hle as (_ & H2 & Hle).
    apply ltb_ord in Hy1 as (H0 & _ & Hlt). repeat split; try assumption.
    eapply Z.lt_le_trans; eassumption. }
  destruct (positive_finite y1 Hy1 Hy1inf) as (my1 & ey1 & HY1).
  destruct (positive_finite y2 Hy2pos Hy2) as (my2 & ey2 & HY2).
  apply leb_ord in Hle as (_ & _ & Hle). rewrite HY1, HY2 in Hle. cbn [ord] in Hle.
  pose proof (Prim2SF_valid y1) as Hv1. rewrite HY1 in Hv1.
  pose proof (Prim2SF_valid y2) as Hv2. rewrite HY2 in Hv2.
  apply leb_ord in Hp as (_ & Hnp & Hp). change (ord (Prim2SF 0)) with 0%Z in Hp.
  pose proof (Prim2SF_valid p) as Hvp.
  apply leb_ord.
  rewrite (div_by_finite p y1 my1 ey1 HY1), (div_by_finite p y2 my2 ey2 HY2).
  destruct (Prim2SF p) as [s|s| |s m e]; try discriminate Hnp; cbn [lifted].
  - repeat split. cbn [ord]. lia.
  - repeat split. lia.
  - destruct s.
    + exfalso. rewrite (valid_sign true false) in Hvp.
      apply ord_finite_pos in Hvp. cbn [ord] in Hp. lia.
    + repeat split; try (now apply F_div_not_nan).
      now apply F_div_antitone.
Qed.

(** [min(1.0, .)] keeps the order of numbers. *)
Lemma min2_1_mono (q1 q2 : float) :
  (q1 <=? q2) = true -> (PyFloat.min2 1 q1 <=? PyFloat.min2 1 q2) = true.
Proof.
  intros Hle. unfold PyFloat.min2.
  destruct (q2 <? 1) eqn:H2.
  - assert (H1 : (q1 <? 1) = true).
    { apply ltb_ord. apply leb_ord in Hle as (Hn1 & _ & Hord).
      apply ltb_ord in H2 as (_ & Hn & Hlt). repeat split; try assumption.
      eapply Z.le_lt_trans; eassumption. }
    now rewrite H1.
  - destruct (q1 <? 1) eqn:H1; [now apply ltb_leb|reflexivity].
Qed.

(** X19: with the same mass, more available thrust never gives a higher
    throttle: for a target_twr * weight that is not negative and positive
    finite thrusts thrust1 <= thrust2, the throttle returned for thrust2 is
    at most the one returned for thrust1. *)
Theorem calc_throttle_for_twr_antitone_in_thrust
    (g target_twr : float) (vessel1 vessel2 : Vessel) :
  mass vessel1 = mass vessel2 ->
  (0 <=? target_twr * (mass vessel1 * g)) = true ->
  (0 <? available_thrust vessel1) = true ->
  (available_thrust vessel1 <=? available_thrust vessel2) = true ->
  (available_thrust vessel2 <? infinity) = true ->
  exists throttle1 throttle2,
    calc_throttle_for_twr g target_twr vessel1 = Ok throttle1
    /\ calc_throttle_for_twr g target_twr vessel2 = Ok throttle2
    /\ (throttle2 <=? throttle1) = true.
Proof.
  intros Hmass Hp H1 Hle H2.
  assert (H2pos : (0 <? available_thrust vessel2) = true).
  { apply ltb_ord. apply leb_ord in Hle as (_ & Hn2 & Hle).
    apply ltb_ord in H1 as (H0 & _ & Hlt). repeat split; try assumption.
    eapply Z.lt_le_trans; eassumption. }
  rewrite !Throttle.calc_throttle_for_twr_nonzero by now apply ltb_0_eqb_0.
  eexists _, _. split; [reflexivity|]. split; [reflexivity|].
  apply min2_1_mono. rewrite <- Hmass. now apply div_antitone.
Qed.

Lemma calc_throttle_for_twr_antitone_in_thrust_witness :
  exists throttle1 throttle2,
    calc_throttle_for_twr 9.81 1.3 (Replay.probe 1000 20000 0 90 0 0) = Ok throttle1
    /\ calc_throttle_for_twr 9.81 1.3 (Replay.probe 1000 30000 0 90 0 0) = Ok throttle2
    /\ (throttle2 <=? throttle1) = true.
Proof.
  exact (calc_throttle_for_twr_antitone_in_thrust 9.81 1.3
           (Replay.probe 1000 20000 0 90 0 0) (Replay.probe 1000 30000 0 90 0 0)
           eq_refl eq_refl eq_refl eq_refl eq_refl).
Defined.

(** X20: with the same available thrust, a heavier vessel never gets a lower
    throttle: for positive finite gravity, target and thrust, and masses
    mass1 <= mass2, the throttle returned for mass1 is at most the one
    returned for mass2. *)
Theorem calc_throttle_for_twr_monotone_in_mass
    (g target_twr : float) (vessel1 vessel2 : Vessel) :
  available_thrust vessel1 = available_thrust vessel2 ->
  (0 <? g) = true -> (g <? infinity) = true ->
  (0 <? target_twr) = true -> (target_twr <? infinity) = true ->
  (0 <? available_thrust vessel1) = true ->
  (available_thrust vessel1 <? infinity) = true ->
  (mass vessel1 <=? mass vessel2) = true ->
  exists throttle1 throttle2,
    calc_throttle_for_twr g target_twr vessel1 = Ok throttle1
    /\ calc_throttle_for_twr g target_twr vessel2 = Ok throttle2
    /\ (throttle1 <=? throttle2) = true.
Proof.
  intros Hthrust Hg0 Hginf Ht0 Htinf Ha0 Hainf Hle.
  rewrite !Throttle.calc_throttle_for_twr_nonzero
    by (rewrite <- ?Hthrust; now apply ltb_0_eqb_0).
  eexists _, _. split; [reflexivity|]. split; [reflexivity|].
  apply min2_1_mono. rewrite <- Hthrust.
  destruct (positive_finite g Hg0 Hginf) as (mg & eg & HG).
  destruct (positive_finite target_twr Ht0 Htinf) as (mt & et & HT).
  destruct (positive_finite _ Ha0 Hainf) as (ma & ea & HA).
  apply leb_ord in Hle as (Hn1 & Hn2 & Hord).
  pose proof (mul_by_finite_mono _ _ g mg eg HG Hn1 Hn2 Hord) as Hw.
  apply leb_ord in Hw as (Hnw1 & Hnw2 & Hw).
  pose proof (mul_by_finite_mono _ _ target_twr mt et HT Hnw1 Hnw2 Hw) as Hp.
  rewrite !(mul_comm _ target_twr) in Hp.
  apply leb_ord in Hp as (Hnp1 & Hnp2 & Hp).
  exact (div_by_finite_mono _ _ _ ma ea HA Hnp1 Hnp2 Hp).
Qed.

Lemma calc_throttle_for_twr_monotone_in_mass_witness :
  exists throttle1 throttle2,
    calc_throttle_for_twr 9.81 1.3 (Replay.probe 1000 20000 0 90 0 0) = Ok throttle1
    /\ calc_throttle_for_twr 9.81 1.3 (Replay.probe 1200 20000 0 90 0 0) = Ok throttle2
    /\ (throttle1 <=? throttle2) = true.
Proof.
  exact (calc_throttle_for_twr_monotone_in_mass 9.81 1.3
           (Replay.probe 1000 20000 0 90 0 0) (Replay.probe 1200 20000 0 90 0 0)
           eq_refl eq_refl eq_refl eq_refl eq_refl eq_refl eq_refl eq_refl).
Defined.
End Tradeoffs.

(** ** Stage activations *)

Module Staging.
Local Open Scope float_scope.

Lemma stagings_app (t1 t2 : list event) :
  stagings (t1 ++ t2) = (stagings t1 + stagings t2)%nat.
Proof.
  induction t1 as [|e t1 IH]; [reflexivity|].
  destruct e; cbn; now rewrite ?IH.
Qed.

Lemma stagings_none (t : list event) : forallb no_staging t = true -> stagings t = 0%nat.
Proof.
  induction t as [|e t IH]; [reflexivity|].
  destruct e; cbn; try discriminate; exact IH.
Qed.

Section Staging.
Context {World : Type} {sim : Simulation World}.

(** Every finished run of [m] activated the next stage [n] times. *)
Definition stages (n : nat) {A} (m : M World A) : Prop :=
  forall s a s' t, m s = (Done a, s', t) -> stagings t = n.

Lemma stages_bind (n1 n2 : nat) {A B} (m : M World A) (k : A -> M World B) :
  stages n1 m -> (forall a, stages n2 (k a)) -> stages (n1 + n2) (bind m k).
Proof.
  intros Hm Hk s b s' t Hrun.
  apply bind_done in Hrun as (a & s1 & t1 & t2 & Hm1 & Hk1 & ->).
  rewrite stagings_app. f_equal; [exact (Hm _ _ _ _ Hm1)|exact (Hk _ _ _ _ _ Hk1)].
Qed.

Lemma stages_quiet {A} (m : M World A) : stays_quiet no_staging m -> stages 0 m.
Proof.
  intros Hq s a s' t Hrun. apply stagings_none.
  pose proof (proj2 (Hq s)) as Ht. unfold trace_of in Ht. now rewrite Hrun in Ht.
Qed.

Lemma stages_silent {A} (m : M World A) :
  (forall s, trace_of m s = []) -> stages 0 m.
Proof.
  intros Hm s a s' t Hrun. specialize (Hm s). unfold trace_of in Hm.
  rewrite Hrun in Hm. cbn in Hm. now subst t.
Qed.

Lemma stages_activate_next_stage : stages 1 activate_next_stage.
Proof. intros s a s' t [= <- <- <-]. reflexivity. Qed.

Lemma stages_eq (n n' : nat) {A} (m : M World A) : stages n m -> n = n' -> stages n' m.
Proof. now intros H <-. Qed.

Variable g : float.
Variable float_pow : float -> float -> result float.

Ltac no_staging_run :=
  solve [ repeat first
            [ now apply quiet_throttle_for_twr
            | apply quiet_while
            | apply quiet_bind; [|intros ?]
            | now apply quiet_read
            | now apply quiet_time
            | now apply quiet_emit
            | apply quiet_ret
            | apply quiet_vessel
            | apply quiet_lift ] ].

Ltac count_stagings :=
  repeat match goal with
    | |- stages _ (bind _ _) => eapply stages_bind; [|intros ?]
    | |- stages _ activate_next_stage => apply stages_activate_next_stage
    | |- stages _ _ => apply stages_quiet; no_staging_run
    end.

Lemma stages_find_ascent_altitude (fuel : nat) (pitch_rate : float) :
  stages 1 (find_ascent_altitude g fuel pitch_rate).
Proof.
  unfold find_ascent_altitude, climb_loop, first_pitch_over_loop. unfold_monad.
  eapply stages_eq; [count_stagings|reflexivity].
Qed.

Lemma stages_fly_all (fuel : nat) (save : string) (rates : list float) :
  forall acc, stages (length rates) (fly_all g fuel save rates acc).
Proof.
  induction rates as [|rate rates IH]; intros acc; cbn [fly_all length].
  - apply stages_silent. reflexivity.
  - unfold_monad. apply (stages_bind 0 (S (length rates))).
    + apply stages_quiet. unfold load. now apply quiet_emit.
    + intros _. apply (stages_bind 1 (length rates));
        [apply stages_find_ascent_altitude|intros a; apply IH].
Qed.

Lemma stages_sweep_save (fuel i : nat) (save : string) :
  stages 6 (sweep_save g fuel i save).
Proof.
  unfold sweep_save. unfold_monad.
  apply (stages_bind 0 6); [apply stages_quiet; unfold load; now apply quiet_emit|].
  intros _. apply (stages_bind 6 0); [apply (stages_fly_all fuel save pitch_rates)|].
  intros alts. apply (stages_bind 0 0).
  - intros s [] s' t Hrun.
    apply bind_done in Hrun as ([] & s4 & t7 & t8 & Hopen & Hwrite & ->).
    injection Hopen as <- <-.
    rewrite (Sweep.write_lines _ _ _ []) in Hwrite by apply lookup_insert_eq.
    now injection Hwrite as <- <-.
  - intros _. apply stages_quiet. unfold print. now apply quiet_emit.
Qed.

(** X21: the staging of a finished run: the first ascent cell activates the
    next stage twice (ignition and stage separation), the second cell once
    (second engine start-up), and the sweep twenty-four times, once per
    flight; no loop ever stages. *)
Theorem stage_activations (fuel : nat) (s s' : State World) (t : list event) :
  (ignition_to_meco g float_pow fuel s = (Done tt, s', t) -> stagings t = 2%nat)
  /\ (meco_to_seco1 g fuel s = (Done tt, s', t) -> stagings t = 1%nat)
  /\ (sweep g fuel s = (Done tt, s', t) -> stagings t = 24%nat).
Proof.
  split; [|split].
  - revert s s' t.
    enough (H : stages 2 (ignition_to_meco g float_pow fuel))
      by (intros s s' t; apply H).
    unfold ignition_to_meco, climb_loop, first_pitch_over_loop, hold_45_loop.
    unfold_monad. eapply stages_eq; [count_stagings|reflexivity].
  - revert s s' t.
    enough (H : stages 1 (meco_to_seco1 g fuel)) by (intros s s' t; apply H).
    unfold meco_to_seco1, second_pitch_over_loop, burn_loop.
    unfold_monad. eapply stages_eq; [count_stagings|reflexivity].
  - revert s s' t.
    enough (H : stages 24 (sweep g fuel)) by (intros s s' t; apply H).
    unfold sweep, saves. cbn [sweep_from]. unfold_monad.
    apply (stages_bind 6 18); [apply stages_sweep_save|intros _].
    apply (stages_bind 6 12); [apply stages_sweep_save|intros _].
    apply (stages_bind 6 6); [apply stages_sweep_save|intros _].
    apply (stages_bind 6 0); [apply stages_sweep_save|intros _].
    apply stages_silent. reflexivity.
Qed.
End Staging.

Lemma stage_activations_witness :
  stagings (trace_of (ignition_to_meco 9.81 float_pow_2 10) Flights.lifting_off)
  = 2%nat
  /\ stagings (trace_of (meco_to_seco1 9.81 10) Replay.burning) = 1%nat
  /\ stagings (trace_of (sweep 9.81 10) (Replay.coasting_with ∅)) = 24%nat.
Proof.
  split; [|split].
  - refine (proj1 (stage_activations 9.81 float_pow_2 10 Flights.lifting_off
                     (final_state (ignition_to_meco 9.81 float_pow_2 10)
                        Flights.lifting_off)
                     (trace_of (ignition_to_meco 9.81 float_pow_2 10)
                        Flights.lifting_off)) _).
    now apply finished.
  - refine (proj1 (proj2 (stage_activations 9.81 float_pow_2 10 Replay.burning
                            (final_state (meco_to_seco1 9.81 10) Replay.burning)
                            (trace_of (meco_to_seco1 9.81 10) Replay.burning))) _).
    now apply finished.
  - refine (proj2 (proj2 (stage_activations 9.81 float_pow_2 10
                            (Replay.coasting_with ∅)
                            (final_state (sweep 9.81 10) (Replay.coasting_with ∅))
                            (trace_of (sweep 9.81 10) (Replay.coasting_with ∅)))) _).
    apply finished. vm_compute. reflexivity.
Defined.
End Staging.

(** ** Exceptions *)

Module NoException.
Import NoPayload.
Local Open Scope float_scope.

Section NoException.
Context {World : Type} {sim : Simulation World}.

(** The available thrust, once read as not zero, is not zero at the next
    read either. *)
Definition thrust_holds : Prop :=
  forall w : World,
    (available_thrust (vessel_of w) =? 0) = false ->
    (available_thrust (vessel_of (after_get AvailableThrust w)) =? 0) = false.

Variable g : float.
Variable float_pow : float -> float -> result float.

Lemma thrust_holds_throttle_for_twr (ok : exn -> Prop) (target_twr : float) :
  thrust_holds -> raises_only ok (throttle_for_twr g target_twr).
Proof.
  intros Hholds s e He.
  destruct (throttle_for_twr_run g target_twr s) as [(x & _ & Hrun)|(Hcall & _)].
  - unfold outcome_of in He. rewrite Hrun in He. discriminate He.
  - apply calc_throttle_for_twr_call_raised in Hcall as (_ & Htested & Hdiv).
    unfold thrust_tested in Htested. unfold thrust_divided_by in Hdiv.
    rewrite (Hholds _ Htested) in Hdiv. discriminate Hdiv.
Qed.

(** The programs raise what setting the throttle for a thrust-to-weight
    ratio raises. *)
Section Programs.
Variable ok : exn -> Prop.
Hypothesis ok_throttle :
  forall target_twr, raises_only ok (throttle_for_twr g target_twr).

Ltac no_other_exception :=
  repeat match goal with
    | |- raises_only _ (bind _ _) => apply raises_only_bind; [|intros ?]
    | |- raises_only _ (while _ _ _) => apply raises_only_while
    | |- raises_only _ (throttle_for_twr _ _) => apply ok_throttle
    | |- raises_only _ _ =>
        apply raises_only_done; intros ?; eexists; reflexivity
    end.

Lemma raises_only_meco_to_seco1 (fuel : nat) : raises_only ok (meco_to_seco1 g fuel).
Proof.
  unfold meco_to_seco1, second_pitch_over_loop, burn_loop. unfold_monad.
  no_other_exception.
Qed.

Lemma raises_only_find_ascent_altitude (fuel : nat) (pitch_rate : float) :
  raises_only ok (find_ascent_altitude g fuel pitch_rate).
Proof.
  unfold find_ascent_altitude, climb_loop, first_pitch_over_loop. unfold_monad.
  no_other_exception.
Qed.

Lemma raises_only_fly_all (fuel : nat) (save : string) (rates : list float) :
  forall acc, raises_only ok (fly_all g fuel save rates acc).
Proof.
  induction rates as [|rate rates IH]; intros acc; cbn [fly_all].
  - apply raises_only_done. intros s. now eexists.
  - unfold_monad. apply raises_only_bind; [apply raises_only_emit|].
    intros _. apply raises_only_bind; [apply raises_only_find_ascent_altitude|].
    intros a. apply IH.
Qed.

Lemma raises_only_sweep_save (fuel i : nat) (save : string) :
  raises_only ok (sweep_save g fuel i save).
Proof.
  unfold sweep_save. unfold_monad.
  apply raises_only_bind; [apply raises_only_emit|]. intros _.
  apply raises_only_bind; [apply raises_only_fly_all|]. intros alts.
  apply raises_only_bind; [|intros _; apply raises_only_emit].
  apply raises_only_bind.
  - apply raises_only_done. intros s. now exists tt.
  - intros _. apply raises_only_for_each. intros asc.
    apply raises_only_done. intros s. now exists tt.
Qed.

Lemma raises_only_sweep (fuel : nat) : raises_only ok (sweep g fuel).
Proof.
  unfold sweep, saves. cbn [sweep_from]. unfold_monad.
  repeat (apply raises_only_bind; [apply raises_only_sweep_save|intros _]).
  apply raises_only_done. intros s0. now exists tt.
Qed.

Lemma raises_only_ignition_to_meco_with_payload (fuel : nat) :
  (forall w, exists pitch_rate,
      rbind (find_payload_mass (vessel_of w)) (calc_pitch_rate float_pow)
      = Ok pitch_rate) ->
  raises_only ok (ignition_to_meco g float_pow fuel).
Proof.
  intros Hpayload.
  unfold ignition_to_meco, climb_loop, first_pitch_over_loop, hold_45_loop.
  unfold_monad.
  do 7 (apply raises_only_bind; [no_other_exception|intros _]).
  apply raises_only_vessel. intros w.
  destruct (Hpayload w) as [pitch_rate Hrate].
  destruct (find_payload_mass (vessel_of w)) as [m|e]; [|discriminate Hrate].
  cbn [rbind] in Hrate.
  apply raises_only_lift; [discriminate|]. intros ? [= <-].
  apply raises_only_lift; [congruence|]. intros ? _.
  no_other_exception.
Qed.
End Programs.

Lemma raises_nothing_unit (m : M World unit) (s : State World) :
  raises_only (fun _ => False) m ->
  outcome_of m s = Done tt \/ outcome_of m s = OutOfFuel.
Proof.
  intros H. specialize (H s). destruct (outcome_of m s) as [[]|e|]; auto.
  now destruct (H e).
Qed.

(** X22: the only exception the second ascent cell and the sweep can raise
    is ZeroDivisionError, and so it is for the first ascent cell in a game
    where the payload mass and the pitch rate can always be computed (a
    part tagged 'payload_decoupler' is there, and squaring does not
    overflow).  In a game where the available thrust, once read as not
    zero, is not zero at the next read either, these runs raise nothing:
    they finish or are still going. *)
Theorem runs_raise_only_zero_division (fuel : nat) (s : State World) :
  (forall e, outcome_of (meco_to_seco1 g fuel) s = Raised e -> e = ZeroDivisionError)
  /\ (forall e, outcome_of (sweep g fuel) s = Raised e -> e = ZeroDivisionError)
  /\ ((forall w, exists pitch_rate,
          rbind (find_payload_mass (vessel_of w)) (calc_pitch_rate float_pow)
          = Ok pitch_rate) ->
      forall e,
        outcome_of (ignition_to_meco g float_pow fuel) s = Raised e ->
        e = ZeroDivisionError)
  /\ (thrust_holds ->
      (outcome_of (meco_to_seco1 g fuel) s = Done tt
       \/ outcome_of (meco_to_seco1 g fuel) s = OutOfFuel)
      /\ (outcome_of (sweep g fuel) s = Done tt
          \/ outcome_of (sweep g fuel) s = OutOfFuel)
      /\ ((forall w, exists pitch_rate,
              rbind (find_payload_mass (vessel_of w)) (calc_pitch_rate float_pow)
              = Ok pitch_rate) ->
          outcome_of (ignition_to_meco g float_pow fuel) s = Done tt
          \/ outcome_of (ignition_to_meco g float_pow fuel) s = OutOfFuel)).
Proof.
  assert (Hzero : forall target_twr,
             raises_only (fun e => e = ZeroDivisionError)
               (throttle_for_twr g target_twr)).
  { intros target_twr. now apply raises_only_throttle_for_twr. }
  split; [|split; [|split]].
  - apply (raises_only_meco_to_seco1 _ Hzero).
  - apply (raises_only_sweep _ Hzero).
  - intros Hpayload.
    apply (raises_only_ignition_to_meco_with_payload _ Hzero fuel Hpayload).
  - intros Hholds.
    assert (Hnone : forall target_twr,
               raises_only (fun _ => False) (throttle_for_twr g target_twr)).
    { intros target_twr. now apply thrust_holds_throttle_for_twr. }
    split; [|split].
    + apply raises_nothing_unit, (raises_only_meco_to_seco1 _ Hnone).
    + apply raises_nothing_unit, (raises_only_sweep _ Hnone).
    + intros Hpayload. apply raises_nothing_unit.
      apply (raises_only_ignition_to_meco_with_payload _ Hnone fuel Hpayload).
Qed.
End NoException.

(** When the engine flames out between the two reads of the thrust, the
    second ascent cell does stop on a division by zero. *)
Example flame_out_stops_meco_to_seco1 :
  outcome_of (meco_to_seco1 9.81 3) Flameout.state = Raised ZeroDivisionError.
Proof. reflexivity. Qed.

Lemma runs_raise_only_zero_division_witness :
  (outcome_of (meco_to_seco1 9.81 3) Staged.state = Done tt
   \/ outcome_of (meco_to_seco1 9.81 3) Staged.state = OutOfFuel)
  /\ (outcome_of (sweep 9.81 3) Staged.state = Done tt
      \/ outcome_of (sweep 9.81 3) Staged.state = OutOfFuel)
  /\ (outcome_of (ignition_to_meco 9.81 float_pow_2 3) Staged.state = Done tt
      \/ outcome_of (ignition_to_meco 9.81 float_pow_2 3) Staged.state = OutOfFuel).
Proof.
  destruct (proj2 (proj2 (proj2 (runs_raise_only_zero_division 9.81 float_pow_2 3
                                   Staged.state))))
    as (Hsecond & Hsweep & Hfirst).
  - intros [] _. reflexivity.
  - split; [exact Hsecond|]. split; [exact Hsweep|].
    apply Hfirst. intros []. eexists. reflexivity.
Defined.
End NoException.
